(** * The libp2p connection upgrader and the TCP dialer, embedded in Rocq

    Source files:
    - [packages/libp2p/src/upgrader.ts]: [DefaultUpgrader] with
      [upgradeInbound], [upgradeOutbound], [_createConnection] (and the
      [onIncomingStream] / [newStream] closures it builds), [_onStream],
      and the helpers [findIncomingStreamLimit], [findOutgoingStreamLimit],
      [countStreams];
    - the TCP transport ([TCP.dial], [TCP._connect]).

    The code is asynchronous and talks to collaborators (connection manager,
    gater, protector, encrypters, muxer, registrar, peer store, the remote
    peer through multistream-select).  It is embedded as computations in a
    small monad [M]: a computation reads and updates a [World] (abort
    signals with their listeners, the muxer's stream objects), appends the
    calls it makes on collaborators to a trace of [Event]s, and either
    returns a value or throws an [Error].  What a collaborator answers is
    data of the model: a [Result] stored in the record that stands for the
    collaborator. *)

From Stdlib Require Import Ascii.
From stdpp Require Import gmap strings list pretty.

(** ** Errors *)

(** The [name] of a JavaScript error object.  [GenericError] is the plain
    [Error] class; [OtherError] is any class the sources do not mention. *)
Inductive ErrorName :=
| ConnectionDeniedError
| ConnectionInterceptedError
| InvalidMultiaddrError
| InvalidPeerIdError
| EncryptionFailedError
| MuxerUnavailableError
| TooManyInboundProtocolStreamsError
| TooManyOutboundProtocolStreamsError
| LimitedConnectionError
| TimeoutError
| AbortError
| UnhandledProtocolError
| GenericError
| OtherError (n : string).

Record Error := mkError { name : ErrorName; message : string }.

Definition name_string (n : ErrorName) : string :=
  match n with
  | ConnectionDeniedError => "ConnectionDeniedError"
  | ConnectionInterceptedError => "ConnectionInterceptedError"
  | InvalidMultiaddrError => "InvalidMultiaddrError"
  | InvalidPeerIdError => "InvalidPeerIdError"
  | EncryptionFailedError => "EncryptionFailedError"
  | MuxerUnavailableError => "MuxerUnavailableError"
  | TooManyInboundProtocolStreamsError => "TooManyInboundProtocolStreamsError"
  | TooManyOutboundProtocolStreamsError => "TooManyOutboundProtocolStreamsError"
  | LimitedConnectionError => "LimitedConnectionError"
  | TimeoutError => "TimeoutError"
  | AbortError => "AbortError"
  | UnhandledProtocolError => "UnhandledProtocolError"
  | GenericError => "Error"
  | OtherError n => n
  end.

(** [String(err)], which is [Error.prototype.toString] for an error
    object: the message alone when the name is empty, the name alone when
    the message is empty, else both with a colon between them. *)
Definition String_of_error (e : Error) : string :=
  let msg := message e in
  match name_string (name e) with
  | "" => msg
  | name =>
      match msg with
      | "" => name
      | _ => name +:+ ": " +:+ msg
      end
  end.

Definition dquote : string := String (Ascii.ascii_of_nat 34) EmptyString.

Definition is_name (n : ErrorName) (e : Error) : bool :=
  bool_decide (name_string (name e) = name_string n).

(** A settled promise or a finished call: a value or a thrown error. *)
Inductive Result (A : Type) : Type :=
| Ok (a : A)
| Err (e : Error).
Arguments Ok {A} a.
Arguments Err {A} e.

(** ** Data *)

Definition PeerId := string.

Inductive Direction := inbound | outbound.

Definition Direction_eqb (a b : Direction) : bool :=
  match a, b with
  | inbound, inbound | outbound, outbound => true
  | _, _ => false
  end.

(** A multiaddress, as far as the upgrader reads it: [getPeerId()]. *)
Record Multiaddr := mkMultiaddr {
  ma_text : string;
  getPeerId : option string
}.

(** A [MultiaddrConnection]: the remote address, the stack of layers
    (protector, encrypter, muxer negotiation) wrapped around the raw
    connection so far, and how the promise of its [close] settles. *)
Record MultiaddrConnection := mkMaConn {
  remoteAddr : Multiaddr;
  layers : list string;
  maConn_close : Result unit
}.

(** [{ ...protectedConn, ...encryptedConn }]: the properties of the second
    object override those of the first; both carry the same properties. *)
Definition spread (protectedConn encryptedConn : MultiaddrConnection) :
  MultiaddrConnection := encryptedConn.

Record SecuredConnection := mkSecured {
  conn : MultiaddrConnection;
  sc_remotePeer : PeerId
}.

Record CryptoResult := mkCryptoResult {
  cr_conn : MultiaddrConnection;
  cr_remotePeer : PeerId;
  cr_protocol : string
}.

Definition ConnectionLimits := string.

(** The gater methods [shouldBlockConnection] is called with. *)
Inductive ConnectionDeniedType :=
| denyOutboundConnection
| denyInboundEncryptedConnection
| denyOutboundEncryptedConnection
| denyInboundUpgradedConnection
| denyOutboundUpgradedConnection.

Definition connectionType_string (t : ConnectionDeniedType) : string :=
  match t with
  | denyOutboundConnection => "denyOutboundConnection"
  | denyInboundEncryptedConnection => "denyInboundEncryptedConnection"
  | denyOutboundEncryptedConnection => "denyOutboundEncryptedConnection"
  | denyInboundUpgradedConnection => "denyInboundUpgradedConnection"
  | denyOutboundUpgradedConnection => "denyOutboundUpgradedConnection"
  end.

(** A muxed stream object.  [s_protocol] is unset until a protocol has been
    negotiated; [timeline_close] tells whether [timeline.close] is set;
    [s_close] is how the promise of its [close] method settles; the
    [*_rebound] fields tell whether the property was overwritten with the
    one multistream-select returned. *)
Record Stream := mkStream {
  s_id : nat;
  s_direction : Direction;
  s_protocol : option string;
  timeline_close : bool;
  s_close : Result unit;
  io_rebound : bool;
  closeWrite_rebound : bool;
  closeRead_rebound : bool
}.

(** What multistream-select returns for a stream: the protocol and which of
    the optional methods the returned stream carries ([n_close]: the
    [close] method, given by how its promise settles). *)
Record Negotiated := mkNegotiated {
  n_protocol : string;
  n_closeWrite : bool;
  n_closeRead : bool;
  n_close : option (Result unit)
}.

(** ** Abort signals *)

(** The three [onAbort] listeners of the sources. *)
Inductive AbortListener :=
| InboundUpgradeTimeout   (* upgradeInbound: maConn.abort(new TimeoutError(..)) *)
| DialAbort               (* TCP.dial: maConn.close().catch(..) *)
| ConnectAbort.           (* TCP._connect: rawSocket.destroy(); done(new AbortError()) *)

Definition AbortListener_eqb (a b : AbortListener) : bool :=
  match a, b with
  | InboundUpgradeTimeout, InboundUpgradeTimeout
  | DialAbort, DialAbort
  | ConnectAbort, ConnectAbort => true
  | _, _ => false
  end.

(** An [AbortSignal].  [fires_in = Some n]: the signal fires during the
    (n+1)-th next suspension of the running task; [None]: it does not fire
    while the task runs. *)
Record AbortSignal := mkSignal {
  aborted : bool;
  reason : Error;
  fires_in : option nat;
  listeners : list AbortListener
}.

(** ** Events: the calls made on collaborators *)

Inductive Event :=
| EvAcceptIncomingConnection
| EvAfterUpgradeInbound
| EvDenyInboundConnection
| EvGater (t : ConnectionDeniedType) (remotePeer : PeerId) (maConn : MultiaddrConnection)
| EvTrackMultiaddrConnection
| EvTrackProtocolStream (stream : nat)
| EvProtect
| EvProgress (event : string)
| EvMssHandle (protocols : list string)
| EvMssSelect (protocols : list string)
| EvSecureInbound (protocol : string)
| EvSecureOutbound (protocol : string) (remotePeer : option PeerId)
| EvMaConnClose (cause : option Error)
| EvMaConnAbort (e : Error)
| EvLog (msg : string)
| EvLogError (msg : string) (e : Error)
| EvCreateStreamMuxer (protocol : string) (d : Direction)
| EvPipe
| EvTimelineUpgraded
| EvDispatch (event : string)
| EvOnAbort (l : AbortListener)
| EvMuxerNewStream
| EvMuxerClose
| EvMuxerAbort (e : Error)
| EvStreamAbort (stream : nat) (e : Error)
| EvStreamClose (stream : nat)
| EvPeerStoreMerge (peer : PeerId) (protocol : string)
| EvHandler (protocol : string) (stream : nat)
| EvNetConnect
| EvSocketDestroy
| EvSocketOnError
| EvDialerEvent (label : string).

(** ** The world a task runs in *)

Record World := mkWorld {
  signals : list AbortSignal;
  (* AbortSignal.timeout(ms): after how many suspensions the timer fires *)
  timers : Z → option nat;
  (* the stream objects, by id, and muxer.streams *)
  objects : gmap nat Stream;
  muxerStreams : list nat
}.

Definition set_signals (f : list AbortSignal → list AbortSignal) (w : World) : World :=
  mkWorld (f (signals w)) (timers w) (objects w) (muxerStreams w).

Definition set_objects (f : gmap nat Stream → gmap nat Stream) (w : World) : World :=
  mkWorld (signals w) (timers w) (f (objects w)) (muxerStreams w).

Definition set_muxerStreams (f : list nat → list nat) (w : World) : World :=
  mkWorld (signals w) (timers w) (objects w) (f (muxerStreams w)).

(** One suspension of the task, seen from a signal: a signal that is due
    fires, which marks it aborted and runs its listeners. *)
Definition step_signal (s : AbortSignal) : AbortSignal :=
  match fires_in s with
  | Some 0 => mkSignal true (reason s) None []
  | Some (S n) => mkSignal (aborted s) (reason s) (Some n) (listeners s)
  | None => s
  end.

Definition fired_by (s : AbortSignal) : list Event :=
  match fires_in s with
  | Some 0 => EvOnAbort <$> listeners s
  | _ => []
  end.

Definition tick (w : World) : World := set_signals (fmap step_signal) w.

Definition fired (w : World) : list Event := signals w ≫= fired_by.

(** ** The monad of tasks *)

Record Run (A : Type) := mkRun {
  trace : list Event;
  final : World;
  result : Result A
}.
Arguments mkRun {A} trace final result.
Arguments trace {A} r.
Arguments final {A} r.
Arguments result {A} r.

Definition M (A : Type) : Type := World → Run A.

Definition ret {A} (a : A) : M A := λ w, mkRun [] w (Ok a).

Definition throw {A} (e : Error) : M A := λ w, mkRun [] w (Err e).

Definition bind {A B} (m : M A) (k : A → M B) : M B := λ w,
  match m w with
  | mkRun t w' (Ok a) =>
      match k a w' with
      | mkRun t' w'' r => mkRun (t ++ t') w'' r
      end
  | mkRun t w' (Err e) => mkRun t w' (Err e)
  end.

#[global] Instance M_ret : MRet M := @ret.
#[global] Instance M_bind : MBind M := λ A B k m, bind m k.

(** [try { m } catch (err) { h err }] *)
Definition try_catch {A} (m : M A) (h : Error → M A) : M A := λ w,
  match m w with
  | mkRun t w' (Ok a) => mkRun t w' (Ok a)
  | mkRun t w' (Err e) =>
      match h e w' with
      | mkRun t' w'' r => mkRun (t ++ t') w'' r
      end
  end.

(** [try { m } finally { f }]: [f] runs on every exit of [m]; an error
    thrown by [f] replaces the outcome of [m]. *)
Definition try_finally {A} (m : M A) (f : M unit) : M A := λ w,
  match m w with
  | mkRun t w' r =>
      match f w' with
      | mkRun t' w'' (Ok _) => mkRun (t ++ t') w'' r
      | mkRun t' w'' (Err e) => mkRun (t ++ t') w'' (Err e)
      end
  end.

Definition emit (e : Event) : M unit := λ w, mkRun [e] w (Ok tt).

Definition gets {A} (f : World → A) : M A := λ w, mkRun [] w (Ok (f w)).

Definition modify (f : World → World) : M unit := λ w, mkRun [] (f w) (Ok tt).

(** [await p] for a promise that settles as [o]: the task is suspended
    once; signals that are due fire during the suspension. *)
Definition await {A} (o : Result A) : M A := λ w, mkRun (fired w) (tick w) o.

(** A finished synchronous call: [o] is returned or thrown. *)
Definition settle {A} (o : Result A) : M A := λ w, mkRun [] w o.

(** A synchronous call on a collaborator that answers [o]. *)
Definition call {A} (e : Event) (o : Result A) : M A := emit e;; settle o.

(** An awaited call on a collaborator whose promise settles as [o]. *)
Definition call_await {A} (e : Event) (o : Result A) : M A := emit e;; await o.

Definition when (b : bool) (m : M unit) : M unit := if b then m else ret tt.

(** [promise.catch(h)] on a task that is not awaited: the task runs, an
    error it throws goes to [h], and the caller goes on. *)
Definition detached (m : M unit) (h : Error → M unit) : M unit := try_catch m h.

(** *** Signals in the world *)

(** [AbortSignal.timeout] checks its delay before it makes a signal.  On
    Node.js, on which these sources run (the transport imports [net]), the
    delay has to be an integer from 0 to 2^32 - 1; for any other the call
    throws a [RangeError].  A delay is an integer number of milliseconds
    here. *)
Definition MAX_DELAY : Z := 4294967295.

Definition delay_accepted (ms : Z) : bool := (0 <=? ms)%Z && (ms <=? MAX_DELAY)%Z.

(** The digits of a number in groups of three, from the right. *)
Fixpoint separate_digits (n : nat) (reversed : list Ascii.ascii) : list Ascii.ascii :=
  match reversed with
  | [] => []
  | digit :: reversed =>
      match n with
      | 0 => "_"%char :: digit :: separate_digits 2 reversed
      | S n => digit :: separate_digits n reversed
      end
  end.

Definition addNumericalSeparator (n : N) : string :=
  String.string_of_list_ascii
    (reverse (separate_digits 3 (reverse (String.list_ascii_of_string (pretty n))))).

(** How the error message shows the delay it received: with separators
    when its absolute value is above 2^32. *)
Definition received (ms : Z) : string :=
  (if (ms <? 0)%Z then "-" else "")
  +:+ (if (2 ^ 32 <? Z.abs ms)%Z then addNumericalSeparator (Z.abs_N ms)
       else pretty (Z.abs_N ms)).

Definition ERR_OUT_OF_RANGE (ms : Z) : Error :=
  mkError (OtherError "RangeError")
    ("The value of " +:+ dquote +:+ "delay" +:+ dquote +:+
     " is out of range. It must be >= 0 && <= 4294967295. Received " +:+ received ms).

(** [AbortSignal.timeout(ms)] *)
Definition AbortSignal_timeout (ms : Z) : M nat := λ w,
  if delay_accepted ms then
    mkRun [] (set_signals (λ l, l ++ [mkSignal false (mkError TimeoutError "The operation timed out") (timers w ms) []]) w)
          (Ok (length (signals w)))
  else mkRun [] w (Err (ERR_OUT_OF_RANGE ms)).

Definition signal_aborted (sig : nat) (w : World) : bool :=
  match signals w !! sig with
  | Some s => aborted s
  | None => false
  end.

(** [signal.addEventListener('abort', l)]: no effect on a signal that has
    fired already *)
Definition addEventListener (sig : nat) (l : AbortListener) : M unit :=
  modify (set_signals (alter (λ s,
    if aborted s then s
    else mkSignal (aborted s) (reason s) (fires_in s) (listeners s ++ [l])) sig)).

Definition removeEventListener (sig : nat) (l : AbortListener) : M unit :=
  modify (set_signals (alter (λ s,
    mkSignal (aborted s) (reason s) (fires_in s)
             (filter (λ l', AbortListener_eqb l l' = false) (listeners s))) sig)).

(** ** JavaScript [Map]s with string keys

    A [Map] keeps its keys in the order of their first insertion, and
    [keys()] lists them in that order, so it is an association list here. *)
Section JSMap.
Context {V : Type}.

Fixpoint map_set (k : string) (v : V) (m : list (string * V)) : list (string * V) :=
  match m with
  | [] => [(k, v)]
  | (k', v') :: m' =>
      if String.eqb k k' then (k, v) :: m' else (k', v') :: map_set k v m'
  end.

Fixpoint map_get (k : string) (m : list (string * V)) : option V :=
  match m with
  | [] => None
  | (k', v') :: m' => if String.eqb k k' then Some v' else map_get k m'
  end.

Definition map_keys (m : list (string * V)) : list string := fst <$> m.

Definition map_size (m : list (string * V)) : nat := length m.
End JSMap.

(** ** Collaborators *)

(** [options] of a registered stream handler. *)
Record StreamHandlerOptions := mkHandlerOptions {
  maxInboundStreams : option Z;
  maxOutboundStreams : option Z;
  runOnLimitedConnection : option bool
}.

(** A registrar entry.  [handler stream] is what the call
    [handler({ connection, stream })] does: it returns or throws. *)
Record StreamHandlerRecord := mkHandlerRecord {
  handler : nat → Result unit;
  options : StreamHandlerOptions
}.

(** The registrar.  [getHandler] throws an error named
    [UnhandledProtocolError] for a protocol without handler. *)
Record Registrar := mkRegistrar {
  getProtocols : list string;
  getHandler : string → Result StreamHandlerRecord
}.

Record PeerStore := mkPeerStore {
  merge : PeerId → list string → Result unit
}.

Record ConnectionManager := mkConnectionManager {
  acceptIncomingConnection : MultiaddrConnection → Result bool
}.

(** The connection gater; every method is optional. *)
Record ConnectionGater := mkGater {
  denyInboundConnection : option (MultiaddrConnection → Result bool);
  gater_denyOutboundConnection : option (PeerId → MultiaddrConnection → Result bool);
  gater_denyInboundEncryptedConnection : option (PeerId → MultiaddrConnection → Result bool);
  gater_denyOutboundEncryptedConnection : option (PeerId → MultiaddrConnection → Result bool);
  gater_denyInboundUpgradedConnection : option (PeerId → MultiaddrConnection → Result bool);
  gater_denyOutboundUpgradedConnection : option (PeerId → MultiaddrConnection → Result bool)
}.

(** [this.components.connectionGater[connectionType]] *)
Definition gater_method (g : ConnectionGater) (t : ConnectionDeniedType) :
  option (PeerId → MultiaddrConnection → Result bool) :=
  match t with
  | denyOutboundConnection => gater_denyOutboundConnection g
  | denyInboundEncryptedConnection => gater_denyInboundEncryptedConnection g
  | denyOutboundEncryptedConnection => gater_denyOutboundEncryptedConnection g
  | denyInboundUpgradedConnection => gater_denyInboundUpgradedConnection g
  | denyOutboundUpgradedConnection => gater_denyOutboundUpgradedConnection g
  end.

Record ConnectionProtector := mkProtector {
  protect : MultiaddrConnection → Result MultiaddrConnection
}.

Record ConnectionEncrypter := mkEncrypter {
  enc_protocol : string;
  secureInbound : MultiaddrConnection → Result SecuredConnection;
  secureOutbound : MultiaddrConnection → option PeerId → Result SecuredConnection
}.

(** A stream muxer: its protocol name and how its calls settle. *)
Record StreamMuxer := mkMuxer {
  mux_protocol : string;
  mux_newStream : Result unit;
  mux_close : Result unit
}.

Record StreamMuxerFactory := mkMuxerFactory {
  mf_protocol : string;
  createStreamMuxer : Direction → StreamMuxer
}.

Record DefaultUpgraderComponents := mkComponents {
  peerId : PeerId;
  metrics : bool;     (* is a metrics collaborator present *)
  connectionManager : ConnectionManager;
  connectionGater : ConnectionGater;
  connectionProtector : option ConnectionProtector;
  registrar : Registrar;
  peerStore : PeerStore
}.

Record UpgraderInit := mkUpgraderInit {
  init_connectionEncrypters : list ConnectionEncrypter;
  init_streamMuxers : list StreamMuxerFactory;
  init_inboundUpgradeTimeout : option Z
}.

Record DefaultUpgrader := mkUpgrader {
  components : DefaultUpgraderComponents;
  connectionEncrypters : list (string * ConnectionEncrypter);
  streamMuxers : list (string * StreamMuxerFactory);
  inboundUpgradeTimeout : Z
}.

Record UpgraderOptions := mkUpgraderOptions {
  skipEncryption : option bool;
  skipProtection : option bool;
  opt_muxerFactory : option StreamMuxerFactory;
  opt_limits : option ConnectionLimits;
  onProgress : bool   (* is a progress callback present *)
}.

Record NewStreamOptions := mkNewStreamOptions {
  ns_signal : option nat;
  ns_maxOutboundStreams : option Z
}.

(** ** Constants *)

Definition DEFAULT_PROTOCOL_SELECT_TIMEOUT : Z := 30000.

(** Modelled from the spec: [INBOUND_UPGRADE_TIMEOUT] is imported from
    [./connection-manager/constants.js], which is not among the sources;
    the spec gives the default of [inboundUpgradeTimeout] as 30000 ms. *)
Definition INBOUND_UPGRADE_TIMEOUT : Z := 30000.

(** Modelled from the spec: [DEFAULT_MAX_INBOUND_STREAMS] is imported from
    [./registrar.js], which is not among the sources; the spec gives 32. *)
Definition DEFAULT_MAX_INBOUND_STREAMS : Z := 32.

(** Modelled from the spec: [DEFAULT_MAX_OUTBOUND_STREAMS] is imported from
    [./registrar.js], which is not among the sources; the spec gives 32. *)
Definition DEFAULT_MAX_OUTBOUND_STREAMS : Z := 32.

(** ** Stream limits *)

(** [findIncomingStreamLimit]: the handler's [maxInboundStreams], which may
    be undefined; the default only when [getHandler] throws an
    [UnhandledProtocolError]; any other error is thrown again. *)
Definition findIncomingStreamLimit (protocol : string) (registrar : Registrar) :
  Result (option Z) :=
  match getHandler registrar protocol with
  | Ok r => Ok (maxInboundStreams (options r))
  | Err err =>
      if negb (is_name UnhandledProtocolError err) then Err err
      else Ok (Some DEFAULT_MAX_INBOUND_STREAMS)
  end.

(** [options.maxOutboundStreams ?? DEFAULT_MAX_OUTBOUND_STREAMS] *)
Definition nullish {A} (o : option A) (d : A) : A :=
  match o with Some a => a | None => d end.

(** [findOutgoingStreamLimit] *)
Definition findOutgoingStreamLimit (protocol : string) (registrar : Registrar)
    (opts : NewStreamOptions) : Result Z :=
  match getHandler registrar protocol with
  | Ok r =>
      match maxOutboundStreams (options r) with
      | Some n => Ok n
      | None => Ok (nullish (ns_maxOutboundStreams opts) DEFAULT_MAX_OUTBOUND_STREAMS)
      end
  | Err err =>
      if negb (is_name UnhandledProtocolError err) then Err err
      else Ok (nullish (ns_maxOutboundStreams opts) DEFAULT_MAX_OUTBOUND_STREAMS)
  end.

Definition protocol_is (protocol : string) (s : Stream) : bool :=
  match s_protocol s with
  | Some p => String.eqb p protocol
  | None => false
  end.

(** [countStreams (protocol, direction, connection)]; the connection is
    read through [connection.streams] only, which is the argument here. *)
Definition countStreams (protocol : string) (direction : Direction)
    (connection_streams : list Stream) : nat :=
  length (filter (λ stream,
            Direction_eqb (s_direction stream) direction && protocol_is protocol stream = true)
          connection_streams).

(** [streamCount === incomingLimit], where the limit may be undefined *)
Definition strict_eq_limit (streamCount : nat) (incomingLimit : option Z) : bool :=
  match incomingLimit with
  | Some l => Z.eqb (Z.of_nat streamCount) l
  | None => false
  end.

(** ** Stream objects in the world *)

(** [muxer.streams]: the stream objects the muxer lists. *)
Definition muxer_streams (w : World) : list Stream :=
  omap (λ id, objects w !! id) (muxerStreams w).

Definition update_stream (id : nat) (f : Stream → Stream) : M unit :=
  modify (set_objects (alter f id)).

(** [muxedStream.timeline.close != null] *)
Definition stream_closed (id : nat) (w : World) : bool :=
  match objects w !! id with
  | Some s => timeline_close s
  | None => false
  end.

Definition set_timeline_close (s : Stream) : Stream :=
  mkStream (s_id s) (s_direction s) (s_protocol s) true (s_close s)
           (io_rebound s) (closeWrite_rebound s) (closeRead_rebound s).

(** Modelled from the spec: the muxed stream's [abort(err)] belongs to the
    muxer implementation, which is not among the sources.  The stream has a
    [timeline] with [close], and the sources guard [abort] and [close] by
    [timeline.close == null]: an aborted stream has [timeline.close] set. *)
Definition stream_abort (id : nat) (err : Error) : M unit :=
  emit (EvStreamAbort id err);;
  update_stream id set_timeline_close.

(** Modelled from the spec: the muxed stream's [close()]; when its promise
    resolves, [timeline.close] is set. *)
Definition stream_close (id : nat) : M unit :=
  o ← gets (λ w, match objects w !! id with Some s => s_close s | None => Ok tt end);
  call_await (EvStreamClose id) o;;
  update_stream id set_timeline_close.

(** The assignments [muxedStream.source = stream.source], [.sink], [.protocol]
    and the three conditional ones for [closeWrite], [closeRead], [close]. *)
Definition rebind (stream : Negotiated) (muxedStream : Stream) : Stream :=
  mkStream (s_id muxedStream) (s_direction muxedStream)
           (Some (n_protocol stream))
           (timeline_close muxedStream)
           (match n_close stream with Some c => c | None => s_close muxedStream end)
           true
           (if n_closeWrite stream then true else closeWrite_rebound muxedStream)
           (if n_closeRead stream then true else closeRead_rebound muxedStream).

(** Modelled from the spec: a muxer creating a stream object and adding it
    to its live set [streams]; the object has no protocol yet. *)
Definition fresh_stream_id (w : World) : nat := fresh (dom (objects w)).

Definition muxer_open (d : Direction) : M nat := λ w,
  let id := fresh_stream_id w in
  mkRun []
    (set_muxerStreams (λ l, l ++ [id])
       (set_objects (insert id (mkStream id d None false (Ok tt) false false false)) w))
    (Ok id).

(** [await muxer.newStream()] *)
Definition muxer_newStream (muxer : StreamMuxer) : M nat :=
  call_await EvMuxerNewStream (mux_newStream muxer);;
  muxer_open outbound.

(** ** The connection object *)

(** Modelled from the spec: [createConnection] is imported from
    [./connection/index.js], which is not among the sources.  The spec's
    [Connection] exposes the attributes and operations it is created with,
    and its [streams] are what [getStreams()] returns; a [Connection] here
    is the record of what [_createConnection] hands to [createConnection]. *)
Record Connection := mkConnection {
  c_remoteAddr : Multiaddr;
  c_remotePeer : PeerId;
  status : string;
  c_direction : Direction;
  multiplexer : option string;
  encryption : string;
  limits : option ConnectionLimits;
  newStream : list string → NewStreamOptions → M nat;
  getStreams : World → list Stream;
  close : M unit;
  abort : Error → M unit
}.

(** Multistream-select, the library [mss]: what the remote peer makes of a
    negotiation, on a connection and on a muxed stream. *)
Record MultistreamSelect := mkMss {
  handle : MultiaddrConnection → list string → Result (MultiaddrConnection * string);
  select : MultiaddrConnection → list string → Result (MultiaddrConnection * string);
  handle_stream : nat → list string → Result Negotiated;
  select_stream : nat → list string → Result Negotiated
}.

(** [CreateConnectionOptions] *)
Record CreateConnectionOptions := mkCreateConnectionOptions {
  cc_cryptoProtocol : string;
  cc_direction : Direction;
  cc_maConn : MultiaddrConnection;
  cc_upgradedConn : MultiaddrConnection;
  cc_remotePeer : PeerId;
  cc_muxerFactory : option StreamMuxerFactory;
  cc_limits : option ConnectionLimits
}.

(** [x === true] / [x !== true] on an optional boolean *)
Definition is_true (o : option bool) : bool :=
  match o with Some true => true | _ => false end.

(** * [upgrader.ts]: the class [DefaultUpgrader] *)

Section DefaultUpgrader.

(** The imported libraries whose answers depend on the remote peer or on
    the input: [@libp2p/multistream-select] and [peerIdFromString]. *)
Variable mss : MultistreamSelect.
Variable peerIdFromString : string → Result PeerId.

(** The constructor *)
Definition newDefaultUpgrader (components : DefaultUpgraderComponents)
    (init : UpgraderInit) : DefaultUpgrader :=
  mkUpgrader components
    (foldl (λ m encrypter, map_set (enc_protocol encrypter) encrypter m) []
           (init_connectionEncrypters init))
    (foldl (λ m muxer, map_set (mf_protocol muxer) muxer m) []
           (init_streamMuxers init))
    (nullish (init_inboundUpgradeTimeout init) INBOUND_UPGRADE_TIMEOUT).

Variable this : DefaultUpgrader.

(** [shouldBlockConnection] *)
Definition shouldBlockConnection (remotePeer : PeerId) (maConn : MultiaddrConnection)
    (connectionType : ConnectionDeniedType) : M unit :=
  match gater_method (connectionGater (components this)) connectionType with
  | Some connectionGater =>
      blocked ← call_await (EvGater connectionType remotePeer maConn)
                           (connectionGater remotePeer maConn);
      if blocked : bool then
        throw (mkError ConnectionInterceptedError
                 ("The multiaddr connection is blocked by gater." +:+
                  connectionType_string connectionType))
      else ret tt
  | None => ret tt
  end.

(** [_encryptInbound] *)
Definition _encryptInbound (connection : MultiaddrConnection) : M CryptoResult :=
  let protocols := map_keys (connectionEncrypters this) in
  emit (EvLog "handling inbound crypto protocol selection");;
  try_catch
    ('(stream, protocol) ← call_await (EvMssHandle protocols)
                                      (handle mss connection protocols);
     match map_get protocol (connectionEncrypters this) with
     | None => throw (mkError GenericError ("no crypto module found for " +:+ protocol))
     | Some encrypter =>
         emit (EvLog "encrypting inbound connection using");;
         secured ← call_await (EvSecureInbound protocol) (secureInbound encrypter stream);
         ret (mkCryptoResult (conn secured) (sc_remotePeer secured) protocol)
     end)
    (λ err,
       emit (EvLogError "encrypting inbound connection failed" err);;
       throw (mkError EncryptionFailedError (message err))).

(** [_encryptOutbound] *)
Definition _encryptOutbound (connection : MultiaddrConnection)
    (remotePeer : option PeerId) : M CryptoResult :=
  let protocols := map_keys (connectionEncrypters this) in
  emit (EvLog "selecting outbound crypto protocol");;
  try_catch
    (emit (EvLog "selecting encrypter from %s");;
     '(stream, protocol) ← call_await (EvMssSelect protocols)
                                      (select mss connection protocols);
     match map_get protocol (connectionEncrypters this) with
     | None => throw (mkError GenericError ("no crypto module found for " +:+ protocol))
     | Some encrypter =>
         emit (EvLog "encrypting outbound connection to %p using %s");;
         secured ← call_await (EvSecureOutbound protocol remotePeer)
                              (secureOutbound encrypter stream remotePeer);
         ret (mkCryptoResult (conn secured) (sc_remotePeer secured) protocol)
     end)
    (λ err,
       emit (EvLogError "encrypting outbound connection to %p failed" err);;
       throw (mkError EncryptionFailedError (message err))).

(** [_multiplexOutbound] *)
Definition _multiplexOutbound (connection : MultiaddrConnection)
    (muxers : list (string * StreamMuxerFactory)) :
  M (MultiaddrConnection * option StreamMuxerFactory) :=
  let protocols := map_keys muxers in
  emit (EvLog "outbound selecting muxer %s");;
  try_catch
    (emit (EvLog "selecting stream muxer from %s");;
     '(stream, protocol) ← call_await (EvMssSelect protocols)
                                      (select mss connection protocols);
     emit (EvLog "selected %s as muxer protocol");;
     let muxerFactory := map_get protocol muxers in
     ret (stream, muxerFactory))
    (λ err,
       emit (EvLogError "error multiplexing outbound connection" err);;
       throw (mkError MuxerUnavailableError (String_of_error err))).

(** [_multiplexInbound] *)
Definition _multiplexInbound (connection : MultiaddrConnection)
    (muxers : list (string * StreamMuxerFactory)) :
  M (MultiaddrConnection * option StreamMuxerFactory) :=
  let protocols := map_keys muxers in
  emit (EvLog "inbound handling muxers %s");;
  try_catch
    ('(stream, protocol) ← call_await (EvMssHandle protocols)
                                      (handle mss connection protocols);
     let muxerFactory := map_get protocol muxers in
     ret (stream, muxerFactory))
    (λ err,
       emit (EvLogError "error multiplexing inbound connection" err);;
       throw (mkError MuxerUnavailableError (String_of_error err))).

(** [_onStream]: routes an incoming stream to its handler *)
Definition _onStream (connection : Connection) (stream : nat) (protocol : string) :
  M unit :=
  r ← settle (getHandler (registrar (components this)) protocol);
  if bool_decide (limits connection ≠ None)
     && negb (is_true (runOnLimitedConnection (options r)))
  then throw (mkError LimitedConnectionError
                "Cannot open protocol stream on limited connection")
  else call (EvHandler protocol stream) (handler r stream).

(** The task of [onIncomingStream]: the function given to [then]. *)
Definition onIncomingStream_then (remotePeer : PeerId) (connection : Connection)
    (muxedStream : nat) : M unit :=
  let protocols := getProtocols (registrar (components this)) in
  stream ← call_await (EvMssHandle protocols)
                      (handle_stream mss muxedStream protocols);
  let protocol := n_protocol stream in
  emit (EvLog "incoming stream opened on %s");;
  incomingLimit ← settle (findIncomingStreamLimit protocol
                            (registrar (components this)));
  streamCount ← gets (λ w, countStreams protocol inbound (getStreams connection w));
  if strict_eq_limit streamCount incomingLimit then
    let err := mkError TooManyInboundProtocolStreamsError
                 ("Too many inbound protocol streams for protocol " +:+
                  dquote +:+ protocol +:+ dquote +:+ " - limit " +:+
                  match incomingLimit with
                  | Some l => pretty l
                  | None => "undefined"
                  end) in
    stream_abort muxedStream err;;
    throw err
  else
    update_stream muxedStream (rebind stream);;
    call_await (EvPeerStoreMerge remotePeer protocol)
               (merge (peerStore (components this)) remotePeer [protocol]);;
    when (metrics (components this)) (emit (EvTrackProtocolStream muxedStream));;
    _onStream connection muxedStream protocol.

(** The function given to [catch]. *)
Definition onIncomingStream_catch (muxedStream : nat) (err : Error) : M unit :=
  emit (EvLogError "error handling incoming stream id %s" err);;
  closed ← gets (stream_closed muxedStream);
  if closed : bool then ret tt else stream_close muxedStream.

(** The closure [onIncomingStream] that [_createConnection] hands to the
    muxer.  [connection] is the variable of [_createConnection] the
    closure reads: unset until the connection object exists.  The task
    it starts is not awaited and catches its own errors. *)
Definition onIncomingStream (remotePeer : PeerId) (connection : option Connection)
    (muxedStream : nat) : M unit :=
  match connection with
  | None => ret tt
  | Some connection =>
      detached (onIncomingStream_then remotePeer connection muxedStream)
               (onIncomingStream_catch muxedStream)
  end.

(** The closure [newStream] of [_createConnection].  [muxer] is the
    variable the closure reads; [connection_streams] is
    [connection.streams]. *)
Definition newStream_closure (remotePeer : PeerId) (muxer : option StreamMuxer)
    (connection_streams : World → list Stream)
    (protocols : list string) (options : NewStreamOptions) : M nat :=
  match muxer with
  | None => throw (mkError MuxerUnavailableError "Connection is not multiplexed")
  | Some muxer =>
      emit (EvLog "starting new stream for protocols %s");;
      muxedStream ← muxer_newStream muxer;
      emit (EvLog "started new stream %s for protocols %s");;
      try_catch
        (options ← match ns_signal options with
                   | None =>
                       emit (EvLog "no abort signal was passed while trying to negotiate protocols %s falling back to default timeout");;
                       signal ← AbortSignal_timeout DEFAULT_PROTOCOL_SELECT_TIMEOUT;
                       ret (mkNewStreamOptions (Some signal) (ns_maxOutboundStreams options))
                   | Some _ => ret options
                   end;
         emit (EvLog "selecting protocol from protocols %s");;
         stream ← call_await (EvMssSelect protocols)
                             (select_stream mss muxedStream protocols);
         let protocol := n_protocol stream in
         emit (EvLog "selected protocol %s");;
         outgoingLimit ← settle (findOutgoingStreamLimit protocol
                                   (registrar (components this)) options);
         streamCount ← gets (λ w, countStreams protocol outbound (connection_streams w));
         if Z.geb (Z.of_nat streamCount) outgoingLimit then
           let err := mkError TooManyOutboundProtocolStreamsError
                        ("Too many outbound protocol streams for protocol " +:+
                         dquote +:+ protocol +:+ dquote +:+ " - " +:+
                         pretty streamCount +:+ "/" +:+ pretty outgoingLimit) in
           stream_abort muxedStream err;;
           throw err
         else
           call_await (EvPeerStoreMerge remotePeer protocol)
                      (merge (peerStore (components this)) remotePeer [protocol]);;
           update_stream muxedStream (rebind stream);;
           when (metrics (components this)) (emit (EvTrackProtocolStream muxedStream));;
           ret muxedStream)
        (λ err,
           emit (EvLogError "could not create new stream for protocols %s" err);;
           closed ← gets (stream_closed muxedStream);
           (if closed : bool then ret tt else stream_abort muxedStream err);;
           throw err)
  end.

(** [errConnectionNotMultiplexed] *)
Definition errConnectionNotMultiplexed {A} : M A :=
  throw (mkError MuxerUnavailableError "Connection is not multiplexed").

(** [_createConnection] *)
Definition _createConnection (opts : CreateConnectionOptions) : M Connection :=
  let muxer := (λ muxerFactory, createStreamMuxer muxerFactory (cc_direction opts))
                 <$> cc_muxerFactory opts in
  let getStreams := λ w, match muxer with
                         | Some _ => muxer_streams w
                         | None => []
                         end in
  let newStream := (λ m, newStream_closure (cc_remotePeer opts) (Some m) getStreams)
                     <$> muxer in
  match muxer with
  | Some m => emit (EvCreateStreamMuxer (mux_protocol m) (cc_direction opts));;
              emit EvPipe
  | None => ret tt
  end;;
  emit EvTimelineUpgraded;;
  let connection :=
    mkConnection
      (remoteAddr (cc_maConn opts))
      (cc_remotePeer opts)
      "open"
      (cc_direction opts)
      (mux_protocol <$> muxer)
      (cc_cryptoProtocol opts)
      (cc_limits opts)
      (nullish newStream (λ _ _, errConnectionNotMultiplexed))
      getStreams
      (match muxer with
       | Some m => emit (EvLog "close muxer");;
                   call_await EvMuxerClose (mux_close m)
       | None => ret tt
       end;;
       emit (EvLog "close maconn");;
       call_await (EvMaConnClose None) (maConn_close (cc_maConn opts));;
       emit (EvLog "closed maconn"))
      (λ err,
         emit (EvMaConnAbort err);;
         match muxer with
         | Some _ => emit (EvMuxerAbort err)
         | None => ret tt
         end) in
  emit (EvDispatch "connection:open");;
  ret connection.

(** The muxer stage shared by both directions: [opts.muxerFactory] if
    given, else a negotiation when muxers are configured, else none. *)
Definition multiplex_stage
    (multiplex : MultiaddrConnection → list (string * StreamMuxerFactory) →
                 M (MultiaddrConnection * option StreamMuxerFactory))
    (progress : M unit)
    (opts : option UpgraderOptions)
    (protectedConn encryptedConn : MultiaddrConnection) :
  M (MultiaddrConnection * option StreamMuxerFactory) :=
  match opts ≫= opt_muxerFactory with
  | Some muxerFactory => ret (encryptedConn, Some muxerFactory)
  | None =>
      if bool_decide (0 < map_size (streamMuxers this)) then
        progress;;
        multiplex (spread protectedConn encryptedConn) (streamMuxers this)
      else ret (encryptedConn, None)
  end.

(** [upgradeInbound] *)
Definition upgradeInbound (maConn : MultiaddrConnection) (opts : option UpgraderOptions) :
  M Connection :=
  accept ← call_await EvAcceptIncomingConnection
             (acceptIncomingConnection (connectionManager (components this)) maConn);
  if negb accept then throw (mkError ConnectionDeniedError "connection denied")
  else
    signal ← AbortSignal_timeout (inboundUpgradeTimeout this);
    addEventListener signal InboundUpgradeTimeout;;
    try_finally
      (denied ← match denyInboundConnection (connectionGater (components this)) with
                | Some deny => call_await EvDenyInboundConnection (deny maConn)
                | None => await (Ok false)
                end;
       if denied : bool then
         throw (mkError ConnectionInterceptedError
                  "The multiaddr connection is blocked by gater.acceptConnection")
       else
         when (metrics (components this)) (emit EvTrackMultiaddrConnection);;
         emit (EvLog "starting the inbound connection upgrade");;
         protectedConn ←
           (if negb (is_true (opts ≫= skipProtection)) then
              match connectionProtector (components this) with
              | Some protector =>
                  emit (EvLog "protecting the inbound connection");;
                  call_await EvProtect (protect protector maConn)
              | None => ret maConn
              end
            else ret maConn);
         '(remotePeer, cryptoProtocol, upgradedConn, muxerFactory) ←
           try_catch
             ('(encryptedConn, remotePeer, cryptoProtocol) ←
                (if negb (is_true (opts ≫= skipEncryption)) then
                   when (is_true (onProgress <$> opts))
                        (emit (EvProgress "upgrader:encrypt-inbound-connection"));;
                   encrypted ← _encryptInbound protectedConn;
                   let maConn' := spread protectedConn (cr_conn encrypted) in
                   shouldBlockConnection (cr_remotePeer encrypted) maConn'
                                         denyInboundEncryptedConnection;;
                   ret (cr_conn encrypted, cr_remotePeer encrypted, cr_protocol encrypted)
                 else
                   match getPeerId (remoteAddr maConn) with
                   | None =>
                       throw (mkError InvalidMultiaddrError
                                "inbound connection that skipped encryption must have a peer id")
                   | Some idStr =>
                       remotePeerId ← settle (peerIdFromString idStr);
                       ret (protectedConn, remotePeerId, "native")
                   end);
              '(upgradedConn, muxerFactory) ←
                multiplex_stage _multiplexInbound
                  (when (is_true (onProgress <$> opts))
                        (emit (EvProgress "upgrader:multiplex-inbound-connection")))
                  opts protectedConn encryptedConn;
              ret (remotePeer, cryptoProtocol, upgradedConn, muxerFactory))
             (λ err,
                emit (EvLogError "failed to upgrade inbound connection" err);;
                throw err);
         shouldBlockConnection remotePeer maConn denyInboundUpgradedConnection;;
         emit (EvLog "successfully upgraded inbound connection");;
         _createConnection
           (mkCreateConnectionOptions cryptoProtocol inbound maConn upgradedConn
              remotePeer muxerFactory (opts ≫= opt_limits)))
      (removeEventListener signal InboundUpgradeTimeout;;
       emit EvAfterUpgradeInbound).

(** [upgradeOutbound] *)
Definition upgradeOutbound (maConn : MultiaddrConnection) (opts : option UpgraderOptions) :
  M Connection :=
  let idStr := getPeerId (remoteAddr maConn) in
  remotePeerId ←
    match idStr with
    | Some idStr =>
        remotePeerId ← settle (peerIdFromString idStr);
        shouldBlockConnection remotePeerId maConn denyOutboundConnection;;
        ret (Some remotePeerId)
    | None => ret None
    end;
  when (metrics (components this)) (emit EvTrackMultiaddrConnection);;
  emit (EvLog "starting the outbound connection upgrade");;
  protectedConn ←
    (if negb (is_true (opts ≫= skipProtection)) then
       match connectionProtector (components this) with
       | Some protector => call_await EvProtect (protect protector maConn)
       | None => ret maConn
       end
     else ret maConn);
  '(remotePeer, cryptoProtocol, upgradedConn, muxerFactory) ←
    try_catch
      ('(encryptedConn, remotePeer, cryptoProtocol) ←
         (if negb (is_true (opts ≫= skipEncryption)) then
            encrypted ← _encryptOutbound protectedConn remotePeerId;
            let maConn' := spread protectedConn (cr_conn encrypted) in
            shouldBlockConnection (cr_remotePeer encrypted) maConn'
                                  denyOutboundEncryptedConnection;;
            ret (cr_conn encrypted, cr_remotePeer encrypted, cr_protocol encrypted)
          else
            match remotePeerId with
            | None =>
                throw (mkError InvalidPeerIdError
                         "Encryption was skipped but no peer id was passed")
            | Some remotePeerId => ret (protectedConn, remotePeerId, "native")
            end);
       '(upgradedConn, muxerFactory) ←
         multiplex_stage _multiplexOutbound (ret tt) opts protectedConn encryptedConn;
       ret (remotePeer, cryptoProtocol, upgradedConn, muxerFactory))
      (λ err,
         emit (EvLogError "failed to upgrade outbound connection" err);;
         call_await (EvMaConnClose (Some err)) (maConn_close maConn);;
         throw err);
  shouldBlockConnection remotePeer maConn denyOutboundUpgradedConnection;;
  emit (EvLog "successfully upgraded outbound connection");;
  _createConnection
    (mkCreateConnectionOptions cryptoProtocol outbound maConn upgradedConn
       remotePeer muxerFactory (opts ≫= opt_limits)).

End DefaultUpgrader.

(** * The TCP transport: the class [TCP] *)

(** The [Upgrader] interface, as far as [dial] calls it. *)
Record Upgrader := mkUpgraderInterface {
  up_upgradeOutbound : MultiaddrConnection → M Connection
}.

(** [DefaultUpgrader implements Upgrader] *)
Definition DefaultUpgrader_Upgrader (mss : MultistreamSelect)
    (peerIdFromString : string → Result PeerId) (u : DefaultUpgrader) : Upgrader :=
  mkUpgraderInterface (λ maConn, upgradeOutbound mss peerIdFromString u maConn None).

Record TCPDialOptions := mkDialOptions {
  keepAlive : option bool;
  noDelay : option bool;
  signal : option nat;
  upgrader : Upgrader;
  dial_onProgress : bool
}.

(** The assignments [options.keepAlive = options.keepAlive ?? true] and
    [options.noDelay = options.noDelay ?? true] of [dial]. *)
Definition dial_defaults (options : TCPDialOptions) : TCPDialOptions :=
  mkDialOptions (Some (nullish (keepAlive options) true))
                (Some (nullish (noDelay options) true))
                (signal options) (upgrader options)
                (dial_onProgress options).

Record TCP := mkTCP {
  tcp_metrics : bool   (* are metrics present *)
}.

Definition Socket := nat.

(** What the socket made by [net.connect] reports first; for a timeout,
    [elapsed] is [Date.now() - start]. *)
Inductive SocketEvent :=
| SocketConnect (socket : Socket)
| SocketError (err : Error)
| SocketTimeout (elapsed : Z).

(** The options [net.connect] is called with, as far as [_connect] reads
    them: [path] for an IPC socket, [host] and [port] for a TCP socket. *)
Record NetConfig := mkNetConfig {
  path : option string;
  host : option string;
  port : option Z
}.

(** [new AbortError()], with the default message of the imported class *)
Definition new_AbortError : Error := mkError AbortError "The operation was aborted".

Section TCP.

(** The imported [multiaddrToNetConfig] of [./utils.js], as the options it
    makes of an address and the dial options (spread over
    [this.opts.dialOpts], which is fixed with the transport); the imported
    [net.connect] (the event the socket reports first) and
    [toMultiaddrConnection]. *)
Variable multiaddrToNetConfig : Multiaddr → TCPDialOptions → NetConfig.
Variable net_connect : NetConfig → SocketEvent.
Variable toMultiaddrConnection : Socket → Multiaddr → MultiaddrConnection.

Variable this : TCP.

Definition dialerEvents_increment (label : string) : M unit :=
  when (tcp_metrics this) (emit (EvDialerEvent label)).

Definition with_signal (sig : option nat) (f : nat → M unit) : M unit :=
  match sig with
  | Some s => f s
  | None => ret tt
  end.

(** [cOpts.path ?? `${cOpts.host ?? ''}:${cOpts.port}`] *)
Definition cOptsStr (cOpts : NetConfig) : string :=
  nullish (path cOpts)
    (nullish (host cOpts) "" +:+ ":" +:+
     match port cOpts with
     | Some port => pretty port
     | None => "undefined"
     end).

(** [done(err)] of [_connect]: the listeners are removed, and the promise
    is rejected with [err] or resolved with the socket. *)
Definition done {A} (options : TCPDialOptions) (settled : Result A) : M A :=
  with_signal (signal options) (λ s, removeEventListener s ConnectAbort);;
  settle settled.

(** [onError] of [_connect] *)
Definition onError {A} (options : TCPDialOptions) (cOpts : NetConfig) (err : Error) : M A :=
  let err := mkError (name err)
               ("connection error " +:+ cOptsStr cOpts +:+ ": " +:+ message err) in
  dialerEvents_increment "error";;
  done options (Err err).

(** [onTimeout] of [_connect]; its [rawSocket.emit('error', err)] calls
    [onError]. *)
Definition onTimeout {A} (options : TCPDialOptions) (cOpts : NetConfig) (elapsed : Z) : M A :=
  emit (EvLog "connection timeout %a");;
  dialerEvents_increment "timeout";;
  let err := mkError TimeoutError
               ("connection timeout after " +:+ pretty elapsed +:+ "ms") in
  onError options cOpts err.

(** [onConnect] of [_connect] *)
Definition onConnect (options : TCPDialOptions) (rawSocket : Socket) : M Socket :=
  emit (EvLog "connection opened %a");;
  dialerEvents_increment "connect";;
  done options (Ok rawSocket).

(** [onAbort] of [_connect] *)
Definition onAbort {A} (options : TCPDialOptions) : M A :=
  emit (EvLog "connection aborted %a");;
  dialerEvents_increment "abort";;
  emit EvSocketDestroy;;
  done options (Err new_AbortError).

(** [_connect]: the promise settles at the first of the socket's events
    and the abort of [options.signal]; the listener of that event is run
    when the task resumes. *)
Definition _connect (ma : Multiaddr) (options : TCPDialOptions) : M Socket :=
  (* options.signal?.throwIfAborted() *)
  with_signal (signal options) (λ s,
    ab ← gets (signal_aborted s);
    if ab : bool then
      r ← gets (λ w, from_option reason new_AbortError (signals w !! s));
      throw r
    else ret tt);;
  when (dial_onProgress options) (emit (EvProgress "tcp:open-connection"));;
  let cOpts := multiaddrToNetConfig ma options in
  emit (EvLog "dialing %a");;
  emit EvNetConnect;;
  with_signal (signal options) (λ s, addEventListener s ConnectAbort);;
  await (Ok tt);;
  ab ← gets (λ w, from_option (λ s, signal_aborted s w) false (signal options));
  if ab : bool then onAbort options
  else
    match net_connect cOpts with
    | SocketConnect rawSocket => onConnect options rawSocket
    | SocketError err => onError options cOpts err
    | SocketTimeout elapsed => onTimeout options cOpts elapsed
    end.

(** [dial] *)
Definition dial (ma : Multiaddr) (options : TCPDialOptions) : M Connection :=
  let options := dial_defaults options in
  socket ← _connect ma options;
  emit EvSocketOnError;;
  let maConn := toMultiaddrConnection socket ma in
  with_signal (signal options) (λ s, addEventListener s DialAbort);;
  emit (EvLog "new outbound connection %s");;
  conn ← up_upgradeOutbound (upgrader options) maConn;
  emit (EvLog "outbound connection %s upgraded");;
  with_signal (signal options) (λ s, removeEventListener s DialAbort);;
  ab ← gets (λ w, from_option (λ s, signal_aborted s w) false (signal options));
  if ab : bool then
    detached (close conn)
             (λ err, emit (EvLogError "Error closing conn after abort" err));;
    throw new_AbortError
  else ret conn.

End TCP.

(** * What runs are observed by *)

(** The events of a trace that satisfy [P], in order. *)
Definition obs (P : Event → bool) (t : list Event) : list Event := List.filter P t.
Arguments obs : simpl never.

Definition is_ok {A} (r : Result A) : bool :=
  match r with Ok _ => true | Err _ => false end.

(** A computation that emits no event of a kind, whatever the world. *)
Definition silent {A} (P : Event → bool) (m : M A) : Prop :=
  ∀ w, obs P (trace (m w)) = [].

Definition is_afterUpgradeInbound (e : Event) : bool :=
  match e with EvAfterUpgradeInbound => true | _ => false end.

Definition is_maConnClose (e : Event) : bool :=
  match e with EvMaConnClose _ => true | _ => false end.

Definition is_handler (e : Event) : bool :=
  match e with EvHandler _ _ => true | _ => false end.

Definition is_streamAbort (e : Event) : bool :=
  match e with EvStreamAbort _ _ => true | _ => false end.

Definition is_streamClose (e : Event) : bool :=
  match e with EvStreamClose _ => true | _ => false end.

(** How often [connectionManager.afterUpgradeInbound()] was called. *)
Definition afterUpgradeInbound_calls (t : list Event) : nat :=
  length (obs is_afterUpgradeInbound t).

(** Admission: [acceptIncomingConnection] resolved to [true]. *)
Definition admitted (this : DefaultUpgrader) (maConn : MultiaddrConnection) : bool :=
  match acceptIncomingConnection (connectionManager (components this)) maConn with
  | Ok true => true
  | _ => false
  end.

(** ** Gating checkpoints *)

Inductive Checkpoint :=
| CpAcceptIncomingConnection
| CpDenyInboundConnection
| CpGater (t : ConnectionDeniedType).

Definition checkpoint_of (e : Event) : option Checkpoint :=
  match e with
  | EvAcceptIncomingConnection => Some CpAcceptIncomingConnection
  | EvDenyInboundConnection => Some CpDenyInboundConnection
  | EvGater t _ _ => Some (CpGater t)
  | _ => None
  end.

Definition is_checkpoint (e : Event) : bool :=
  match checkpoint_of e with Some _ => true | None => false end.

(** The checkpoints a trace went through, in order. *)
Definition checkpoints (t : list Event) : list Checkpoint := omap checkpoint_of t.

(** The checkpoint call [e] was answered with a denial. *)
Definition denies (this : DefaultUpgrader) (maConn : MultiaddrConnection) (e : Event) : bool :=
  match e with
  | EvAcceptIncomingConnection =>
      match acceptIncomingConnection (connectionManager (components this)) maConn with
      | Ok false => true
      | _ => false
      end
  | EvDenyInboundConnection =>
      match denyInboundConnection (connectionGater (components this)) with
      | Some deny => match deny maConn with Ok true => true | _ => false end
      | None => false
      end
  | EvGater t remotePeer c =>
      match gater_method (connectionGater (components this)) t with
      | Some deny => match deny remotePeer c with Ok true => true | _ => false end
      | None => false
      end
  | _ => false
  end.

(** The checkpoint of a gater method, when the gater has the method. *)
Definition gate (this : DefaultUpgrader) (t : ConnectionDeniedType) : list Checkpoint :=
  match gater_method (connectionGater (components this)) t with
  | Some _ => [CpGater t]
  | None => []
  end.


(** A computation goes through the checkpoints [l]: every run goes through
    a prefix of [l], a run that returns through all of [l], and a checkpoint
    that denies is the last one of its run, which throws. *)
Definition checked {A} (this : DefaultUpgrader) (maConn : MultiaddrConnection)
    (l : list Checkpoint) (m : M A) : Prop :=
  ∀ w,
    checkpoints (trace (m w)) `prefix_of` l
    ∧ (is_ok (result (m w)) = true → checkpoints (trace (m w)) = l)
    ∧ (∀ t1 e t2, trace (m w) = t1 ++ e :: t2 → denies this maConn e = true →
         checkpoints t2 = [] ∧ is_ok (result (m w)) = false).

(** ** The stages of [upgradeOutbound] *)

(** [upgradeOutbound] up to its [try] block: the peer id of the address,
    the first gate, the protector. *)
Definition outbound_prelude (peerIdFromString : string → Result PeerId)
    (this : DefaultUpgrader) (maConn : MultiaddrConnection)
    (opts : option UpgraderOptions) : M (option PeerId * MultiaddrConnection) :=
  remotePeerId ←
    match getPeerId (remoteAddr maConn) with
    | Some idStr =>
        remotePeerId ← settle (peerIdFromString idStr);
        shouldBlockConnection this remotePeerId maConn denyOutboundConnection;;
        ret (Some remotePeerId)
    | None => ret None
    end;
  when (metrics (components this)) (emit EvTrackMultiaddrConnection);;
  emit (EvLog "starting the outbound connection upgrade");;
  protectedConn ←
    (if negb (is_true (opts ≫= skipProtection)) then
       match connectionProtector (components this) with
       | Some protector => call_await EvProtect (protect protector maConn)
       | None => ret maConn
       end
     else ret maConn);
  ret (remotePeerId, protectedConn).

(** The body of the [try] block of [upgradeOutbound]: encryption, the gate
    after it, and the muxer negotiation. *)
Definition outbound_negotiation (mss : MultistreamSelect) (this : DefaultUpgrader)
    (opts : option UpgraderOptions) (remotePeerId : option PeerId)
    (protectedConn : MultiaddrConnection) :
  M (PeerId * string * MultiaddrConnection * option StreamMuxerFactory) :=
  '(encryptedConn, remotePeer, cryptoProtocol) ←
    (if negb (is_true (opts ≫= skipEncryption)) then
       encrypted ← _encryptOutbound mss this protectedConn remotePeerId;
       let maConn' := spread protectedConn (cr_conn encrypted) in
       shouldBlockConnection this (cr_remotePeer encrypted) maConn'
                             denyOutboundEncryptedConnection;;
       ret (cr_conn encrypted, cr_remotePeer encrypted, cr_protocol encrypted)
     else
       match remotePeerId with
       | None =>
           throw (mkError InvalidPeerIdError
                    "Encryption was skipped but no peer id was passed")
       | Some remotePeerId => ret (protectedConn, remotePeerId, "native")
       end);
  '(upgradedConn, muxerFactory) ←
    multiplex_stage this (_multiplexOutbound mss) (ret tt) opts protectedConn encryptedConn;
  ret (remotePeer, cryptoProtocol, upgradedConn, muxerFactory).

(** [upgradeOutbound] from its [try] block on. *)
Definition outbound_continue (mss : MultistreamSelect) (this : DefaultUpgrader)
    (maConn : MultiaddrConnection) (opts : option UpgraderOptions)
    (remotePeerId : option PeerId) (protectedConn : MultiaddrConnection) : M Connection :=
  '(remotePeer, cryptoProtocol, upgradedConn, muxerFactory) ←
    try_catch
      (outbound_negotiation mss this opts remotePeerId protectedConn)
      (λ err,
         emit (EvLogError "failed to upgrade outbound connection" err);;
         call_await (EvMaConnClose (Some err)) (maConn_close maConn);;
         throw err);
  shouldBlockConnection this remotePeer maConn denyOutboundUpgradedConnection;;
  emit (EvLog "successfully upgraded outbound connection");;
  _createConnection mss this
    (mkCreateConnectionOptions cryptoProtocol outbound maConn upgradedConn
       remotePeer muxerFactory (opts ≫= opt_limits)).

(** ** Stages that pass *)

(** The protector stage passes: it is skipped, or there is no protector, or
    [protect] resolves. *)
Definition protection_passes (this : DefaultUpgrader) (maConn : MultiaddrConnection)
    (opts : option UpgraderOptions) : bool :=
  if is_true (opts ≫= skipProtection) then true
  else match connectionProtector (components this) with
       | Some protector => is_ok (protect protector maConn)
       | None => true
       end.

(** The gater lets the inbound connection pass before encryption: it has
    no [denyInboundConnection], or the method resolves to [false]. *)
Definition inbound_connection_passes (this : DefaultUpgrader)
    (maConn : MultiaddrConnection) : bool :=
  match denyInboundConnection (connectionGater (components this)) with
  | Some deny => match deny maConn with Ok false => true | _ => false end
  | None => true
  end.

(** The gater lets the peer pass its method [t]: it has no such method, or
    the method resolves to [false]. *)
Definition gater_passes (this : DefaultUpgrader) (t : ConnectionDeniedType)
    (remotePeer : PeerId) (maConn : MultiaddrConnection) : bool :=
  match gater_method (connectionGater (components this)) t with
  | Some deny => match deny remotePeer maConn with Ok false => true | _ => false end
  | None => true
  end.

(** The connection the protector stage hands on when it passes. *)
Definition protected_conn (this : DefaultUpgrader) (maConn : MultiaddrConnection)
    (opts : option UpgraderOptions) : MultiaddrConnection :=
  if is_true (opts ≫= skipProtection) then maConn
  else match connectionProtector (components this) with
       | Some protector =>
           match protect protector maConn with Ok c => c | Err _ => maConn end
       | None => maConn
       end.

(** The muxer stage passes on [connection]: a muxer factory is given, or no
    muxer is configured, or the negotiation ([mss.handle] inbound,
    [mss.select] outbound) resolves. *)
Definition muxer_stage_passes
    (negotiate : MultiaddrConnection → list string → Result (MultiaddrConnection * string))
    (this : DefaultUpgrader) (opts : option UpgraderOptions)
    (connection : MultiaddrConnection) : bool :=
  match opts ≫= opt_muxerFactory with
  | Some _ => true
  | None =>
      if bool_decide (0 < map_size (streamMuxers this))
      then is_ok (negotiate connection (map_keys (streamMuxers this)))
      else true
  end.

(** The calls of an encrypter's handshake. *)
Definition is_handshake (e : Event) : bool :=
  match e with EvSecureInbound _ | EvSecureOutbound _ _ => true | _ => false end.

(** [createStreamMuxer] *)
Definition is_createStreamMuxer (e : Event) : bool :=
  match e with EvCreateStreamMuxer _ _ => true | _ => false end.

(** Whenever the computation returns, what it returns satisfies [Φ]. *)
Definition returns_with {A} (Φ : A → Prop) (m : M A) : Prop :=
  ∀ w a, result (m w) = Ok a → Φ a.

(** The computation returns, whatever the world, and what it returns
    satisfies [Φ]. *)
Definition succeeds {A} (Φ : A → Prop) (m : M A) : Prop :=
  ∀ w, ∃ a, result (m w) = Ok a ∧ Φ a.

(** ** Streams of a connection *)

(** The connection object [_createConnection] returns for [opts]. *)
Definition built_by (mss : MultistreamSelect) (this : DefaultUpgrader)
    (opts : CreateConnectionOptions) (c : Connection) : Prop :=
  ∃ w, result (_createConnection mss this opts w) = Ok c.

(** The stream [id] carries the protocol [p]. *)
Definition stream_protocol (id : nat) (w : World) : option string :=
  objects w !! id ≫= s_protocol.

(** A handler may run on the connection: the connection is not limited, or
    the handler has set [runOnLimitedConnection]. *)
Definition may_run (c : Connection) (r : StreamHandlerRecord) : bool :=
  negb (bool_decide (limits c ≠ None) && negb (is_true (runOnLimitedConnection (options r)))).

(** * Examples: concrete collaborators *)

(** A remote peer that settles every negotiation on the first protocol
    offered. *)
Definition example_mss : MultistreamSelect :=
  mkMss
    (λ c protocols, match protocols with
                    | p :: _ => Ok (c, p)
                    | [] => Err (mkError GenericError "protocol selection failed")
                    end)
    (λ c protocols, match protocols with
                    | p :: _ => Ok (c, p)
                    | [] => Err (mkError GenericError "protocol selection failed")
                    end)
    (λ _ protocols, match protocols with
                    | p :: _ => Ok (mkNegotiated p false false None)
                    | [] => Err (mkError GenericError "protocol selection failed")
                    end)
    (λ _ protocols, match protocols with
                    | p :: _ => Ok (mkNegotiated p false false None)
                    | [] => Err (mkError GenericError "protocol selection failed")
                    end).

Definition example_peerIdFromString (s : string) : Result PeerId := Ok s.

Definition noise : ConnectionEncrypter :=
  mkEncrypter "/noise"
    (λ c, Ok (mkSecured c "12D3KooWRemote"))
    (λ c _, Ok (mkSecured c "12D3KooWRemote")).

Definition yamux : StreamMuxerFactory :=
  mkMuxerFactory "/yamux/1.0.0" (λ _, mkMuxer "/yamux/1.0.0" (Ok tt) (Ok tt)).

(** A gater with every method, which applies [deny] to inbound connections
    before encryption and lets everything else pass. *)
Definition example_gater (deny : bool) : ConnectionGater :=
  mkGater (Some (λ _, Ok deny))
          (Some (λ _ _, Ok false)) (Some (λ _ _, Ok false)) (Some (λ _ _, Ok false))
          (Some (λ _ _, Ok false)) (Some (λ _ _, Ok false)).

(** A registrar with three handlers: [/echo/1.0.0] with
    [maxInboundStreams = 2] and [maxOutboundStreams = 1], [/ping/1.0.0]
    without options, [/identify/1.0.0] with [runOnLimitedConnection]. *)
Definition example_registrar : Registrar :=
  mkRegistrar ["/echo/1.0.0"; "/ping/1.0.0"; "/identify/1.0.0"]
    (λ protocol,
       if String.eqb protocol "/echo/1.0.0" then
         Ok (mkHandlerRecord (λ _, Ok tt) (mkHandlerOptions (Some 2%Z) (Some 1%Z) None))
       else if String.eqb protocol "/ping/1.0.0" then
         Ok (mkHandlerRecord (λ _, Ok tt) (mkHandlerOptions None None None))
       else if String.eqb protocol "/identify/1.0.0" then
         Ok (mkHandlerRecord (λ _, Ok tt) (mkHandlerOptions None None (Some true)))
       else Err (mkError UnhandledProtocolError "no handler registered")).

Definition example_components (accept deny : bool) : DefaultUpgraderComponents :=
  mkComponents "12D3KooWLocal" false
    (mkConnectionManager (λ _, Ok accept))
    (example_gater deny)
    None
    example_registrar
    (mkPeerStore (λ _ _, Ok tt)).

(** An upgrader with one encrypter and one muxer. *)
Definition example_upgrader (accept deny : bool) : DefaultUpgrader :=
  newDefaultUpgrader (example_components accept deny)
    (mkUpgraderInit [noise] [yamux] None).

(** A connection from an address that names the peer, and one from an
    address that does not. *)
Definition example_maConn : MultiaddrConnection :=
  mkMaConn (mkMultiaddr "/ip4/192.0.2.1/tcp/4001/p2p/12D3KooWRemote" (Some "12D3KooWRemote"))
           [] (Ok tt).

Definition anonymous_maConn : MultiaddrConnection :=
  mkMaConn (mkMultiaddr "/ip4/192.0.2.1/tcp/4001" None) [] (Ok tt).

(** A connection from an address that does not name the peer, whose
    [close] rejects. *)
Definition unclosable_maConn : MultiaddrConnection :=
  mkMaConn (mkMultiaddr "/ip4/192.0.2.1/tcp/4001" None) []
           (Err (mkError GenericError "socket already destroyed")).

Definition skip_encryption : option UpgraderOptions :=
  Some (mkUpgraderOptions (Some true) None None None false).

(** A world without signals and streams, in which no timer fires. *)
Definition empty_world : World := mkWorld [] (λ _, None) ∅ [].

(** A remote peer that settles every negotiation on [protocol]. *)
Definition mss_selecting (protocol : string) : MultistreamSelect :=
  mkMss (λ c _, Ok (c, protocol)) (λ c _, Ok (c, protocol))
        (λ _ _, Ok (mkNegotiated protocol false false None))
        (λ _ _, Ok (mkNegotiated protocol false false None)).

Definition example_connection_options (d : Direction) (limits : option ConnectionLimits) :
  CreateConnectionOptions :=
  mkCreateConnectionOptions "/noise" d example_maConn example_maConn
    "12D3KooWRemote" (Some yamux) limits.

(** What a run returned, [d] if it threw. *)
Definition returned {A} (d : A) (r : Run A) : A :=
  match result r with
  | Ok a => a
  | Err _ => d
  end.

Definition no_connection : Connection :=
  mkConnection (mkMultiaddr "" None) "" "closed" inbound None "" None
    (λ _ _, errConnectionNotMultiplexed) (λ _, []) (ret tt) (λ _, ret tt).

(** The connection [_createConnection] builds over the example muxer. *)
Definition example_connection (protocol : string) (d : Direction)
    (limits : option ConnectionLimits) : Connection :=
  returned no_connection
    (_createConnection (mss_selecting protocol) (example_upgrader true false)
       (example_connection_options d limits) empty_world).

(** The muxer reports an inbound stream, on which the remote peer selects
    [protocol]. *)
Definition incoming (protocol : string) (limits : option ConnectionLimits) : M unit :=
  id ← muxer_open inbound;
  onIncomingStream (mss_selecting protocol) (example_upgrader true false)
    "12D3KooWRemote" (Some (example_connection protocol inbound limits)) id.

Definition no_options : NewStreamOptions := mkNewStreamOptions None None.

(** The world after two inbound [/echo/1.0.0] streams were delivered and the
    muxer has reported a third stream, which has the id 2. *)
Definition third_echo_stream : World :=
  final ((incoming "/echo/1.0.0" None;; incoming "/echo/1.0.0" None;;
          muxer_open inbound) empty_world).

(** The world after one outbound [/echo/1.0.0] stream was opened. *)
Definition one_echo_stream_out : World :=
  final (newStream (example_connection "/echo/1.0.0" outbound None)
           ["/echo/1.0.0"] no_options empty_world).

Definition delivered_or_aborted (e : Event) : bool :=
  is_handler e || is_streamAbort e || is_streamClose e.

(** A TCP transport whose sockets connect, a dial through the example
    upgrader with an abort signal, and a world in which that signal fires
    during the third suspension of the dial, which is in the upgrade. *)
Definition example_multiaddrToNetConfig (ma : Multiaddr) (options : TCPDialOptions) :
  NetConfig := mkNetConfig None (Some "192.0.2.1") (Some 4001%Z).

Definition example_net_connect (cOpts : NetConfig) : SocketEvent := SocketConnect 7.

Definition example_toMultiaddrConnection (socket : Socket) (ma : Multiaddr) :
  MultiaddrConnection := mkMaConn ma [] (Ok tt).

Definition example_dial_options : TCPDialOptions :=
  mkDialOptions None None (Some 0)
    (DefaultUpgrader_Upgrader example_mss example_peerIdFromString
       (example_upgrader true false))
    false.

Definition abort_during_upgrade : World :=
  mkWorld [mkSignal false new_AbortError (Some 2) []] (λ _, None) ∅ [].


(** * More of the sources, and what is observed of them *)

#[global] Instance Direction_eq_dec : EqDecision Direction.
Proof. solve_decision. Defined.

(** ** [_createConnection]: the trap on [maConn.timeline] *)

(** [maConn.timeline]: the timestamps set so far, by property name.  A
    property that is absent and one that holds [null] or [undefined] read
    the same under [== null], so both are absent keys here. *)
Abbreviation Timeline := (gmap string Z).

(** [Reflect.set(target, key, value)] *)
Definition Reflect_set (_timeline : Timeline) (key : string) (value : option Z) : Timeline :=
  match value with
  | Some v => <[key := v]> _timeline
  | None => delete key _timeline
  end.

(** The [set] trap of the proxy that replaces [maConn.timeline]; [args] are
    the target [_timeline], the property name and the value.  [connection]
    is the variable of [_createConnection] the trap reads, unset until the
    connection object exists, and [connection_status] is what
    [connection.status] reads when the trap runs.  The task the trap
    starts is not awaited and catches its own errors. *)
Definition timeline_set (connection : option Connection) (connection_status : string)
    (_timeline : Timeline) (key : string) (value : option Z) : M Timeline :=
  match connection with
  | Some connection =>
      when (bool_decide (key = "close") && bool_decide (value ≠ None)
            && bool_decide (_timeline !! "close" = None))
        (detached
           (try_finally
              (try_catch
                 (if bool_decide (connection_status = "open")
                  then close connection
                  else ret tt)
                 (λ err, emit (EvLogError "error closing connection after timeline close" err)))
              (emit (EvDispatch "connection:close")))
           (λ err, emit (EvLogError "error thrown while dispatching connection:close event" err)))
  | None => ret tt
  end;;
  ret (Reflect_set _timeline key value).

(** A write to the timeline through the proxy: the status of the connection
    at the time, the property and the value. *)
Record TimelineWrite := mkTimelineWrite {
  tw_status : string;
  tw_key : string;
  tw_value : option Z
}.

(** A sequence of assignments [maConn.timeline[key] = value]. *)
Fixpoint timeline_writes (connection : option Connection) (_timeline : Timeline)
    (writes : list TimelineWrite) : M Timeline :=
  match writes with
  | [] => ret _timeline
  | write :: writes =>
      _timeline ← timeline_set connection (tw_status write) _timeline
                               (tw_key write) (tw_value write);
      timeline_writes connection _timeline writes
  end.

(** ** The TCP transport: [listenFilter] and [dialFilter] *)

(** The imported operations on multiaddresses, [ma.protoCodes()],
    [ma.decapsulateCode(code)] and [mafmt.TCP.matches(ma)], and the codes
    imported from [./constants.js]. *)
Record MultiaddrFormats := mkMultiaddrFormats {
  protoCodes : Multiaddr → list Z;
  decapsulateCode : Multiaddr → Z → Multiaddr;
  mafmt_TCP_matches : Multiaddr → bool;
  CODE_CIRCUIT : Z;
  CODE_P2P : Z;
  CODE_UNIX : Z
}.

(** The argument of [listenFilter], which the code accepts as an array or
    as a single address. *)
Inductive Multiaddrs :=
| MultiaddrArray (multiaddrs : list Multiaddr)
| OneMultiaddr (ma : Multiaddr).

Section Filters.

Variable formats : MultiaddrFormats.

(** The function given to [filter] *)
Definition listenFilter_keeps (ma : Multiaddr) : bool :=
  if bool_decide (CODE_CIRCUIT formats ∈ protoCodes formats ma) then false
  else if bool_decide (CODE_UNIX formats ∈ protoCodes formats ma) then true
  else mafmt_TCP_matches formats (decapsulateCode formats ma (CODE_P2P formats)).

(** [listenFilter] *)
Definition listenFilter (multiaddrs : Multiaddrs) : list Multiaddr :=
  let multiaddrs := match multiaddrs with
                    | MultiaddrArray multiaddrs => multiaddrs
                    | OneMultiaddr ma => [ma]
                    end in
  filter (λ ma, listenFilter_keeps ma = true) multiaddrs.

(** [dialFilter] *)
Definition dialFilter (multiaddrs : Multiaddrs) : list Multiaddr :=
  listenFilter multiaddrs.

End Filters.

(** ** Kinds of events *)

(** Calls only the initiator of a connection makes: the selecting side of
    multistream-select, [secureOutbound], the outbound gater methods. *)
Definition is_outbound_call (e : Event) : bool :=
  match e with
  | EvMssSelect _ | EvSecureOutbound _ _
  | EvGater denyOutboundConnection _ _
  | EvGater denyOutboundEncryptedConnection _ _
  | EvGater denyOutboundUpgradedConnection _ _ => true
  | _ => false
  end.

(** Calls only the responder makes: admission by the connection manager,
    the handling side of multistream-select, [secureInbound], the inbound
    gater methods. *)
Definition is_inbound_call (e : Event) : bool :=
  match e with
  | EvAcceptIncomingConnection | EvAfterUpgradeInbound | EvDenyInboundConnection
  | EvMssHandle _ | EvSecureInbound _
  | EvGater denyInboundEncryptedConnection _ _
  | EvGater denyInboundUpgradedConnection _ _ => true
  | _ => false
  end.

Definition is_connection_open (e : Event) : bool :=
  match e with
  | EvDispatch event => bool_decide (event = "connection:open")
  | _ => false
  end.

Definition is_connection_close (e : Event) : bool :=
  match e with
  | EvDispatch event => bool_decide (event = "connection:close")
  | _ => false
  end.

(** [muxer.close] and [maConn.close] *)
Definition is_close_call (e : Event) : bool :=
  match e with EvMuxerClose | EvMaConnClose _ => true | _ => false end.

(** [maConn.abort] and [muxer.abort] *)
Definition is_abort_call (e : Event) : bool :=
  match e with EvMaConnAbort _ | EvMuxerAbort _ => true | _ => false end.

Definition is_muxer_negotiation (e : Event) : bool :=
  match e with
  | EvLog msg => bool_decide (msg = "inbound handling muxers %s")
                 || bool_decide (msg = "outbound selecting muxer %s")
  | EvProgress event => bool_decide (event = "upgrader:multiplex-inbound-connection")
  | _ => false
  end.

(** ** The checkpoints of an outbound upgrade *)

(** The gater methods an outbound upgrade that runs to its end goes
    through: [denyOutboundConnection] when the address names a peer,
    [denyOutboundEncryptedConnection] unless encryption is skipped,
    [denyOutboundUpgradedConnection]. *)
Definition outbound_checkpoints (this : DefaultUpgrader) (maConn : MultiaddrConnection)
    (opts : option UpgraderOptions) : list Checkpoint :=
  match getPeerId (remoteAddr maConn) with
  | Some _ => gate this denyOutboundConnection
  | None => []
  end
  ++ (if is_true (opts ≫= skipEncryption) then []
      else gate this denyOutboundEncryptedConnection)
  ++ gate this denyOutboundUpgradedConnection.

(** ** Announcing a connection *)

(** A computation dispatches [connection:open] once if it returns, and not
    at all if it throws. *)
Definition opens {A} (m : M A) : Prop :=
  ∀ w, obs is_connection_open (trace (m w))
       = if is_ok (result (m w)) then [EvDispatch "connection:open"] else [].

(** ** Keys of a [Map] *)

(** The keys of a list in the order of their first occurrence: what
    [keys()] lists after the keys were [set] one by one on an empty [Map]. *)
Fixpoint first_occurrences (keys : list string) : list string :=
  match keys with
  | [] => []
  | k :: keys => k :: filter (λ k', k' ≠ k) (first_occurrences keys)
  end.

(** ** What an upgrade hands to [_createConnection] *)

(** The peer id of the dialed address, [remotePeerId] of [upgradeOutbound]:
    unset when the address names no peer. *)
Definition dialed_peer (peerIdFromString : string → Result PeerId)
    (maConn : MultiaddrConnection) : option PeerId :=
  match getPeerId (remoteAddr maConn) with
  | Some idStr => match peerIdFromString idStr with
                  | Ok remotePeerId => Some remotePeerId
                  | Err _ => None
                  end
  | None => None
  end.

(** What [secureInbound] or [secureOutbound] of an encrypter answers in an
    upgrade of direction [d]. *)
Definition secure (peerIdFromString : string → Result PeerId) (d : Direction)
    (maConn : MultiaddrConnection) (encrypter : ConnectionEncrypter)
    (stream : MultiaddrConnection) : Result SecuredConnection :=
  match d with
  | inbound => secureInbound encrypter stream
  | outbound => secureOutbound encrypter stream (dialed_peer peerIdFromString maConn)
  end.

(** The protocol [cryptoProtocol] names a configured encrypter, whose
    handshake resolved and reported [remotePeer]. *)
Definition secured_by (peerIdFromString : string → Result PeerId) (this : DefaultUpgrader)
    (d : Direction) (maConn : MultiaddrConnection)
    (cryptoProtocol : string) (remotePeer : PeerId) : Prop :=
  ∃ encrypter stream secured,
    map_get cryptoProtocol (connectionEncrypters this) = Some encrypter
    ∧ secure peerIdFromString d maConn encrypter stream = Ok secured
    ∧ remotePeer = sc_remotePeer secured.

(** The muxer factory of an upgrade: the one of the options if given, else
    one of the configured muxers, looked up by a negotiated protocol, else
    none. *)
Definition muxer_chosen (this : DefaultUpgrader) (opts : option UpgraderOptions)
    (muxerFactory : option StreamMuxerFactory) : Prop :=
  match opts ≫= opt_muxerFactory with
  | Some factory => muxerFactory = Some factory
  | None =>
      if bool_decide (0 < map_size (streamMuxers this))
      then ∃ protocol, muxerFactory = map_get protocol (streamMuxers this)
      else muxerFactory = None
  end.

(** ** The stages of an upgrade *)

Inductive Stage :=
| StProtect         (* protector.protect *)
| StSecure          (* encrypter.secureInbound / secureOutbound *)
| StCreateMuxer     (* muxerFactory.createStreamMuxer *)
| StUpgraded        (* maConn.timeline.upgraded is set *)
| StOpen.           (* connection:open is dispatched *)

Definition stage_of (e : Event) : option Stage :=
  match e with
  | EvProtect => Some StProtect
  | EvSecureInbound _ | EvSecureOutbound _ _ => Some StSecure
  | EvCreateStreamMuxer _ _ => Some StCreateMuxer
  | EvTimelineUpgraded => Some StUpgraded
  | EvDispatch event =>
      if bool_decide (event = "connection:open") then Some StOpen else None
  | _ => None
  end.

Definition is_stage (e : Event) : bool :=
  match stage_of e with Some _ => true | None => false end.

(** The stages a trace went through, in order. *)
Definition stages (t : list Event) : list Stage := omap stage_of t.

(** The stages before the connection is created: the protector, unless it
    is skipped or there is none, and the encrypter, unless it is skipped. *)
Definition securing_stages (this : DefaultUpgrader) (opts : option UpgraderOptions) :
  list Stage :=
  (if is_true (opts ≫= skipProtection) then []
   else match connectionProtector (components this) with
        | Some _ => [StProtect]
        | None => []
        end)
  ++ (if is_true (opts ≫= skipEncryption) then [] else [StSecure]).

(** The stages of creating a connection with or without muxer. *)
Definition creating_stages (multiplexed : bool) : list Stage :=
  (if multiplexed then [StCreateMuxer] else []) ++ [StUpgraded; StOpen].

(** A computation goes through the stages [l]: every run through some of
    them, in the order of [l] and each at most once, and a run that returns
    [a] through exactly [f a]. *)
Definition staged {A} (l : list Stage) (f : A → list Stage) (m : M A) : Prop :=
  ∀ w, stages (trace (m w)) `sublist_of` l
       ∧ ∀ a, result (m w) = Ok a → stages (trace (m w)) = f a.

(** ** The first close of a timeline *)

(** The condition of the trap, apart from the connection being set: the
    write sets [close] to a value that is not null, and the timeline has
    no [close] yet. *)
Definition first_close (_timeline : Timeline) (key : string) (value : option Z) : bool :=
  bool_decide (key = "close") && bool_decide (value ≠ None)
  && bool_decide (_timeline !! "close" = None).

(** No write sets [close] back to null. *)
Definition close_is_kept (writes : list TimelineWrite) : Prop :=
  Forall (λ write, tw_key write = "close" → tw_value write ≠ None) writes.

(** Three writes: [upgraded], then [close] twice. *)
Definition example_writes : list TimelineWrite :=
  [mkTimelineWrite "open" "upgraded" (Some 1000%Z);
   mkTimelineWrite "open" "close" (Some 2000%Z);
   mkTimelineWrite "closed" "close" (Some 3000%Z)].

(** ** Dialing *)

(** What [_connect] does before it waits for the socket. *)
Definition connect_prefix (options : TCPDialOptions) : list Event :=
  (if dial_onProgress options then [EvProgress "tcp:open-connection"] else [])
  ++ [EvLog "dialing %a"; EvNetConnect].

(** The signal of the dial, if any, is aborted in the world [w]. *)
Definition dial_aborted (options : TCPDialOptions) (w : World) : bool :=
  from_option (λ s, signal_aborted s w) false (signal options).

(** [signal.reason], what [throwIfAborted] throws *)
Definition signal_reason (options : TCPDialOptions) (w : World) : Error :=
  from_option (λ s, from_option reason new_AbortError (signals w !! s))
              new_AbortError (signal options).

(** The world while [_connect] waits for the socket, its [onAbort]
    registered on the signal, and the world when it has settled. *)
Definition connecting (options : TCPDialOptions) (w : World) : World :=
  final (with_signal (signal options) (λ s, addEventListener s ConnectAbort) w).

Definition connected (options : TCPDialOptions) (w : World) : World :=
  final (with_signal (signal options) (λ s, removeEventListener s ConnectAbort)
           (tick (connecting options w))).

Definition is_dialerEvent (e : Event) : bool :=
  match e with EvDialerEvent _ => true | _ => false end.

(** What the [onAbort] of [_connect] does before it settles the promise:
    it logs, counts the abort and destroys the socket. *)
Definition connect_aborted (this : TCP) : list Event :=
  EvLog "connection aborted %a"
  :: (if tcp_metrics this then [EvDialerEvent "abort"] else [])
  ++ [EvSocketDestroy].

(** A socket whose connection is refused. *)
Definition refusing_net_connect (cOpts : NetConfig) : SocketEvent :=
  SocketError (mkError GenericError "connect ECONNREFUSED 192.0.2.1:4001").

Definition dial_options_without_signal : TCPDialOptions :=
  mkDialOptions None None None
    (DefaultUpgrader_Upgrader example_mss example_peerIdFromString
       (example_upgrader true false))
    false.

(** A world whose only signal has fired already, and one whose only signal
    fires during the next suspension. *)
Definition aborted_before_dial : World :=
  mkWorld [mkSignal true new_AbortError None []] (λ _, None) ∅ [].


(** ** Signals that stay *)

(** A computation removes no signal from the world. *)
Definition keeps_signals {A} (m : M A) : Prop :=
  ∀ w, length (signals w) ≤ length (signals (final (m w))).

(** ** Streams over time *)

(** The muxer lists streams that exist. *)
Definition streams_exist (w : World) : Prop :=
  Forall (λ id, is_Some (objects w !! id)) (muxerStreams w).

(** A caller that opens streams one after the other and goes on when
    [newStream] throws: each call has its protocols and options. *)
Fixpoint newStreams (connection : Connection)
    (calls : list (list string * NewStreamOptions)) : M unit :=
  match calls with
  | [] => ret tt
  | (protocols, options) :: calls =>
      try_catch (newStream connection protocols options;; ret tt) (λ _, ret tt);;
      newStreams connection calls
  end.

(** Two calls for [/echo/1.0.0], whose handler allows one outbound
    stream. *)
Definition two_echo_calls : list (list string * NewStreamOptions) :=
  [(["/echo/1.0.0"], no_options); (["/echo/1.0.0"], no_options)].



(** * Reasoning about runs *)

Lemma obs_app P t1 t2 : obs P (t1 ++ t2) = obs P t1 ++ obs P t2.
Proof. apply List.filter_app. Qed.

Lemma run_eta {A} (r : Run A) : r = mkRun (trace r) (final r) (result r).
Proof. by destruct r. Qed.

(** [bind], [try_catch] and [try_finally] through the projections *)
Lemma trace_bind {A B} (m : M A) (k : A → M B) w :
  trace ((m ≫= k) w) =
  trace (m w) ++ match result (m w) with
                 | Ok a => trace (k a (final (m w)))
                 | Err _ => []
                 end.
Proof.
  unfold mbind, M_bind, bind. destruct (m w) as [t w' [a|e]]; simpl.
  - by destruct (k a w').
  - by rewrite app_nil_r.
Qed.

Lemma result_bind {A B} (m : M A) (k : A → M B) w :
  result ((m ≫= k) w) =
  match result (m w) with
  | Ok a => result (k a (final (m w)))
  | Err e => Err e
  end.
Proof.
  unfold mbind, M_bind, bind. destruct (m w) as [t w' [a|e]]; simpl; [|done].
  by destruct (k a w').
Qed.

Lemma final_bind {A B} (m : M A) (k : A → M B) w :
  final ((m ≫= k) w) =
  match result (m w) with
  | Ok a => final (k a (final (m w)))
  | Err e => final (m w)
  end.
Proof.
  unfold mbind, M_bind, bind. destruct (m w) as [t w' [a|e]]; simpl; [|done].
  by destruct (k a w').
Qed.

Lemma trace_try_catch {A} (m : M A) h w :
  trace (try_catch m h w) =
  trace (m w) ++ match result (m w) with
                 | Ok _ => []
                 | Err e => trace (h e (final (m w)))
                 end.
Proof.
  unfold try_catch. destruct (m w) as [t w' [a|e]]; simpl.
  - by rewrite app_nil_r.
  - by destruct (h e w').
Qed.

Lemma result_try_catch {A} (m : M A) h w :
  result (try_catch m h w) =
  match result (m w) with
  | Ok a => Ok a
  | Err e => result (h e (final (m w)))
  end.
Proof.
  unfold try_catch. destruct (m w) as [t w' [a|e]]; simpl; [done|].
  by destruct (h e w').
Qed.

Lemma final_try_catch {A} (m : M A) h w :
  final (try_catch m h w) =
  match result (m w) with
  | Ok a => final (m w)
  | Err e => final (h e (final (m w)))
  end.
Proof.
  unfold try_catch. destruct (m w) as [t w' [a|e]]; simpl; [done|].
  by destruct (h e w').
Qed.

Lemma trace_try_finally {A} (m : M A) f w :
  trace (try_finally m f w) = trace (m w) ++ trace (f (final (m w))).
Proof.
  unfold try_finally. destruct (m w) as [t w' r]; simpl.
  by destruct (f w') as [t' w'' [[]|e]].
Qed.

Lemma result_try_finally {A} (m : M A) f w :
  result (try_finally m f w) =
  match result (f (final (m w))) with
  | Ok _ => result (m w)
  | Err e => Err e
  end.
Proof.
  unfold try_finally. destruct (m w) as [t w' r]; simpl.
  by destruct (f w') as [t' w'' [[]|e]].
Qed.

(** Signals that fire run listeners only. *)
Lemma obs_fired P w : (∀ l, P (EvOnAbort l) = false) → obs P (fired w) = [].
Proof.
  intros HP. unfold fired. induction (signals w) as [|s l IH]; [done|].
  change ((s :: l) ≫= fired_by) with (fired_by s ++ (l ≫= fired_by)).
  rewrite obs_app, IH, app_nil_r. unfold fired_by.
  destruct (fires_in s) as [[|n]|]; try done.
  induction (listeners s) as [|a ls IHl]; [done|].
  unfold obs in *. simpl. by rewrite HP.
Qed.

Lemma obs_cons P e t : obs P (e :: t) = (if P e then [e] else []) ++ obs P t.
Proof. unfold obs. simpl. by destruct (P e). Qed.

Ltac obs_simpl :=
  repeat (rewrite obs_app || (rewrite obs_fired by done) || rewrite obs_cons);
  simpl.

(** ** Computations that emit no event of a kind *)

Section Silent.
Context (P : Event → bool) (HP : ∀ l, P (EvOnAbort l) = false).

Lemma silent_ret {A} (a : A) : silent P (mret a).
Proof. done. Qed.

Lemma silent_throw {A} e : silent P (@throw A e).
Proof. done. Qed.

Lemma silent_settle {A} (o : Result A) : silent P (settle o).
Proof. done. Qed.

Lemma silent_gets {A} (f : World → A) : silent P (gets f).
Proof. done. Qed.

Lemma silent_modify f : silent P (modify f).
Proof. done. Qed.

Lemma silent_emit e : P e = false → silent P (emit e).
Proof. intros H w. unfold obs. simpl. by rewrite H. Qed.

Lemma silent_await {A} (o : Result A) : silent P (await o).
Proof. intros w. by apply obs_fired. Qed.

Lemma silent_bind {A B} (m : M A) (k : A → M B) :
  silent P m → (∀ a, silent P (k a)) → silent P (m ≫= k).
Proof.
  intros Hm Hk w. rewrite trace_bind, obs_app, Hm.
  destruct (result (m w)); [apply Hk|done].
Qed.

Lemma silent_try_catch {A} (m : M A) h :
  silent P m → (∀ e, silent P (h e)) → silent P (try_catch m h).
Proof.
  intros Hm Hh w. rewrite trace_try_catch, obs_app, Hm.
  destruct (result (m w)); [done|apply Hh].
Qed.

Lemma silent_try_finally {A} (m : M A) f :
  silent P m → silent P f → silent P (try_finally m f).
Proof. intros Hm Hf w. by rewrite trace_try_finally, obs_app, Hm, Hf. Qed.

Lemma silent_AbortSignal_timeout ms : silent P (AbortSignal_timeout ms).
Proof. intros w. unfold AbortSignal_timeout. by destruct (delay_accepted ms). Qed.

Lemma silent_muxer_open d : silent P (muxer_open d).
Proof. done. Qed.

End Silent.

Ltac silent_step :=
  match goal with
  | |- silent _ (_ ≫= _) => apply silent_bind; [|intros]
  | |- silent _ (mret _) => apply silent_ret
  | |- silent _ (ret _) => apply silent_ret
  | |- silent _ (throw _) => apply silent_throw
  | |- silent _ (settle _) => apply silent_settle
  | |- silent _ (gets _) => apply silent_gets
  | |- silent _ (modify _) => apply silent_modify
  | |- silent _ (emit _) => apply silent_emit; reflexivity
  | |- silent _ (await _) => apply silent_await; done
  | |- silent _ (try_catch _ _) => apply silent_try_catch; [|intros]
  | |- silent _ (try_finally _ _) => apply silent_try_finally
  | |- silent _ (AbortSignal_timeout _) => apply silent_AbortSignal_timeout
  | |- silent _ (muxer_open _) => apply silent_muxer_open
  | |- silent _ (match ?x with _ => _ end) => destruct x
  | |- silent _ (if ?x then _ else _) => destruct x
  end.

Ltac silent_tac :=
  repeat (silent_step ||
          (progress unfold call_await, call, when, detached, addEventListener,
             removeEventListener, update_stream, stream_abort, stream_close,
             muxer_newStream, errConnectionNotMultiplexed, with_signal,
             shouldBlockConnection, _encryptInbound, _encryptOutbound,
             _multiplexInbound, _multiplexOutbound, multiplex_stage,
             _createConnection, _onStream, onIncomingStream_catch)).


Lemma call_await_run {A} e (o : Result A) w :
  call_await e o w = mkRun (e :: fired w) (tick w) o.
Proof. done. Qed.

(** * C1: inbound upgrades and [afterUpgradeInbound] *)


Ltac run_unfold :=
  repeat progress unfold mbind, M_bind, mret, M_ret, bind, try_catch, try_finally,
    call_await, call, emit, await, settle, ret, throw, gets, modify, when, detached.

Section UpgraderProperties.

Context (mss : MultistreamSelect) (peerIdFromString : string → Result PeerId)
        (this : DefaultUpgrader).

(** After admission, and when [AbortSignal.timeout] accepts the delay, the
    trace of [upgradeInbound] ends with the call of [afterUpgradeInbound],
    and has no other. *)
Lemma upgradeInbound_accepted maConn opts w :
  acceptIncomingConnection (connectionManager (components this)) maConn = Ok true →
  delay_accepted (inboundUpgradeTimeout this) = true →
  ∃ t, trace (upgradeInbound mss peerIdFromString this maConn opts w)
       = t ++ [EvAfterUpgradeInbound]
       ∧ obs is_afterUpgradeInbound t = [].
Proof.
  intros Hacc Hdelay. unfold upgradeInbound.
  match goal with
  | |- context [try_finally ?m _] =>
      assert (silent is_afterUpgradeInbound m) as Hs by silent_tac;
      revert Hs; generalize m; intros body Hs
  end.
  unfold AbortSignal_timeout, addEventListener, removeEventListener.
  run_unfold. rewrite Hacc, Hdelay. cbn.
  match goal with |- context [body ?w'] => specialize (Hs w'); destruct (body w') as [t w'' r] end.
  cbn in *.
  exists (EvAcceptIncomingConnection :: fired w ++ t). split.
  - simpl. by rewrite <- app_assoc.
  - change (EvAcceptIncomingConnection :: fired w ++ t) with ([EvAcceptIncomingConnection] ++ fired w ++ t).
    rewrite !obs_app, Hs, obs_fired by done. done.
Qed.

Lemma upgradeInbound_refused maConn opts w :
  acceptIncomingConnection (connectionManager (components this)) maConn ≠ Ok true →
  trace (upgradeInbound mss peerIdFromString this maConn opts w)
    = EvAcceptIncomingConnection :: fired w
  ∧ is_ok (result (upgradeInbound mss peerIdFromString this maConn opts w)) = false.
Proof.
  intros Hacc. unfold upgradeInbound.
  match goal with
  | |- context [try_finally ?m _] => generalize m; intros body
  end.
  run_unfold.
  destruct (acceptIncomingConnection _ _) as [[|]|e]; [congruence| |]; cbn;
    rewrite ?app_nil_r; split; eauto.
Qed.

(** After admission, a delay that [AbortSignal.timeout] refuses makes
    [upgradeInbound] throw at that call, before its [try] block. *)
Lemma upgradeInbound_delay_refused maConn opts w :
  acceptIncomingConnection (connectionManager (components this)) maConn = Ok true →
  delay_accepted (inboundUpgradeTimeout this) = false →
  upgradeInbound mss peerIdFromString this maConn opts w
  = mkRun (EvAcceptIncomingConnection :: fired w) (tick w)
          (Err (ERR_OUT_OF_RANGE (inboundUpgradeTimeout this))).
Proof.
  intros Hacc Hdelay. unfold upgradeInbound.
  match goal with
  | |- context [try_finally ?m _] => generalize m; intros body
  end.
  unfold AbortSignal_timeout. run_unfold. rewrite Hacc, Hdelay. cbn.
  by rewrite app_nil_r.
Qed.

(** C1 (as amended): a call of [upgradeInbound] that passes admission, with
    an [inboundUpgradeTimeout] that [AbortSignal.timeout] accepts as a delay,
    calls [connectionManager.afterUpgradeInbound()] exactly once, as the last
    thing it does, whether it returns a connection or throws (a gater denial,
    a failed stage, a timeout that makes a stage fail); a call that is denied
    admission, or whose admission check throws, never calls it and throws. *)
Theorem upgradeInbound_afterUpgradeInbound maConn opts w :
  let r := upgradeInbound mss peerIdFromString this maConn opts w in
  if admitted this maConn
  then delay_accepted (inboundUpgradeTimeout this) = true →
       afterUpgradeInbound_calls (trace r) = 1
       ∧ last (trace r) = Some EvAfterUpgradeInbound
  else afterUpgradeInbound_calls (trace r) = 0
       ∧ is_ok (result r) = false.
Proof.
  intros r. unfold admitted.
  destruct (acceptIncomingConnection _ _) as [[|]|e] eqn:Hacc.
  - intros Hdelay.
    destruct (upgradeInbound_accepted maConn opts w Hacc Hdelay) as (t & Ht & Hobs).
    subst r. rewrite Ht. split.
    + unfold afterUpgradeInbound_calls. by rewrite obs_app, Hobs.
    + apply last_snoc.
  - destruct (upgradeInbound_refused maConn opts w) as [Ht Hr]; [congruence|].
    subst r. rewrite Ht. split; [|done].
    unfold afterUpgradeInbound_calls.
    change (EvAcceptIncomingConnection :: fired w) with ([EvAcceptIncomingConnection] ++ fired w).
    by rewrite obs_app, obs_fired.
  - destruct (upgradeInbound_refused maConn opts w) as [Ht Hr]; [congruence|].
    subst r. rewrite Ht. split; [|done].
    unfold afterUpgradeInbound_calls.
    change (EvAcceptIncomingConnection :: fired w) with ([EvAcceptIncomingConnection] ++ fired w).
    by rewrite obs_app, obs_fired.
Qed.

End UpgraderProperties.

(** C1, witness: the example upgrader admits the example connection and has
    the default timeout of 30000 ms; the upgrade returns and has called
    [afterUpgradeInbound] once, at its end. *)
Lemma upgradeInbound_afterUpgradeInbound_witness :
  let r := upgradeInbound example_mss example_peerIdFromString
             (example_upgrader true false) example_maConn None empty_world in
  afterUpgradeInbound_calls (trace r) = 1
  ∧ last (trace r) = Some EvAfterUpgradeInbound.
Proof.
  exact (upgradeInbound_afterUpgradeInbound example_mss example_peerIdFromString
           (example_upgrader true false) example_maConn None empty_world eq_refl).
Defined.

(** C1, counterexample: an inbound upgrade that is denied admission throws
    [ConnectionDeniedError] and has not called [afterUpgradeInbound]. *)
Lemma upgradeInbound_denied_without_afterUpgradeInbound :
  let r := upgradeInbound example_mss example_peerIdFromString
             (example_upgrader false false) example_maConn None empty_world in
  result r = Err (mkError ConnectionDeniedError "connection denied")
  ∧ afterUpgradeInbound_calls (trace r) = 0.
Proof. vm_compute. done. Qed.

(** * C2: the order of the gating checkpoints *)


(** ** Checkpoints *)

Lemma checkpoints_app t1 t2 : checkpoints (t1 ++ t2) = checkpoints t1 ++ checkpoints t2.
Proof. apply omap_app. Qed.

Lemma checkpoints_obs t : obs is_checkpoint t = [] → checkpoints t = [].
Proof.
  unfold obs, checkpoints, is_checkpoint. induction t as [|e t IH]; [done|].
  simpl. destruct (checkpoint_of e); [done|]. auto.
Qed.

Lemma checkpoints_fired w : checkpoints (fired w) = [].
Proof. apply checkpoints_obs. by apply obs_fired. Qed.

Lemma denies_is_checkpoint this maConn e : denies this maConn e = true → is_checkpoint e = true.
Proof. by destruct e. Qed.

Lemma obs_elem P t1 e t2 : P e = true → obs P (t1 ++ e :: t2) ≠ [].
Proof.
  intros He. rewrite obs_app. unfold obs at 2. simpl. rewrite He.
  by destruct (obs P t1).
Qed.

(** A trace without checkpoints holds no denial. *)
Lemma no_denial this maConn t t1 e t2 :
  obs is_checkpoint t = [] → t = t1 ++ e :: t2 → denies this maConn e = true → False.
Proof.
  intros Hn -> Hd. by eapply obs_elem; [eapply denies_is_checkpoint|].
Qed.

Section Checked.
Context (this : DefaultUpgrader) (maConn : MultiaddrConnection).

Lemma checked_silent {A} (m : M A) :
  silent is_checkpoint m → checked this maConn [] m.
Proof.
  intros Hs w. specialize (Hs w). split_and!.
  - by rewrite checkpoints_obs.
  - intros _. by apply checkpoints_obs.
  - intros t1 e t2 Ht Hd. by destruct (no_denial _ _ _ _ _ _ Hs Ht Hd).
Qed.

Lemma checked_bind {A B} (m : M A) (k : A → M B) l l1 l2 :
  checked this maConn l1 m → (∀ a, checked this maConn l2 (k a)) → l = l1 ++ l2 →
  checked this maConn l (m ≫= k).
Proof.
  intros Hm Hk -> w. destruct (Hm w) as (P1 & O1 & D1).
  rewrite trace_bind, result_bind. destruct (result (m w)) as [a|err] eqn:Hr.
  - destruct (Hk a (final (m w))) as (P2 & O2 & D2).
    rewrite checkpoints_app, O1 by done. split_and!.
    + by apply prefix_app.
    + intros Hok. by rewrite O2.
    + intros t1 e t2 Ht Hd.
      apply List.app_eq_app in Ht as [t [[Ht1 Ht2]|[Ht1 Ht2]]].
      * destruct t as [|e' t]; simpl in Ht2.
        -- eapply (D2 []); [|done]. by rewrite <- Ht2.
        -- injection Ht2 as <- ->. destruct (D1 _ _ _ Ht1 Hd) as [_ ?]. done.
      * eapply D2; [|done]. by rewrite Ht2.
  - rewrite app_nil_r. split_and!.
    + by apply prefix_app_r.
    + done.
    + intros t1 e t2 Ht Hd. by destruct (D1 _ _ _ Ht Hd).
Qed.

Lemma checked_seq_silent {A B} (m : M A) (k : A → M B) l :
  silent is_checkpoint m → (∀ a, checked this maConn l (k a)) →
  checked this maConn l (m ≫= k).
Proof. intros Hm Hk. eapply checked_bind; [by apply checked_silent|done|done]. Qed.

Lemma checked_try_catch {A} (m : M A) h l :
  checked this maConn l m →
  (∀ e, silent is_checkpoint (h e)) → (∀ e w, is_ok (result (h e w)) = false) →
  checked this maConn l (try_catch m h).
Proof.
  intros Hm Hs Hh w. destruct (Hm w) as (P1 & O1 & D1).
  rewrite trace_try_catch, result_try_catch.
  destruct (result (m w)) as [a|err] eqn:Hr.
  - by rewrite app_nil_r.
  - rewrite checkpoints_app, (checkpoints_obs (trace (h _ _))), app_nil_r by apply Hs.
    split_and!; [done|by rewrite Hh|].
    intros t1 e t2 Ht Hd. split; [|apply Hh].
    apply List.app_eq_app in Ht as [t [[Ht1 Ht2]|[Ht1 Ht2]]].
    + destruct t as [|e' t]; simpl in Ht2.
      * by destruct (no_denial _ _ _ [] _ _ (Hs err (final (m w))) (eq_sym Ht2) Hd).
      * injection Ht2 as <- ->. destruct (D1 _ _ _ Ht1 Hd) as [Hc _].
        rewrite checkpoints_app, Hc, checkpoints_obs by apply Hs. done.
    + by destruct (no_denial _ _ _ _ _ _ (Hs err (final (m w))) Ht2 Hd).
Qed.


(** A checkpoint: the call [ev], answered by [o], and the continuation [k]
    that throws at once on the answers [d] holds of. *)
Lemma checked_gate {B} ev c (o : Result bool) (d : bool → bool) (k : bool → M B) l :
  checkpoint_of ev = Some c →
  (denies this maConn ev = true → ∃ b, o = Ok b ∧ d b = true) →
  (∀ b w, d b = true → trace (k b w) = [] ∧ is_ok (result (k b w)) = false) →
  (∀ b, d b = false → checked this maConn l (k b)) →
  checked this maConn (c :: l) (call_await ev o ≫= k).
Proof.
  intros Hc Hden Hthrow Hk w.
  rewrite trace_bind, result_bind, call_await_run. simpl.
  rewrite Hc. simpl. rewrite checkpoints_app, checkpoints_fired. simpl.
  destruct o as [b|err].
  - destruct (d b) eqn:Hd.
    + destruct (Hthrow b (tick w) Hd) as [-> Hr]. simpl. split_and!.
      * apply prefix_cons, prefix_nil.
      * by rewrite Hr.
      * intros t1 e t2 Ht Hde. split; [|done].
        destruct t1 as [|e1 t1]; simpl in Ht.
        -- injection Ht as <- <-. by rewrite app_nil_r, checkpoints_fired.
        -- injection Ht as <- Ht. rewrite app_nil_r in Ht.
           by destruct (no_denial _ _ _ _ _ _ (obs_fired is_checkpoint w (λ _, eq_refl)) Ht Hde).
    + destruct (Hk b Hd (tick w)) as (P2 & O2 & D2). split_and!.
      * by apply prefix_cons.
      * intros Hok. by rewrite O2.
      * intros t1 e t2 Ht Hde.
        destruct t1 as [|e1 t1]; simpl in Ht.
        -- injection Ht as <- <-. destruct (Hden Hde) as (b' & [= <-] & Hd'). congruence.
        -- injection Ht as <- Ht.
           apply List.app_eq_app in Ht as [t [[Ht1 Ht2]|[Ht1 Ht2]]].
           ++ destruct t as [|e' t]; simpl in Ht2.
              ** eapply (D2 []); [|done]. by rewrite <- Ht2.
              ** injection Ht2 as <- ->.
                 by destruct (no_denial _ _ _ _ _ _ (obs_fired is_checkpoint w (λ _, eq_refl)) Ht1 Hde).
           ++ eapply D2; [|done]. by rewrite Ht2.
  - rewrite app_nil_r. split_and!.
    + apply prefix_cons, prefix_nil.
    + done.
    + intros t1 e t2 Ht Hde. split; [|done].
      destruct t1 as [|e1 t1]; simpl in Ht.
      * injection Ht as <- <-. by rewrite checkpoints_fired.
      * injection Ht as <- Ht.
        by destruct (no_denial _ _ _ _ _ _ (obs_fired is_checkpoint w (λ _, eq_refl)) Ht Hde).
Qed.

Lemma checked_shouldBlockConnection remotePeer c t :
  checked this maConn (gate this t) (shouldBlockConnection this remotePeer c t).
Proof.
  unfold shouldBlockConnection, gate.
  destruct (gater_method _ t) as [deny|] eqn:Hg.
  - eapply (checked_gate _ _ _ id); [done| | |].
    + simpl. rewrite Hg. destruct (deny remotePeer c) as [[|]|]; [eauto|done|done].
    + by intros [] w' [=].
    + intros [] [=]. by apply checked_silent, silent_ret.
  - by apply checked_silent, silent_ret.
Qed.

End Checked.


Section Inbound.
Context (mss : MultistreamSelect) (peerIdFromString : string → Result PeerId)
        (this : DefaultUpgrader).



End Inbound.



(** With encryption, and a gater that has every method, all four. *)
Lemma upgradeInbound_four_checkpoints :
  let r := upgradeInbound example_mss example_peerIdFromString
             (example_upgrader true false) example_maConn None empty_world in
  is_ok (result r) = true
  ∧ checkpoints (trace r)
    = [CpAcceptIncomingConnection; CpDenyInboundConnection;
       CpGater denyInboundEncryptedConnection; CpGater denyInboundUpgradedConnection]
  ∧ (multiplexer <$> (match result r with Ok c => Some c | _ => None end)) = Some (Some "/yamux/1.0.0")
  ∧ (encryption <$> (match result r with Ok c => Some c | _ => None end)) = Some "/noise".
Proof. vm_compute. split_and!; done. Qed.


(** * C5: closing the connection when an upgrade fails *)

Section Closing.
Context (mss : MultistreamSelect) (peerIdFromString : string → Result PeerId)
        (this : DefaultUpgrader).


Lemma upgradeOutbound_unfold maConn opts :
  upgradeOutbound mss peerIdFromString this maConn opts =
  (remotePeerId ←
     match getPeerId (remoteAddr maConn) with
     | Some idStr =>
         remotePeerId ← settle (peerIdFromString idStr);
         shouldBlockConnection this remotePeerId maConn denyOutboundConnection;;
         ret (Some remotePeerId)
     | None => ret None
     end;
   when (metrics (components this)) (emit EvTrackMultiaddrConnection);;
   emit (EvLog "starting the outbound connection upgrade");;
   protectedConn ←
     (if negb (is_true (opts ≫= skipProtection)) then
        match connectionProtector (components this) with
        | Some protector => call_await EvProtect (protect protector maConn)
        | None => ret maConn
        end
      else ret maConn);
   outbound_continue mss this maConn opts remotePeerId protectedConn).
Proof. reflexivity. Qed.

(** [upgradeOutbound] is its prelude followed by the rest. *)
Lemma upgradeOutbound_stages maConn opts w :
  upgradeOutbound mss peerIdFromString this maConn opts w =
  (outbound_prelude peerIdFromString this maConn opts
   ≫= λ '(remotePeerId, protectedConn),
        outbound_continue mss this maConn opts remotePeerId protectedConn) w.
Proof.
  rewrite upgradeOutbound_unfold. unfold outbound_prelude. run_unfold.
  repeat (case_match; simplify_eq; try reflexivity).
  all: f_equal; simpl; rewrite ?app_nil_r, <- ?app_assoc; simpl; try reflexivity.
Qed.



End Closing.





(** * C6: upgrades that skip encryption *)

(** ** What a computation returns *)

Lemma returns_ret {A} (Φ : A → Prop) a : Φ a → returns_with Φ (mret a).
Proof. by intros H w a' [= <-]. Qed.

Lemma returns_throw {A} (Φ : A → Prop) e : returns_with Φ (throw e).
Proof. by intros w a. Qed.

Lemma returns_any {A} (m : M A) : returns_with (λ _, True) m.
Proof. done. Qed.

Lemma returns_settle {A} (Φ : A → Prop) o : (∀ a, o = Ok a → Φ a) → returns_with Φ (settle o).
Proof. intros H w a Hr. by apply H. Qed.

Lemma returns_bind {A B} (Φ : A → Prop) (Ψ : B → Prop) (m : M A) (k : A → M B) :
  returns_with Φ m → (∀ a, Φ a → returns_with Ψ (k a)) → returns_with Ψ (m ≫= k).
Proof.
  intros Hm Hk w b. rewrite result_bind.
  destruct (result (m w)) as [a|e] eqn:Hr; [|done].
  by apply Hk, (Hm w).
Qed.

Lemma returns_seq {A B} (Ψ : B → Prop) (m : M A) (k : A → M B) :
  (∀ a, returns_with Ψ (k a)) → returns_with Ψ (m ≫= k).
Proof. intros Hk. eapply returns_bind; [apply returns_any|auto]. Qed.

Lemma returns_try_catch {A} (Φ : A → Prop) (m : M A) h :
  returns_with Φ m → (∀ e, returns_with Φ (h e)) → returns_with Φ (try_catch m h).
Proof.
  intros Hm Hh w a. rewrite result_try_catch.
  destruct (result (m w)) as [a'|e] eqn:Hr.
  - intros [= <-]. by apply (Hm w).
  - apply Hh.
Qed.

Lemma returns_try_finally {A} (Φ : A → Prop) (m : M A) f :
  returns_with Φ m → returns_with Φ (try_finally m f).
Proof.
  intros Hm w a. rewrite result_try_finally.
  destruct (result (f _)); [apply Hm|done].
Qed.

Section SkippedEncryption.
Context (mss : MultistreamSelect) (peerIdFromString : string → Result PeerId)
        (this : DefaultUpgrader).

Lemma returns_createConnection opts :
  returns_with (λ c, encryption c = cc_cryptoProtocol opts
                     ∧ c_remotePeer c = cc_remotePeer opts)
               (_createConnection mss this opts).
Proof.
  intros w c. unfold _createConnection. run_unfold.
  destruct (cc_muxerFactory opts); simpl; by intros [= <-].
Qed.

(** The encryption stage of either direction, when encryption is skipped,
    returns the protocol name [native]. *)
Lemma upgradeInbound_native maConn opts (Φ : Connection → Prop) :
  is_true (opts ≫= skipEncryption) = true →
  (getPeerId (remoteAddr maConn) ≠ None →
   ∀ c : Connection, encryption c = "native" → Φ c) →
  returns_with Φ (upgradeInbound mss peerIdFromString this maConn opts).
Proof.
  intros Hskip HΦ. unfold upgradeInbound. rewrite Hskip. simpl negb. cbv iota.
  apply returns_seq; intros [|]; [|apply returns_throw]. simpl negb. cbv iota.
  apply returns_seq; intros signal.
  apply returns_seq; intros _.
  apply returns_try_finally.
  apply returns_seq; intros [|]; [apply returns_throw|].
  apply returns_seq; intros _.
  apply returns_seq; intros _.
  apply returns_seq; intros protectedConn.
  eapply (returns_bind (λ '(remotePeer, cryptoProtocol, upgradedConn, muxerFactory),
                          getPeerId (remoteAddr maConn) ≠ None ∧ cryptoProtocol = "native")).
  - apply returns_try_catch; [|intros; apply returns_seq; intros; apply returns_throw].
    eapply (returns_bind (λ '(encryptedConn, remotePeer, cryptoProtocol),
                            getPeerId (remoteAddr maConn) ≠ None ∧ cryptoProtocol = "native")).
    + destruct (getPeerId (remoteAddr maConn)); [|apply returns_throw].
      apply returns_seq; intros remotePeerId. by apply returns_ret.
    + intros [[encryptedConn remotePeer] cryptoProtocol] [Hid ->].
      apply returns_seq; intros [upgradedConn muxerFactory]. by apply returns_ret.
  - intros [[[remotePeer cryptoProtocol] upgradedConn] muxerFactory] [Hid ->].
    apply returns_seq; intros _.
    apply returns_seq; intros _.
    intros w c Hc. apply returns_createConnection in Hc as [Hc _]. by apply HΦ.
Qed.

Lemma upgradeOutbound_native maConn opts (Φ : Connection → Prop) :
  is_true (opts ≫= skipEncryption) = true →
  (getPeerId (remoteAddr maConn) ≠ None →
   ∀ c : Connection, encryption c = "native" → Φ c) →
  returns_with Φ (upgradeOutbound mss peerIdFromString this maConn opts).
Proof.
  intros Hskip HΦ. unfold upgradeOutbound. rewrite Hskip. simpl negb. cbv iota.
  eapply (returns_bind (λ remotePeerId : option PeerId,
                          getPeerId (remoteAddr maConn) = None → remotePeerId = None)).
  { destruct (getPeerId (remoteAddr maConn)); [|by apply returns_ret].
    apply returns_seq; intros remotePeerId.
    apply returns_seq; intros _. by apply returns_ret. }
  intros remotePeerId Hid.
  apply returns_seq; intros _.
  apply returns_seq; intros _.
  apply returns_seq; intros protectedConn.
  eapply (returns_bind (λ '(remotePeer, cryptoProtocol, upgradedConn, muxerFactory),
                          getPeerId (remoteAddr maConn) ≠ None ∧ cryptoProtocol = "native")).
  - apply returns_try_catch;
      [|intros; apply returns_seq; intros; apply returns_seq; intros; apply returns_throw].
    eapply (returns_bind (λ '(encryptedConn, remotePeer, cryptoProtocol),
                            getPeerId (remoteAddr maConn) ≠ None ∧ cryptoProtocol = "native")).
    + destruct remotePeerId; [|apply returns_throw].
      apply returns_ret. split; [|done]. intros Hn. by specialize (Hid Hn).
    + intros [[encryptedConn remotePeer] cryptoProtocol] [Hid' ->].
      apply returns_seq; intros [upgradedConn muxerFactory]. by apply returns_ret.
  - intros [[[remotePeer cryptoProtocol] upgradedConn] muxerFactory] [Hid' ->].
    apply returns_seq; intros _.
    apply returns_seq; intros _.
    intros w c Hc. apply returns_createConnection in Hc as [Hc _]. by apply HΦ.
Qed.

End SkippedEncryption.


Lemma checkpoints_cons e t :
  checkpoints (e :: t) = option_list (checkpoint_of e) ++ checkpoints t.
Proof. unfold checkpoints. simpl. by destruct (checkpoint_of e). Qed.

(** ** Computations that return *)

Lemma succeeds_ret {A} (Φ : A → Prop) a : Φ a → succeeds Φ (mret a).
Proof. intros H w. by exists a. Qed.

Lemma succeeds_bind {A B} (Φ : A → Prop) (Ψ : B → Prop) (m : M A) (k : A → M B) :
  succeeds Φ m → (∀ a, Φ a → succeeds Ψ (k a)) → succeeds Ψ (m ≫= k).
Proof.
  intros Hm Hk w. destruct (Hm w) as (a & Hr & Ha).
  rewrite result_bind, Hr. by apply Hk.
Qed.

Lemma succeeds_seq {A B} (Ψ : B → Prop) (m : M A) (k : A → M B) :
  succeeds (λ _, True) m → (∀ a, succeeds Ψ (k a)) → succeeds Ψ (m ≫= k).
Proof. intros Hm Hk. eapply succeeds_bind; [exact Hm|auto]. Qed.

Lemma succeeds_try_catch {A} (Φ : A → Prop) (m : M A) h :
  succeeds Φ m → succeeds Φ (try_catch m h).
Proof.
  intros Hm w. destruct (Hm w) as (a & Hr & Ha). exists a.
  by rewrite result_try_catch, Hr.
Qed.

Lemma succeeds_try_finally {A} (Φ : A → Prop) (m : M A) f :
  succeeds Φ m → succeeds (λ _, True) f → succeeds Φ (try_finally m f).
Proof.
  intros Hm Hf w. destruct (Hm w) as (a & Hr & Ha).
  destruct (Hf (final (m w))) as (u & Hu & _). exists a.
  by rewrite result_try_finally, Hu.
Qed.

Lemma succeeds_emit e : succeeds (λ _, True) (emit e).
Proof. intros w. by exists tt. Qed.

Lemma succeeds_when b e : succeeds (λ _, True) (when b (emit e)).
Proof. intros w. exists tt. by destruct b. Qed.

Lemma succeeds_modify f : succeeds (λ _, True) (modify f).
Proof. intros w. by exists tt. Qed.

Lemma succeeds_settle {A} (o : Result A) a : o = Ok a → succeeds (λ x, x = a) (settle o).
Proof. intros -> w. by exists a. Qed.

Lemma succeeds_await {A} (o : Result A) a : o = Ok a → succeeds (λ x, x = a) (await o).
Proof. intros -> w. by exists a. Qed.

Lemma succeeds_call_await {A} e (o : Result A) a :
  o = Ok a → succeeds (λ x, x = a) (call_await e o).
Proof. intros -> w. by exists a. Qed.

Section Proceeds.
Context (mss : MultistreamSelect) (this : DefaultUpgrader).

Lemma succeeds_shouldBlockConnection remotePeer maConn t :
  gater_passes this t remotePeer maConn = true →
  succeeds (λ _, True) (shouldBlockConnection this remotePeer maConn t).
Proof.
  unfold gater_passes, shouldBlockConnection. intros H w.
  destruct (gater_method _ _) as [deny|]; [|by exists tt].
  destruct (deny remotePeer maConn) as [[|]|] eqn:Hd; try done.
  exists tt. by run_unfold.
Qed.

Lemma succeeds_createConnection opts :
  succeeds (λ c, encryption c = cc_cryptoProtocol opts
                 ∧ c_remotePeer c = cc_remotePeer opts)
           (_createConnection mss this opts).
Proof.
  intros w. unfold _createConnection. run_unfold.
  destruct (cc_muxerFactory opts); simpl; eauto.
Qed.

Lemma succeeds_multiplex_stage multiplex negotiate progress opts protectedConn connection :
  (is_ok (negotiate connection (map_keys (streamMuxers this))) = true →
   succeeds (λ _, True) (multiplex connection (streamMuxers this))) →
  succeeds (λ _, True) progress →
  muxer_stage_passes negotiate this opts connection = true →
  succeeds (λ _, True) (multiplex_stage this multiplex progress opts protectedConn connection).
Proof.
  unfold muxer_stage_passes, multiplex_stage. intros Hm Hp H.
  destruct (opts ≫= opt_muxerFactory); [by apply succeeds_ret|].
  destruct (bool_decide _); [|by apply succeeds_ret].
  apply succeeds_seq; [done|]. intros _. by apply Hm.
Qed.

Lemma succeeds_multiplexInbound connection muxers :
  is_ok (handle mss connection (map_keys muxers)) = true →
  succeeds (λ _, True) (_multiplexInbound mss connection muxers).
Proof.
  intros H w. unfold _multiplexInbound. run_unfold.
  destruct (handle mss connection (map_keys muxers)) as [[stream protocol]|]; [|done].
  simpl. eauto.
Qed.

Lemma succeeds_multiplexOutbound connection muxers :
  is_ok (select mss connection (map_keys muxers)) = true →
  succeeds (λ _, True) (_multiplexOutbound mss connection muxers).
Proof.
  intros H w. unfold _multiplexOutbound. run_unfold.
  destruct (select mss connection (map_keys muxers)) as [[stream protocol]|]; [|done].
  simpl. eauto.
Qed.

End Proceeds.

Section SkippedEncryption2.
Context (mss : MultistreamSelect) (peerIdFromString : string → Result PeerId)
        (this : DefaultUpgrader).

Lemma upgradeInbound_skip_no_peer_id maConn opts w :
  is_true (opts ≫= skipEncryption) = true →
  getPeerId (remoteAddr maConn) = None →
  admitted this maConn = true →
  delay_accepted (inboundUpgradeTimeout this) = true →
  inbound_connection_passes this maConn = true →
  protection_passes this maConn opts = true →
  result (upgradeInbound mss peerIdFromString this maConn opts w)
  = Err (mkError InvalidMultiaddrError
           "inbound connection that skipped encryption must have a peer id").
Proof.
  unfold admitted, inbound_connection_passes, protection_passes.
  intros Hskip Hid Hacc Hdelay Hdeny Hprot.
  unfold upgradeInbound. rewrite Hskip, Hid.
  unfold AbortSignal_timeout, addEventListener, removeEventListener.
  rewrite Hdelay.
  destruct (acceptIncomingConnection _ _) as [[|]|]; try done.
  destruct (denyInboundConnection _) as [deny|];
    [destruct (deny maConn) as [[|]|]; try done|];
    destruct (is_true (opts ≫= skipProtection));
    destruct (metrics (components this));
    try (destruct (connectionProtector _) as [protector|];
         [destruct (protect protector maConn); try done|]);
    run_unfold; reflexivity.
Qed.

Lemma upgradeOutbound_skip_no_peer_id maConn opts w :
  is_true (opts ≫= skipEncryption) = true →
  getPeerId (remoteAddr maConn) = None →
  protection_passes this maConn opts = true →
  let err := mkError InvalidPeerIdError
               "Encryption was skipped but no peer id was passed" in
  let r := upgradeOutbound mss peerIdFromString this maConn opts w in
  result r = Err (match maConn_close maConn with
                  | Ok _ => err
                  | Err e => e
                  end)
  ∧ obs is_maConnClose (trace r) = [EvMaConnClose (Some err)].
Proof.
  unfold protection_passes.
  intros Hskip Hid Hprot.
  unfold upgradeOutbound. rewrite Hskip, Hid.
  destruct (is_true (opts ≫= skipProtection));
    destruct (metrics (components this));
    try (destruct (connectionProtector _) as [protector|];
         [destruct (protect protector maConn); try done|]);
    destruct (maConn_close maConn) as [[]|];
    run_unfold; (split; [reflexivity|]); cbn -[fired tick obs];
    by obs_simpl.
Qed.

(** With encryption skipped, no encrypter is asked for a handshake. *)
Lemma upgradeInbound_skip_no_handshake maConn opts :
  is_true (opts ≫= skipEncryption) = true →
  silent is_handshake (upgradeInbound mss peerIdFromString this maConn opts).
Proof.
  intros Hskip. unfold upgradeInbound. rewrite Hskip. simpl negb. cbv iota.
  silent_tac.
Qed.

Lemma upgradeOutbound_skip_no_handshake maConn opts :
  is_true (opts ≫= skipEncryption) = true →
  silent is_handshake (upgradeOutbound mss peerIdFromString this maConn opts).
Proof.
  intros Hskip. unfold upgradeOutbound. rewrite Hskip. simpl negb. cbv iota.
  silent_tac.
Qed.

(** With encryption skipped and a peer id in the address, the upgrade
    returns a connection once the other stages let it pass. *)
Lemma upgradeInbound_skip_proceeds maConn opts idStr remotePeer :
  is_true (opts ≫= skipEncryption) = true →
  getPeerId (remoteAddr maConn) = Some idStr →
  peerIdFromString idStr = Ok remotePeer →
  admitted this maConn = true →
  delay_accepted (inboundUpgradeTimeout this) = true →
  inbound_connection_passes this maConn = true →
  protection_passes this maConn opts = true →
  muxer_stage_passes (handle mss) this opts (protected_conn this maConn opts) = true →
  gater_passes this denyInboundUpgradedConnection remotePeer maConn = true →
  succeeds (λ c, encryption c = "native" ∧ c_remotePeer c = remotePeer)
           (upgradeInbound mss peerIdFromString this maConn opts).
Proof.
  unfold admitted, inbound_connection_passes, protection_passes.
  intros Hskip Hid Hpeer Hacc Hdelay Hdeny Hprot Hmux Hgate.
  unfold upgradeInbound. rewrite Hskip, Hid. simpl negb. cbv iota.
  eapply succeeds_bind.
  { apply (succeeds_call_await _ _ true).
    by destruct (acceptIncomingConnection _ _) as [[|]|]. }
  intros accept ->. simpl negb. cbv iota.
  eapply (succeeds_bind (λ _, True)).
  { intros w. unfold AbortSignal_timeout. rewrite Hdelay. eauto. }
  intros signal _.
  apply succeeds_seq; [apply succeeds_modify|intros _].
  apply succeeds_try_finally.
  2:{ apply succeeds_seq; [apply succeeds_modify|intros _; apply succeeds_emit]. }
  eapply (succeeds_bind (λ denied, denied = false)).
  { destruct (denyInboundConnection _) as [deny|].
    - apply succeeds_call_await. by destruct (deny maConn) as [[|]|].
    - by apply succeeds_await. }
  intros denied ->.
  apply succeeds_seq; [apply succeeds_when|intros _].
  apply succeeds_seq; [apply succeeds_emit|intros _].
  eapply (succeeds_bind (λ c, c = protected_conn this maConn opts)).
  { unfold protected_conn.
    destruct (is_true (opts ≫= skipProtection)); simpl negb; cbv iota.
    - by apply succeeds_ret.
    - destruct (connectionProtector _) as [protector|].
      + apply succeeds_seq; [apply succeeds_emit|intros _].
        destruct (protect protector maConn) as [c|] eqn:Hp; [|done].
        by apply succeeds_call_await.
      + by apply succeeds_ret. }
  intros protectedConn ->.
  eapply (succeeds_bind (λ '(remotePeer', cryptoProtocol, upgradedConn, muxerFactory),
                           remotePeer' = remotePeer ∧ cryptoProtocol = "native")).
  { apply succeeds_try_catch.
    eapply (succeeds_bind (λ '(encryptedConn, remotePeer', cryptoProtocol),
                             encryptedConn = _
                             ∧ remotePeer' = remotePeer ∧ cryptoProtocol = "native")).
    { eapply succeeds_bind; [by apply succeeds_settle|].
      intros remotePeerId ->. by apply succeeds_ret. }
    intros [[encryptedConn remotePeer'] cryptoProtocol] (-> & -> & ->).
    eapply (succeeds_bind (λ _, True)).
    { eapply succeeds_multiplex_stage; [|apply succeeds_when|exact Hmux].
      apply succeeds_multiplexInbound. }
    intros [upgradedConn muxerFactory] _. by apply succeeds_ret. }
  intros [[[remotePeer' cryptoProtocol] upgradedConn] muxerFactory] [-> ->].
  apply succeeds_seq; [by apply succeeds_shouldBlockConnection|intros _].
  apply succeeds_seq; [apply succeeds_emit|intros _].
  apply succeeds_createConnection.
Qed.

Lemma upgradeOutbound_skip_proceeds maConn opts idStr remotePeer :
  is_true (opts ≫= skipEncryption) = true →
  getPeerId (remoteAddr maConn) = Some idStr →
  peerIdFromString idStr = Ok remotePeer →
  gater_passes this denyOutboundConnection remotePeer maConn = true →
  protection_passes this maConn opts = true →
  muxer_stage_passes (select mss) this opts (protected_conn this maConn opts) = true →
  gater_passes this denyOutboundUpgradedConnection remotePeer maConn = true →
  succeeds (λ c, encryption c = "native" ∧ c_remotePeer c = remotePeer)
           (upgradeOutbound mss peerIdFromString this maConn opts).
Proof.
  unfold protection_passes.
  intros Hskip Hid Hpeer Hfirst Hprot Hmux Hgate.
  unfold upgradeOutbound. rewrite Hskip, Hid. simpl negb. cbv iota.
  eapply (succeeds_bind (λ remotePeerId, remotePeerId = Some remotePeer)).
  { eapply succeeds_bind; [by apply succeeds_settle|].
    intros remotePeerId ->.
    apply succeeds_seq; [by apply succeeds_shouldBlockConnection|intros _].
    by apply succeeds_ret. }
  intros remotePeerId ->.
  apply succeeds_seq; [apply succeeds_when|intros _].
  apply succeeds_seq; [apply succeeds_emit|intros _].
  eapply (succeeds_bind (λ c, c = protected_conn this maConn opts)).
  { unfold protected_conn.
    destruct (is_true (opts ≫= skipProtection)); simpl negb; cbv iota.
    - by apply succeeds_ret.
    - destruct (connectionProtector _) as [protector|].
      + destruct (protect protector maConn) as [c|] eqn:Hp; [|done].
        by apply succeeds_call_await.
      + by apply succeeds_ret. }
  intros protectedConn ->.
  eapply (succeeds_bind (λ '(remotePeer', cryptoProtocol, upgradedConn, muxerFactory),
                           remotePeer' = remotePeer ∧ cryptoProtocol = "native")).
  { apply succeeds_try_catch.
    eapply (succeeds_bind (λ '(encryptedConn, remotePeer', cryptoProtocol),
                             encryptedConn = _
                             ∧ remotePeer' = remotePeer ∧ cryptoProtocol = "native")).
    { by apply succeeds_ret. }
    intros [[encryptedConn remotePeer'] cryptoProtocol] (-> & -> & ->).
    eapply (succeeds_bind (λ _, True)).
    { eapply succeeds_multiplex_stage; [|by apply succeeds_ret|exact Hmux].
      apply succeeds_multiplexOutbound. }
    intros [upgradedConn muxerFactory] _. by apply succeeds_ret. }
  intros [[[remotePeer' cryptoProtocol] upgradedConn] muxerFactory] [-> ->].
  apply succeeds_seq; [by apply succeeds_shouldBlockConnection|intros _].
  apply succeeds_seq; [apply succeeds_emit|intros _].
  apply succeeds_createConnection.
Qed.

End SkippedEncryption2.


Section SkippedEncryption3.
Context (mss : MultistreamSelect) (peerIdFromString : string → Result PeerId)
        (this : DefaultUpgrader).

(** C6 (as amended): when encryption is skipped, no encrypter is asked for
    a handshake, and the peer id is the one in the remote address, the only
    place either upgrade takes it from.  If the address carries none, no
    connection is returned: an inbound upgrade that reaches the encryption
    stage (admitted, with a timeout [AbortSignal.timeout] accepts, let pass
    by [denyInboundConnection] and by the protector) throws
    [InvalidMultiaddrError]; an outbound upgrade that reaches it (the
    protector let it pass) throws [InvalidPeerIdError] there, closes the
    connection with that error as the cause, and fails with that error when
    the close resolves.  If the address carries a peer id, the upgrade
    proceeds with that peer and the crypto protocol [native]: it returns a
    connection with both whenever the peer id parses and the remaining
    stages (gates, protector, muxer negotiation) let it pass, and a
    connection it returns always records [native]. *)
Theorem skipped_encryption maConn opts w :
  is_true (opts ≫= skipEncryption) = true →
  let ri := upgradeInbound mss peerIdFromString this maConn opts w in
  let ro := upgradeOutbound mss peerIdFromString this maConn opts w in
  let protectedConn := protected_conn this maConn opts in
  obs is_handshake (trace ri) = []
  ∧ obs is_handshake (trace ro) = []
  ∧ match getPeerId (remoteAddr maConn) with
    | None =>
        is_ok (result ri) = false
        ∧ (admitted this maConn = true →
           delay_accepted (inboundUpgradeTimeout this) = true →
           inbound_connection_passes this maConn = true →
           protection_passes this maConn opts = true →
           result ri = Err (mkError InvalidMultiaddrError
                              "inbound connection that skipped encryption must have a peer id"))
        ∧ is_ok (result ro) = false
        ∧ (protection_passes this maConn opts = true →
           let err := mkError InvalidPeerIdError
                        "Encryption was skipped but no peer id was passed" in
           obs is_maConnClose (trace ro) = [EvMaConnClose (Some err)]
           ∧ (is_ok (maConn_close maConn) = true → result ro = Err err))
    | Some idStr =>
        (∀ c, result ri = Ok c → encryption c = "native")
        ∧ (∀ c, result ro = Ok c → encryption c = "native")
        ∧ ∀ remotePeer, peerIdFromString idStr = Ok remotePeer →
            (admitted this maConn = true →
             delay_accepted (inboundUpgradeTimeout this) = true →
             inbound_connection_passes this maConn = true →
             protection_passes this maConn opts = true →
             muxer_stage_passes (handle mss) this opts protectedConn = true →
             gater_passes this denyInboundUpgradedConnection remotePeer maConn = true →
             ∃ c, result ri = Ok c ∧ encryption c = "native" ∧ c_remotePeer c = remotePeer)
            ∧ (gater_passes this denyOutboundConnection remotePeer maConn = true →
               protection_passes this maConn opts = true →
               muxer_stage_passes (select mss) this opts protectedConn = true →
               gater_passes this denyOutboundUpgradedConnection remotePeer maConn = true →
               ∃ c, result ro = Ok c ∧ encryption c = "native" ∧ c_remotePeer c = remotePeer)
    end.
Proof.
  intros Hskip ri ro protectedConn. split_and!.
  - by apply upgradeInbound_skip_no_handshake.
  - by apply upgradeOutbound_skip_no_handshake.
  - destruct (getPeerId (remoteAddr maConn)) as [idStr|] eqn:Hid; split_and!.
    + intros c Hr.
      by apply (upgradeInbound_native mss peerIdFromString this maConn opts
                  (λ c, encryption c = "native")) in Hr.
    + intros c Hr.
      by apply (upgradeOutbound_native mss peerIdFromString this maConn opts
                  (λ c, encryption c = "native")) in Hr.
    + intros remotePeer Hpeer. split.
      * intros. by eapply upgradeInbound_skip_proceeds.
      * intros. by eapply upgradeOutbound_skip_proceeds.
    + destruct (result ri) as [c|] eqn:Hr; [|done].
      apply (upgradeInbound_native mss peerIdFromString this maConn opts (λ _, False))
        in Hr; [done|done|]. by rewrite Hid.
    + intros. by apply upgradeInbound_skip_no_peer_id.
    + destruct (result ro) as [c|] eqn:Hr; [|done].
      apply (upgradeOutbound_native mss peerIdFromString this maConn opts (λ _, False))
        in Hr; [done|done|]. by rewrite Hid.
    + intros Hprot err.
      destruct (upgradeOutbound_skip_no_peer_id mss peerIdFromString this maConn opts w
                Hskip Hid Hprot)
        as [Hr Hclose].
      split; [exact Hclose|]. intros Hok. fold ro in Hr. rewrite Hr.
      by destruct (maConn_close maConn).
Qed.

End SkippedEncryption3.

(** C6, witness: with the example upgrader and encryption skipped, the
    address without peer id fails either way, and the address with a peer
    id is upgraded either way, to a connection with that peer and the crypto
    protocol [native]. *)
Lemma skipped_encryption_witness :
  result (upgradeInbound example_mss example_peerIdFromString (example_upgrader true false)
            anonymous_maConn skip_encryption empty_world)
  = Err (mkError InvalidMultiaddrError
           "inbound connection that skipped encryption must have a peer id")
  ∧ result (upgradeOutbound example_mss example_peerIdFromString (example_upgrader true false)
              anonymous_maConn skip_encryption empty_world)
    = Err (mkError InvalidPeerIdError "Encryption was skipped but no peer id was passed")
  ∧ (∃ c, result (upgradeInbound example_mss example_peerIdFromString
                    (example_upgrader true false) example_maConn skip_encryption empty_world)
          = Ok c
          ∧ encryption c = "native" ∧ c_remotePeer c = "12D3KooWRemote")
  ∧ (∃ c, result (upgradeOutbound example_mss example_peerIdFromString
                    (example_upgrader true false) example_maConn skip_encryption empty_world)
          = Ok c
          ∧ encryption c = "native" ∧ c_remotePeer c = "12D3KooWRemote").
Proof.
  pose proof (skipped_encryption example_mss example_peerIdFromString
                (example_upgrader true false) anonymous_maConn skip_encryption
                empty_world eq_refl) as (_ & _ & _ & Hin & _ & Hout).
  split; [exact (Hin eq_refl eq_refl eq_refl eq_refl)|].
  split; [exact (proj2 (Hout eq_refl) eq_refl)|].
  pose proof (skipped_encryption example_mss example_peerIdFromString
                (example_upgrader true false) example_maConn skip_encryption
                empty_world eq_refl) as (_ & _ & _ & _ & Hok).
  destruct (Hok "12D3KooWRemote" eq_refl) as [Hi Ho].
  split; [exact (Hi eq_refl eq_refl eq_refl eq_refl eq_refl eq_refl)|].
  exact (Ho eq_refl eq_refl eq_refl eq_refl).
Defined.

(** C6, counterexample: an outbound upgrade that skips encryption, of a
    connection whose address has no peer id and whose [close] rejects, fails
    with the error of [close], which is not an [InvalidPeerIdError]. *)
Lemma upgradeOutbound_skip_fails_with_close_error :
  let r := upgradeOutbound example_mss example_peerIdFromString
             (example_upgrader true false) unclosable_maConn skip_encryption
             empty_world in
  getPeerId (remoteAddr unclosable_maConn) = None
  ∧ result r = Err (mkError GenericError "socket already destroyed")
  ∧ ∀ message, result r ≠ Err (mkError InvalidPeerIdError message).
Proof. vm_compute. split_and!; [done|done|]. intros message. discriminate. Qed.


(** * C8: connections with and without muxer *)

Section Connections.
Context (mss : MultistreamSelect) (this : DefaultUpgrader).

(** The muxer [_createConnection] installs. *)
Lemma built_by_inv opts c :
  built_by mss this opts c →
  let muxer := (λ f, createStreamMuxer f (cc_direction opts)) <$> cc_muxerFactory opts in
  multiplexer c = mux_protocol <$> muxer
  ∧ limits c = cc_limits opts
  ∧ getStreams c = (λ w, match muxer with Some _ => muxer_streams w | None => [] end)
  ∧ newStream c = match muxer with
                  | Some m => newStream_closure mss this (cc_remotePeer opts) (Some m)
                                                (getStreams c)
                  | None => λ _ _, errConnectionNotMultiplexed
                  end.
Proof.
  intros [w Hc]. revert Hc. unfold _createConnection. run_unfold.
  destruct (cc_muxerFactory opts); simpl; by intros [= <-].
Qed.

(** C8: [_createConnection] always returns a connection, and its
    [multiplexer] field is set if and only if a muxer was installed, that
    is, [createStreamMuxer] was called.  With a muxer factory the muxer is
    created once, [multiplexer] is the protocol of that muxer,
    [getStreams()] is the muxer's [streams], and [newStream] is the closure
    over that muxer, which starts by calling its [newStream].  Without one
    no muxer is created, [multiplexer] is unset, every [newStream] call
    throws [MuxerUnavailableError] at once, and [getStreams()] is empty. *)
Theorem createConnection_multiplexer opts w :
  let r := _createConnection mss this opts w in
  ∃ c, result r = Ok c
    ∧ (is_Some (multiplexer c) ↔ obs is_createStreamMuxer (trace r) ≠ [])
    ∧ match cc_muxerFactory opts with
      | Some muxerFactory =>
          let muxer := createStreamMuxer muxerFactory (cc_direction opts) in
          obs is_createStreamMuxer (trace r)
          = [EvCreateStreamMuxer (mux_protocol muxer) (cc_direction opts)]
          ∧ multiplexer c = Some (mux_protocol muxer)
          ∧ getStreams c = muxer_streams
          ∧ newStream c
            = newStream_closure mss this (cc_remotePeer opts) (Some muxer) muxer_streams
          ∧ ∀ protocols options w',
              ∃ t, trace (newStream c protocols options w')
                   = EvLog "starting new stream for protocols %s" :: EvMuxerNewStream :: t
      | None =>
          obs is_createStreamMuxer (trace r) = []
          ∧ multiplexer c = None
          ∧ (∀ protocols options w',
               newStream c protocols options w'
               = mkRun [] w' (Err (mkError MuxerUnavailableError
                                     "Connection is not multiplexed")))
          ∧ ∀ w', getStreams c w' = []
      end.
Proof.
  intros r. subst r.
  destruct (result (_createConnection mss this opts w)) as [c|e] eqn:Hr.
  2:{ revert Hr. unfold _createConnection. run_unfold.
      by destruct (cc_muxerFactory opts). }
  assert (built_by mss this opts c) as Hb by by exists w.
  apply built_by_inv in Hb as (Hm & _ & Hg & Hn).
  assert (obs is_createStreamMuxer (trace (_createConnection mss this opts w))
          = match cc_muxerFactory opts with
            | Some muxerFactory =>
                [EvCreateStreamMuxer
                   (mux_protocol (createStreamMuxer muxerFactory (cc_direction opts)))
                   (cc_direction opts)]
            | None => []
            end) as Ht.
  { unfold _createConnection. run_unfold. by destruct (cc_muxerFactory opts). }
  exists c. split; [done|]. rewrite Ht, Hm. split.
  - destruct (cc_muxerFactory opts); simpl; split; intros H;
      first [done | by eauto | by destruct H as [? [=]]].
  - destruct (cc_muxerFactory opts) as [muxerFactory|]; simpl in *.
    + split_and!; try done.
      * by rewrite Hn, Hg.
      * intros protocols options w'. rewrite Hn.
        unfold newStream_closure, muxer_newStream.
        rewrite !trace_bind. simpl. eauto.
    + rewrite Hg, Hn. done.
Qed.

End Connections.


(** * Incoming streams: C3, C7, C9 *)

(** ** Stream objects *)

Lemma muxer_streams_tick w : muxer_streams (tick w) = muxer_streams w.
Proof. done. Qed.

Lemma stream_closed_tick id w : stream_closed id (tick w) = stream_closed id w.
Proof. done. Qed.

Lemma stream_protocol_tick id w : stream_protocol id (tick w) = stream_protocol id w.
Proof. done. Qed.

Lemma stream_protocol_rebind id stream w :
  is_Some (objects w !! id) →
  stream_protocol id (set_objects (alter (rebind stream) id) w) = Some (n_protocol stream).
Proof.
  intros [s Hs]. unfold stream_protocol. simpl.
  by rewrite lookup_alter, decide_True, Hs.
Qed.

Lemma stream_closed_rebind id stream w :
  stream_closed id (set_objects (alter (rebind stream) id) w) = stream_closed id w.
Proof.
  unfold stream_closed. simpl. rewrite lookup_alter, decide_True by done.
  by destruct (objects w !! id).
Qed.

Lemma stream_protocol_close id id' w :
  stream_protocol id (set_objects (alter set_timeline_close id') w) = stream_protocol id w.
Proof.
  unfold stream_protocol. simpl. rewrite lookup_alter.
  case_decide; [subst|done]. by destruct (objects w !! id).
Qed.

Section Incoming.
Context (mss : MultistreamSelect) (this : DefaultUpgrader).

(** ** The runs of [_onStream] and of the [catch] function *)

Lemma onStream_run c id protocol w :
  _onStream this c id protocol w =
  match getHandler (registrar (components this)) protocol with
  | Ok h =>
      if may_run c h then mkRun [EvHandler protocol id] w (handler h id)
      else mkRun [] w (Err (mkError LimitedConnectionError
                              "Cannot open protocol stream on limited connection"))
  | Err e => mkRun [] w (Err e)
  end.
Proof.
  unfold _onStream, may_run. run_unfold.
  destruct (getHandler _ _) as [h|e]; [|done].
  destruct (bool_decide _), (is_true _); simpl; try done;
    by destruct (handler h id).
Qed.

Lemma onIncomingStream_catch_run id err w :
  onIncomingStream_catch id err w =
  if stream_closed id w
  then mkRun [EvLogError "error handling incoming stream id %s" err] w (Ok tt)
  else
    let o := match objects w !! id with Some s => s_close s | None => Ok tt end in
    mkRun ([EvLogError "error handling incoming stream id %s" err; EvStreamClose id]
           ++ fired w)
          (match o with
           | Ok _ => set_objects (alter set_timeline_close id) (tick w)
           | Err _ => tick w
           end)
          o.
Proof.
  unfold onIncomingStream_catch, stream_close, update_stream. run_unfold.
  destruct (stream_closed id w); [done|].
  destruct (objects w !! id) as [s|]; simpl.
  - destruct (s_close s) as [[]|]; simpl; by rewrite ?app_nil_r.
  - by rewrite ?app_nil_r.
Qed.

Lemma onIncomingStream_catch_protocol id err w :
  stream_protocol id (final (onIncomingStream_catch id err w)) = stream_protocol id w.
Proof.
  rewrite onIncomingStream_catch_run. destruct (stream_closed id w); [done|].
  simpl. destruct (match objects w !! id with Some s => s_close s | None => Ok () end);
    simpl; by rewrite ?stream_protocol_close, ?stream_protocol_tick.
Qed.

(** ** The run of the task *)

(** The limit is reached: the stream is aborted and the task throws. *)
Lemma onIncomingStream_then_abort remotePeer c id w stream lim :
  handle_stream mss id (getProtocols (registrar (components this))) = Ok stream →
  findIncomingStreamLimit (n_protocol stream) (registrar (components this)) = Ok lim →
  strict_eq_limit (countStreams (n_protocol stream) inbound (getStreams c (tick w))) lim
  = true →
  ∃ err,
    name err = TooManyInboundProtocolStreamsError
    ∧ onIncomingStream_then mss this remotePeer c id w
      = mkRun (EvMssHandle (getProtocols (registrar (components this))) :: fired w
               ++ [EvLog "incoming stream opened on %s"; EvStreamAbort id err])
              (set_objects (alter set_timeline_close id) (tick w))
              (Err err).
Proof.
  intros Hh Hl Hc. unfold onIncomingStream_then, stream_abort, update_stream.
  run_unfold. rewrite Hh, Hl. simpl. rewrite Hc. simpl.
  eexists. split; [|by rewrite ?app_nil_r]. done.
Qed.

(** The limit is not reached: the stream is rebound, the protocol goes to
    the peer store, and the stream goes to the router. *)
Lemma onIncomingStream_then_route remotePeer c id w stream lim :
  handle_stream mss id (getProtocols (registrar (components this))) = Ok stream →
  findIncomingStreamLimit (n_protocol stream) (registrar (components this)) = Ok lim →
  strict_eq_limit (countStreams (n_protocol stream) inbound (getStreams c (tick w))) lim
  = false →
  let protocol := n_protocol stream in
  let w1 := set_objects (alter (rebind stream) id) (tick w) in
  let before := EvMssHandle (getProtocols (registrar (components this))) :: fired w
                ++ [EvLog "incoming stream opened on %s"]
                ++ EvPeerStoreMerge remotePeer protocol :: fired w1 in
  onIncomingStream_then mss this remotePeer c id w =
  match merge (peerStore (components this)) remotePeer [protocol] with
  | Ok _ =>
      let routed := _onStream this c id protocol (tick w1) in
      mkRun (before
             ++ (if metrics (components this) then [EvTrackProtocolStream id] else [])
             ++ trace routed)
            (tick w1) (result routed)
  | Err e => mkRun before (tick w1) (Err e)
  end.
Proof.
  intros Hh Hl Hc. cbv zeta.
  unfold onIncomingStream_then, update_stream.
  run_unfold. rewrite Hh, Hl. simpl. rewrite Hc. simpl.
  destruct (merge _ _ _) as [[]|e]; simpl.
  - destruct (metrics (components this)); simpl; rewrite !onStream_run;
      destruct (getHandler _ _) as [h|e]; simpl; try destruct (may_run c h); simpl;
      f_equal; simpl; rewrite ?app_nil_r, <- ?app_assoc; simpl; try reflexivity.
  - f_equal; simpl; by rewrite ?app_nil_r, <- ?app_assoc.
Qed.

End Incoming.



Section IncomingLimits.
Context (mss : MultistreamSelect) (this : DefaultUpgrader).

Lemma getStreams_tick opts c w :
  built_by mss this opts c → getStreams c (tick w) = getStreams c w.
Proof.
  intros Hb. apply built_by_inv in Hb as (_ & _ & -> & _).
  by destruct (cc_muxerFactory opts).
Qed.

Lemma silent_onIncomingStream_catch P id err :
  (∀ l, P (EvOnAbort l) = false) → (∀ m e, P (EvLogError m e) = false) →
  P (EvStreamClose id) = false →
  silent P (onIncomingStream_catch id err).
Proof.
  intros H1 H2 H3 w. rewrite onIncomingStream_catch_run.
  destruct (stream_closed id w); simpl; obs_simpl; by rewrite ?H2, ?H3.
Qed.

(** The limit is reached: the stream is aborted, no handler is called. *)
Lemma onIncomingStream_aborted opts c remotePeer id w stream lim :
  built_by mss this opts c →
  handle_stream mss id (getProtocols (registrar (components this))) = Ok stream →
  findIncomingStreamLimit (n_protocol stream) (registrar (components this)) = Ok lim →
  strict_eq_limit (countStreams (n_protocol stream) inbound (getStreams c w)) lim = true →
  let r := onIncomingStream mss this remotePeer (Some c) id w in
  (∃ err, name err = TooManyInboundProtocolStreamsError
          ∧ EvStreamAbort id err ∈ trace r)
  ∧ obs is_handler (trace r) = [].
Proof.
  intros Hb Hh Hl Hc r. subst r.
  unfold onIncomingStream, detached. rewrite trace_try_catch.
  destruct (onIncomingStream_then_abort mss this remotePeer c id w stream lim Hh Hl)
    as (err & Hname & ->).
  { by rewrite (getStreams_tick opts). }
  simpl. split.
  - exists err. split; [done|]. set_solver.
  - obs_simpl. by apply silent_onIncomingStream_catch.
Qed.

(** The limit is not reached: the stream is not aborted, its protocol is
    rebound, and it goes to the router, which calls the handler if it may
    run on the connection. *)
Lemma onIncomingStream_admitted opts c remotePeer id w stream lim :
  built_by mss this opts c →
  handle_stream mss id (getProtocols (registrar (components this))) = Ok stream →
  findIncomingStreamLimit (n_protocol stream) (registrar (components this)) = Ok lim →
  strict_eq_limit (countStreams (n_protocol stream) inbound (getStreams c w)) lim = false →
  let protocol := n_protocol stream in
  let r := onIncomingStream mss this remotePeer (Some c) id w in
  obs is_streamAbort (trace r) = []
  ∧ (is_Some (objects w !! id) → stream_protocol id (final r) = Some protocol)
  ∧ (∀ h, getHandler (registrar (components this)) protocol = Ok h →
          merge (peerStore (components this)) remotePeer [protocol] = Ok tt →
          (if may_run c h
           then EvHandler protocol id ∈ trace r
           else obs is_handler (trace r) = []
                ∧ EvLogError "error handling incoming stream id %s"
                    (mkError LimitedConnectionError
                       "Cannot open protocol stream on limited connection") ∈ trace r
                ∧ if stream_closed id w
                  then obs is_streamClose (trace r) = []
                  else EvStreamClose id ∈ trace r)).
Proof.
  intros Hb Hh Hl Hc protocol r. subst r.
  unfold onIncomingStream, detached.
  rewrite trace_try_catch, final_try_catch.
  rewrite (onIncomingStream_then_route mss this remotePeer c id w stream lim Hh Hl).
  2:{ by rewrite (getStreams_tick opts). }
  fold protocol. rewrite !onStream_run.
  split_and!.
  - destruct (merge _ _ _) as [[]|e]; simpl.
    + destruct (getHandler _ _) as [h|e]; simpl; [destruct (may_run c h); simpl|];
        try destruct (handler h id) as [[]|e]; simpl;
        destruct (metrics _); obs_simpl;
        try done; by apply silent_onIncomingStream_catch.
    + obs_simpl. by apply silent_onIncomingStream_catch.
  - intros Hid.
    assert (stream_protocol id
              (tick (set_objects (alter (rebind stream) id) (tick w))) = Some protocol)
      as Hp by by rewrite stream_protocol_tick, stream_protocol_rebind.
    destruct (merge _ _ _) as [[]|e]; simpl.
    + destruct (getHandler _ _) as [h|e]; simpl; [destruct (may_run c h); simpl|];
        try destruct (handler h id) as [[]|e]; simpl;
        by rewrite ?onIncomingStream_catch_protocol.
    + by rewrite onIncomingStream_catch_protocol.
  - intros h Hg Hm. rewrite Hm, Hg. simpl.
    destruct (may_run c h); simpl; [set_solver|].
    rewrite onIncomingStream_catch_run, stream_closed_tick, stream_closed_rebind,
      stream_closed_tick.
    destruct (stream_closed id w); simpl;
      (split_and!; [destruct (metrics _); by obs_simpl
                   |set_solver
                   |try (destruct (metrics _); by obs_simpl); try set_solver]).
Qed.

(** The limit is not reached: whether the handler is called. *)
Lemma onIncomingStream_delivery opts c remotePeer id w stream lim h :
  built_by mss this opts c →
  handle_stream mss id (getProtocols (registrar (components this))) = Ok stream →
  findIncomingStreamLimit (n_protocol stream) (registrar (components this)) = Ok lim →
  strict_eq_limit (countStreams (n_protocol stream) inbound (getStreams c w)) lim = false →
  getHandler (registrar (components this)) (n_protocol stream) = Ok h →
  let protocol := n_protocol stream in
  let r := onIncomingStream mss this remotePeer (Some c) id w in
  EvPeerStoreMerge remotePeer protocol ∈ trace r
  ∧ if is_ok (merge (peerStore (components this)) remotePeer [protocol]) && may_run c h
    then obs is_handler (trace r) = [EvHandler protocol id]
    else obs is_handler (trace r) = []
         ∧ (stream_closed id w = false → EvStreamClose id ∈ trace r).
Proof.
  intros Hb Hh Hl Hc Hg protocol r. subst r protocol.
  unfold onIncomingStream, detached.
  rewrite trace_try_catch.
  rewrite (onIncomingStream_then_route mss this remotePeer c id w stream lim Hh Hl).
  2:{ by rewrite (getStreams_tick opts). }
  rewrite !onStream_run, Hg.
  destruct (merge _ _ _) as [[]|e]; simpl.
  - destruct (may_run c h); simpl.
    + split; [set_solver|].
      destruct (handler h id) as [[]|e]; simpl;
        destruct (metrics _); obs_simpl; try done;
        by rewrite silent_onIncomingStream_catch.
    + split; [set_solver|].
      rewrite onIncomingStream_catch_run, stream_closed_tick, stream_closed_rebind,
        stream_closed_tick.
      split.
      * destruct (stream_closed id w); simpl; destruct (metrics _); by obs_simpl.
      * intros ->. simpl. set_solver.
  - split; [set_solver|].
    rewrite onIncomingStream_catch_run, stream_closed_tick, stream_closed_rebind,
      stream_closed_tick.
    split.
    + destruct (stream_closed id w); simpl; by obs_simpl.
    + intros ->. simpl. set_solver.
Qed.

(** C3 (as amended): an inbound stream on a connection built by
    [_createConnection] that has negotiated [protocol], whose inbound limit
    is [l].  If the connection already counts [l] inbound streams of the
    protocol, the stream is aborted with a
    [TooManyInboundProtocolStreamsError] and no handler is called.  If the
    count differs from [l] (so whenever it is below the limit) the stream is
    not aborted, its protocol is rebound and the protocol is merged into the
    peer store; the registered handler is then called, once, exactly when
    that merge resolves and the handler may run on the connection (the
    connection has no limits, or the handler has set
    [runOnLimitedConnection]); otherwise no handler is called and [close] is
    called on the stream, if it is still open. *)
Theorem inbound_stream_limit opts c remotePeer id w stream l :
  built_by mss this opts c →
  handle_stream mss id (getProtocols (registrar (components this))) = Ok stream →
  findIncomingStreamLimit (n_protocol stream) (registrar (components this))
  = Ok (Some l) →
  let protocol := n_protocol stream in
  let count := Z.of_nat (countStreams protocol inbound (getStreams c w)) in
  let r := onIncomingStream mss this remotePeer (Some c) id w in
  (count = l →
     (∃ err, name err = TooManyInboundProtocolStreamsError
             ∧ EvStreamAbort id err ∈ trace r)
     ∧ obs is_handler (trace r) = [])
  ∧ (count ≠ l →
     obs is_streamAbort (trace r) = []
     ∧ (is_Some (objects w !! id) → stream_protocol id (final r) = Some protocol)
     ∧ (∀ h, getHandler (registrar (components this)) protocol = Ok h →
             EvPeerStoreMerge remotePeer protocol ∈ trace r
             ∧ if is_ok (merge (peerStore (components this)) remotePeer [protocol])
                  && may_run c h
               then obs is_handler (trace r) = [EvHandler protocol id]
               else obs is_handler (trace r) = []
                    ∧ (stream_closed id w = false → EvStreamClose id ∈ trace r))).
Proof.
  intros Hb Hh Hl protocol count r. split.
  - intros Hc. eapply onIncomingStream_aborted; [done..|]. simpl. by apply Z.eqb_eq.
  - intros Hc.
    assert (strict_eq_limit (countStreams (n_protocol stream) inbound (getStreams c w))
              (Some l) = false) as Hne.
    { simpl. by apply Z.eqb_neq. }
    destruct (onIncomingStream_admitted opts c remotePeer id w stream (Some l) Hb Hh Hl Hne)
      as (Ha & Hp & _).
    split_and!; [done|done|].
    intros h Hg.
    exact (onIncomingStream_delivery opts c remotePeer id w stream (Some l) h
             Hb Hh Hl Hne Hg).
Qed.


(** C9: [findIncomingStreamLimit] returns the [maxInboundStreams] of the
    registered handler as it is, so [undefined] when the handler does not
    set it; it falls back to [DEFAULT_MAX_INBOUND_STREAMS] only when
    [getHandler] throws [UnhandledProtocolError].  An undefined limit is
    equal to no count: on a connection built by [_createConnection] an
    inbound stream for such a handler is never aborted for the number of
    streams, whatever the count, and is delivered to the handler (once the
    peer store has merged the protocol, if the handler may run on the
    connection). *)
Theorem unset_inbound_limit :
  (∀ registrar protocol h,
     getHandler registrar protocol = Ok h →
     findIncomingStreamLimit protocol registrar = Ok (maxInboundStreams (options h)))
  ∧ (∀ registrar protocol e,
       getHandler registrar protocol = Err e →
       findIncomingStreamLimit protocol registrar
       = if is_name UnhandledProtocolError e then Ok (Some DEFAULT_MAX_INBOUND_STREAMS)
         else Err e)
  ∧ (∀ streamCount, strict_eq_limit streamCount None = false)
  ∧ (∀ opts c remotePeer id w stream h,
       built_by mss this opts c →
       handle_stream mss id (getProtocols (registrar (components this))) = Ok stream →
       getHandler (registrar (components this)) (n_protocol stream) = Ok h →
       maxInboundStreams (options h) = None →
       let r := onIncomingStream mss this remotePeer (Some c) id w in
       obs is_streamAbort (trace r) = []
       ∧ (merge (peerStore (components this)) remotePeer [n_protocol stream] = Ok tt →
          may_run c h = true →
          EvHandler (n_protocol stream) id ∈ trace r)).
Proof.
  split_and!.
  - intros registrar protocol h Hg. unfold findIncomingStreamLimit. by rewrite Hg.
  - intros registrar protocol e Hg. unfold findIncomingStreamLimit. rewrite Hg.
    by destruct (is_name _ _).
  - done.
  - intros opts c remotePeer id w stream h Hb Hh Hg Hnone r.
    destruct (onIncomingStream_admitted opts c remotePeer id w stream None Hb Hh)
      as (Ha & _ & Hd); [|done|].
    { unfold findIncomingStreamLimit. by rewrite Hg, Hnone. }
    split; [done|]. intros Hm Hrun. specialize (Hd h Hg Hm). by rewrite Hrun in Hd.
Qed.

End IncomingLimits.


(** * C4: the limit of outbound streams *)

Lemma findOutgoingStreamLimit_options protocol registrar options options' :
  ns_maxOutboundStreams options' = ns_maxOutboundStreams options →
  findOutgoingStreamLimit protocol registrar options'
  = findOutgoingStreamLimit protocol registrar options.
Proof. intros H. unfold findOutgoingStreamLimit. by rewrite H. Qed.

Lemma countStreams_app protocol d l1 l2 :
  countStreams protocol d (l1 ++ l2)
  = countStreams protocol d l1 + countStreams protocol d l2.
Proof. unfold countStreams. by rewrite filter_app, length_app. Qed.

(** A stream the muxer has just opened carries no protocol, so it is not
    counted. *)
Lemma countStreams_opened protocol d d' w w' :
  objects w' = <[fresh_stream_id w := mkStream (fresh_stream_id w) d' None false (Ok tt)
                                               false false false]> (objects w) →
  muxerStreams w' = muxerStreams w ++ [fresh_stream_id w] →
  countStreams protocol d (muxer_streams w') = countStreams protocol d (muxer_streams w).
Proof.
  intros Ho Hm. unfold muxer_streams. rewrite Ho, Hm, omap_app, countStreams_app.
  simpl. rewrite lookup_insert_eq. simpl.
  assert (objects w !! fresh_stream_id w = None) as Hfresh.
  { unfold fresh_stream_id. apply not_elem_of_dom, is_fresh. }
  replace (countStreams protocol d [_]) with 0.
  2:{ unfold countStreams. rewrite filter_cons_False; [done|].
      simpl. unfold protocol_is. simpl. rewrite andb_false_r. done. }
  rewrite Nat.add_0_r. clear Ho Hm.
  induction (muxerStreams w) as [|i l IH]; [done|].
  unfold countStreams in *. simpl in *.
  destruct (decide (i = fresh_stream_id w)) as [->|Hne].
  - rewrite lookup_insert_eq, Hfresh.
    rewrite filter_cons_False; [exact IH|].
    simpl. unfold protocol_is. simpl. rewrite andb_false_r. done.
  - rewrite lookup_insert_ne by done.
    destruct (objects w !! i) as [s|]; [|exact IH].
    rewrite !filter_cons. case_decide; simpl; [f_equal|]; exact IH.
Qed.

Section Outgoing.
Context (mss : MultistreamSelect) (this : DefaultUpgrader).

(** C4: [findOutgoingStreamLimit] is the [maxOutboundStreams] of the
    registered handler if set, else [options.maxOutboundStreams] if set,
    else [DEFAULT_MAX_OUTBOUND_STREAMS].  When [newStream], on a connection
    built by [_createConnection] with a muxer, has opened a stream and
    negotiated [protocol], and the connection already counts at least that
    limit of outbound streams of the protocol, the new stream is aborted
    with a [TooManyOutboundProtocolStreamsError], which is thrown to the
    caller. *)
Theorem outbound_stream_limit opts c factory protocols streamOptions w stream l :
  built_by mss this opts c →
  cc_muxerFactory opts = Some factory →
  mux_newStream (createStreamMuxer factory (cc_direction opts)) = Ok tt →
  select_stream mss (fresh_stream_id w) protocols = Ok stream →
  findOutgoingStreamLimit (n_protocol stream) (registrar (components this)) streamOptions
  = Ok l →
  (l ≤ Z.of_nat (countStreams (n_protocol stream) outbound (getStreams c w)))%Z →
  let r := newStream c protocols streamOptions w in
  (∃ err, name err = TooManyOutboundProtocolStreamsError
          ∧ result r = Err err
          ∧ EvStreamAbort (fresh_stream_id w) err ∈ trace r)
  ∧ (∀ registrar protocol opt h,
       getHandler registrar protocol = Ok h →
       findOutgoingStreamLimit protocol registrar opt
       = Ok (match maxOutboundStreams (options h) with
             | Some n => n
             | None => match ns_maxOutboundStreams opt with
                       | Some n => n
                       | None => DEFAULT_MAX_OUTBOUND_STREAMS
                       end
             end))
  ∧ (∀ registrar protocol opt e,
       getHandler registrar protocol = Err e →
       is_name UnhandledProtocolError e = true →
       findOutgoingStreamLimit protocol registrar opt
       = Ok (match ns_maxOutboundStreams opt with
             | Some n => n
             | None => DEFAULT_MAX_OUTBOUND_STREAMS
             end)).
Proof.
  intros Hb Hf Hmux Hsel Hlim Hcount r. split_and!.
  - subst r. apply built_by_inv in Hb as (_ & _ & Hg & Hn).
    rewrite Hf in Hg, Hn. simpl in Hg, Hn. rewrite Hg in Hn. rewrite Hn, Hg in *.
    clear Hn Hg.
    unfold newStream_closure, muxer_newStream, stream_abort, update_stream,
      AbortSignal_timeout.
    run_unfold. rewrite Hmux. simpl.
    change (fresh_stream_id (tick w)) with (fresh_stream_id w).
    assert (∀ w', objects w' = <[fresh_stream_id w :=
                                   mkStream (fresh_stream_id w) outbound None false (Ok tt)
                                            false false false]> (objects w) →
                  muxerStreams w' = muxerStreams w ++ [fresh_stream_id w] →
                  (Z.of_nat (countStreams (n_protocol stream) outbound (muxer_streams w'))
                   >=? l)%Z = true) as Hge.
    { intros w' Ho Hm. rewrite (countStreams_opened _ _ outbound w w' Ho Hm).
      apply Z.geb_le. lia. }
    destruct (ns_signal streamOptions) as [sig|]; simpl; rewrite Hsel; simpl.
    + rewrite Hlim. simpl. rewrite Hge by done. simpl.
      unfold stream_closed. simpl. rewrite lookup_alter, decide_True, lookup_insert_eq by done.
      simpl. eexists. split_and!; [|reflexivity|set_solver]. done.
    + rewrite (findOutgoingStreamLimit_options _ _ streamOptions) by done.
      rewrite Hlim. simpl. rewrite Hge by done. simpl.
      unfold stream_closed. simpl. rewrite lookup_alter, decide_True, lookup_insert_eq by done.
      simpl. eexists. split_and!; [|reflexivity|set_solver]. done.
  - intros registrar protocol opt h Hg. unfold findOutgoingStreamLimit. rewrite Hg.
    by destruct (maxOutboundStreams _), (ns_maxOutboundStreams opt).
  - intros registrar protocol opt e Hg He. unfold findOutgoingStreamLimit.
    rewrite Hg, He. simpl. by destruct (ns_maxOutboundStreams opt).
Qed.

End Outgoing.


Lemma built_example protocol d limits :
  built_by (mss_selecting protocol) (example_upgrader true false)
    (example_connection_options d limits) (example_connection protocol d limits).
Proof. by exists empty_world. Qed.

(** C3, witness: the handler of [/echo/1.0.0] has [maxInboundStreams = 2];
    with two such streams installed, the third one is aborted and reaches
    no handler. *)
Lemma inbound_stream_limit_witness :
  let r := onIncomingStream (mss_selecting "/echo/1.0.0") (example_upgrader true false)
             "12D3KooWRemote" (Some (example_connection "/echo/1.0.0" inbound None))
             2 third_echo_stream in
  (∃ err, name err = TooManyInboundProtocolStreamsError
          ∧ EvStreamAbort 2 err ∈ trace r)
  ∧ obs is_handler (trace r) = [].
Proof.
  exact (proj1 (inbound_stream_limit (mss_selecting "/echo/1.0.0")
                  (example_upgrader true false)
                  (example_connection_options inbound None)
                  (example_connection "/echo/1.0.0" inbound None)
                  "12D3KooWRemote" 2 third_echo_stream
                  (mkNegotiated "/echo/1.0.0" false false None) 2%Z
                  (ex_intro _ empty_world eq_refl) eq_refl eq_refl)
               eq_refl).
Defined.

(** C3, counterexample: on a limited connection, the first inbound stream
    for [/echo/1.0.0] (count 0, limit 2), whose handler has not set
    [runOnLimitedConnection], has its protocol rebound but is not delivered
    to the handler: it is closed. *)
Lemma inbound_stream_below_limit_not_delivered :
  let c := example_connection "/echo/1.0.0" inbound (Some "bytes: 1024") in
  let w := final (muxer_open inbound empty_world) in
  let r := onIncomingStream (mss_selecting "/echo/1.0.0") (example_upgrader true false)
             "12D3KooWRemote" (Some c) 0 w in
  findIncomingStreamLimit "/echo/1.0.0" (registrar (components (example_upgrader true false)))
  = Ok (Some 2%Z)
  ∧ countStreams "/echo/1.0.0" inbound (getStreams c w) = 0
  ∧ stream_protocol 0 (final r) = Some "/echo/1.0.0"
  ∧ obs is_handler (trace r) = []
  ∧ obs delivered_or_aborted (trace r) = [EvStreamClose 0].
Proof. vm_compute. done. Qed.

(** The scenario of three inbound streams for a protocol limited to two:
    the first two reach the handler, the third is aborted. *)
Lemma three_inbound_streams :
  obs delivered_or_aborted
      (trace ((incoming "/echo/1.0.0" None;; incoming "/echo/1.0.0" None;;
               incoming "/echo/1.0.0" None) empty_world))
  = [EvHandler "/echo/1.0.0" 0; EvHandler "/echo/1.0.0" 1;
     EvStreamAbort 2 (mkError TooManyInboundProtocolStreamsError
                        ("Too many inbound protocol streams for protocol " +:+
                         dquote +:+ "/echo/1.0.0" +:+ dquote +:+ " - limit 2"))].
Proof. vm_compute. reflexivity. Qed.

(** C4, witness: the handler of [/echo/1.0.0] has [maxOutboundStreams = 1];
    with one such stream open, the next [newStream] aborts its stream and
    throws. *)
Lemma outbound_stream_limit_witness :
  let r := newStream (example_connection "/echo/1.0.0" outbound None)
             ["/echo/1.0.0"] no_options one_echo_stream_out in
  ∃ err, name err = TooManyOutboundProtocolStreamsError
         ∧ result r = Err err
         ∧ EvStreamAbort 1 err ∈ trace r.
Proof.
  exact (proj1 (outbound_stream_limit (mss_selecting "/echo/1.0.0")
                  (example_upgrader true false)
                  (example_connection_options outbound None)
                  (example_connection "/echo/1.0.0" outbound None)
                  yamux ["/echo/1.0.0"] no_options one_echo_stream_out
                  (mkNegotiated "/echo/1.0.0" false false None) 1%Z
                  (ex_intro _ empty_world eq_refl) eq_refl eq_refl eq_refl eq_refl
                  ltac:(vm_compute; discriminate))).
Defined.


(** The scenario of a limited connection: a stream for [/ping/1.0.0] is
    closed and reaches no handler, a stream for [/identify/1.0.0], whose
    handler has opted in, is delivered. *)
Lemma limited_connection_streams :
  obs delivered_or_aborted
      (trace ((incoming "/ping/1.0.0" (Some "bytes: 1024");;
               incoming "/identify/1.0.0" (Some "bytes: 1024")) empty_world))
  = [EvStreamClose 0; EvHandler "/identify/1.0.0" 1].
Proof. vm_compute. reflexivity. Qed.


(** * C10: a dial whose signal has fired during the upgrade *)

Lemma signal_aborted_removeEventListener s l w :
  signal_aborted s (final (removeEventListener s l w)) = signal_aborted s w.
Proof.
  unfold signal_aborted, removeEventListener, modify. simpl.
  rewrite list_lookup_alter, decide_True by done. by destruct (signals w !! s).
Qed.

Lemma bind_run_ok {A B} (m : M A) (k : A → M B) w t w' a :
  m w = mkRun t w' (Ok a) →
  (m ≫= k) w = match k a w' with mkRun t' w'' r => mkRun (t ++ t') w'' r end.
Proof. intros H. unfold mbind, M_bind, bind. by rewrite H. Qed.

(** A detached task whose errors are logged never throws. *)
Lemma detached_logged m msg w :
  result (detached m (λ err, emit (EvLogError msg err)) w) = Ok tt.
Proof. unfold detached, try_catch. by destruct (m w) as [t w' [[]|e]]. Qed.

Section Dial.
Context (multiaddrToNetConfig : Multiaddr → TCPDialOptions → NetConfig)
        (net_connect : NetConfig → SocketEvent)
        (toMultiaddrConnection : Socket → Multiaddr → MultiaddrConnection)
        (this : TCP).

(** C10: [dial] with [options.signal]; the socket connects, the outbound
    upgrade returns the connection [conn], and by then the signal has
    fired.  Then [dial] does not return [conn]: it calls [conn.close()],
    without awaiting it, and throws an [AbortError]. *)
Theorem dial_aborted_during_upgrade ma options w s t0 w0 socket t1 w2 conn :
  signal options = Some s →
  _connect multiaddrToNetConfig net_connect this ma (dial_defaults options) w
  = mkRun t0 w0 (Ok socket) →
  up_upgradeOutbound (upgrader options) (toMultiaddrConnection socket ma)
    (final (addEventListener s DialAbort w0)) = mkRun t1 w2 (Ok conn) →
  signal_aborted s w2 = true →
  let r := dial multiaddrToNetConfig net_connect toMultiaddrConnection this ma options w in
  let closing := detached (close conn)
                   (λ err, emit (EvLogError "Error closing conn after abort" err))
                   (final (removeEventListener s DialAbort w2)) in
  result r = Err new_AbortError
  ∧ trace r = t0 ++ [EvSocketOnError; EvLog "new outbound connection %s"] ++ t1
              ++ [EvLog "outbound connection %s upgraded"] ++ trace closing.
Proof.
  intros Hs Hc Hu Ha r closing. subst r closing.
  pose proof (signal_aborted_removeEventListener s DialAbort w2) as Hrm.
  rewrite Ha in Hrm.
  unfold dial. cbv zeta.
  change (signal (dial_defaults options)) with (signal options).
  change (upgrader (dial_defaults options)) with (upgrader options).
  unfold with_signal. rewrite Hs.
  erewrite (bind_run_ok (_connect _ _ _ _ _)) by exact Hc.
  erewrite (bind_run_ok (emit _)) by reflexivity.
  erewrite (bind_run_ok (addEventListener _ _)) by reflexivity.
  erewrite (bind_run_ok (emit _)) by reflexivity.
  erewrite (bind_run_ok (up_upgradeOutbound _ _)) by exact Hu.
  erewrite (bind_run_ok (emit _)) by reflexivity.
  erewrite (bind_run_ok (removeEventListener _ _)) by reflexivity.
  erewrite (bind_run_ok (gets _)) by reflexivity.
  cbn [from_option]. change (final (removeEventListener s DialAbort w2))
    with (set_signals (alter (λ s0, mkSignal (aborted s0) (reason s0) (fires_in s0)
            (filter (λ l', AbortListener_eqb DialAbort l' = false) (listeners s0))) s) w2)
    in Hrm |- *.
  rewrite Hrm. cbv iota.
  unfold mbind, M_bind, bind.
  match goal with
  | |- context [detached ?m (λ err, emit (EvLogError ?msg err)) ?w'] =>
      pose proof (detached_logged m msg w') as Hd;
      destruct (detached m _ w') as [tc wc rc]
  end.
  simpl in Hd. subst rc. simpl. split; [reflexivity|].
  by rewrite ?app_nil_r, <- ?app_assoc.
Qed.

End Dial.


(** C10, witness: the signal fires while the example upgrader upgrades the
    dialed connection; the upgrade still returns, and [dial] throws an
    [AbortError], having called [close] on the connection. *)
Lemma dial_aborted_during_upgrade_witness :
  let r := dial example_multiaddrToNetConfig example_net_connect
             example_toMultiaddrConnection (mkTCP false)
             (remoteAddr example_maConn) example_dial_options abort_during_upgrade in
  result r = Err new_AbortError
  ∧ EvOnAbort DialAbort ∈ trace r
  ∧ EvMaConnClose None ∈ trace r.
Proof.
  pose proof (λ t0 w0 socket t1 w2 conn H1 H2 H3,
              dial_aborted_during_upgrade example_multiaddrToNetConfig
                example_net_connect example_toMultiaddrConnection (mkTCP false)
                (remoteAddr example_maConn) example_dial_options abort_during_upgrade
                0 t0 w0 socket t1 w2 conn eq_refl H1 H2 H3) as H.
  edestruct H as [Hr Ht]; [reflexivity|reflexivity|reflexivity|].
  split; [exact Hr|]. clear H Hr Ht. vm_compute. split; set_solver.
Defined.

(** * Further properties of the upgrader and of the TCP transport *)

(** * The two directions of an upgrade *)

Section Directions.
Context (mss : MultistreamSelect) (peerIdFromString : string → Result PeerId)
        (this : DefaultUpgrader).

(** X1: the two directions of an upgrade keep to their side of the
    protocol.  [upgradeInbound] never selects a protocol (it handles the
    selections of the remote peer), never calls [secureOutbound] and
    consults no outbound method of the gater; [upgradeOutbound] never
    handles a selection, never calls [secureInbound], never asks the
    connection manager for admission nor tells it that an upgrade is over,
    and consults no inbound method of the gater. *)
Theorem upgrade_directions_apart maConn opts w :
  obs is_outbound_call (trace (upgradeInbound mss peerIdFromString this maConn opts w)) = []
  ∧ obs is_inbound_call (trace (upgradeOutbound mss peerIdFromString this maConn opts w)) = [].
Proof.
  split.
  - revert w. change (silent is_outbound_call
                        (upgradeInbound mss peerIdFromString this maConn opts)).
    unfold upgradeInbound. silent_tac.
  - revert w. change (silent is_inbound_call
                        (upgradeOutbound mss peerIdFromString this maConn opts)).
    unfold upgradeOutbound. silent_tac.
Qed.

Lemma upgradeOutbound_checked maConn opts :
  checked this maConn (outbound_checkpoints this maConn opts)
    (upgradeOutbound mss peerIdFromString this maConn opts).
Proof.
  unfold upgradeOutbound, outbound_checkpoints.
  eapply checked_bind; [| |reflexivity].
  { destruct (getPeerId (remoteAddr maConn)) as [idStr|].
    - apply checked_seq_silent; [silent_tac|intros remotePeerId].
      eapply checked_bind;
        [ apply checked_shouldBlockConnection
        | intros; apply checked_silent, silent_ret
        | by rewrite app_nil_r ].
    - apply checked_silent, silent_ret. }
  intros remotePeerId.
  apply checked_seq_silent; [silent_tac|intros _].
  apply checked_seq_silent; [silent_tac|intros _].
  apply checked_seq_silent; [silent_tac|intros protectedConn].
  eapply checked_bind;
    [ apply checked_try_catch; [|intros; silent_tac|]
    | intros [[[remotePeer cryptoProtocol] upgradedConn] muxerFactory];
      eapply checked_bind;
        [ apply checked_shouldBlockConnection
        | intros; apply checked_silent; silent_tac
        | by rewrite app_nil_r ]
    | reflexivity ].
  2:{ intros e w. run_unfold. by destruct (maConn_close maConn). }
  eapply checked_bind;
    [ | intros [[encryptedConn remotePeer] cryptoProtocol]; apply checked_silent; silent_tac
      | by rewrite app_nil_r ].
  destruct (is_true (opts ≫= skipEncryption)); simpl negb; cbv iota.
  { apply checked_silent; silent_tac. }
  apply checked_seq_silent; [unfold _encryptOutbound; silent_tac|intros encrypted].
  eapply checked_bind;
    [ apply checked_shouldBlockConnection
    | intros; apply checked_silent, silent_ret
    | by rewrite app_nil_r ].
Qed.

(** X2: an outbound upgrade goes through the gater methods
    [denyOutboundConnection], [denyOutboundEncryptedConnection],
    [denyOutboundUpgradedConnection] in this order, each at most once:
    every run goes through a prefix of [outbound_checkpoints], a run that
    returns a connection through all of it, and a method that denies is the
    last one consulted in its run, which throws.  The first method is
    consulted only when the address names a peer, the second only when
    encryption is not skipped, and each only if the gater has it. *)
Theorem upgradeOutbound_gating_order maConn opts w :
  let r := upgradeOutbound mss peerIdFromString this maConn opts w in
  checkpoints (trace r) `prefix_of` outbound_checkpoints this maConn opts
  ∧ (is_ok (result r) = true → checkpoints (trace r) = outbound_checkpoints this maConn opts)
  ∧ (∀ t1 e t2, trace r = t1 ++ e :: t2 → denies this maConn e = true →
       checkpoints t2 = [] ∧ is_ok (result r) = false).
Proof. apply upgradeOutbound_checked. Qed.

End Directions.

(** * Announcing the connection *)

Lemma opens_throw {A} e : opens (@throw A e).
Proof. done. Qed.

Lemma opens_bind {A B} (m : M A) (k : A → M B) :
  silent is_connection_open m → (∀ a, opens (k a)) → opens (m ≫= k).
Proof.
  intros Hm Hk w. rewrite trace_bind, result_bind, obs_app, Hm.
  destruct (result (m w)); [apply Hk|done].
Qed.

Lemma opens_try_finally {A} (m : M A) f :
  opens m → silent is_connection_open f → (∀ w, is_ok (result (f w)) = true) →
  opens (try_finally m f).
Proof.
  intros Hm Hf Hok w. rewrite trace_try_finally, result_try_finally, obs_app, Hf, Hm.
  specialize (Hok (final (m w))). destruct (result (f _)); [|done].
  by rewrite app_nil_r.
Qed.

Section Opening.
Context (mss : MultistreamSelect) (peerIdFromString : string → Result PeerId)
        (this : DefaultUpgrader).

Lemma opens_createConnection opts : opens (_createConnection mss this opts).
Proof.
  intros w. unfold _createConnection. run_unfold.
  by destruct (cc_muxerFactory opts).
Qed.

Lemma upgradeInbound_opens maConn opts :
  opens (upgradeInbound mss peerIdFromString this maConn opts).
Proof.
  unfold upgradeInbound.
  apply opens_bind; [silent_tac|intros [|]; simpl negb; cbv iota; [|apply opens_throw]].
  apply opens_bind; [silent_tac|intros signal].
  apply opens_bind; [silent_tac|intros _].
  apply opens_try_finally; [|silent_tac|done].
  apply opens_bind; [silent_tac|intros [|]; [apply opens_throw|]].
  apply opens_bind; [silent_tac|intros _].
  apply opens_bind; [silent_tac|intros _].
  apply opens_bind; [silent_tac|intros protectedConn].
  apply opens_bind; [silent_tac|intros [[[remotePeer cryptoProtocol] upgradedConn] muxerFactory]].
  apply opens_bind; [silent_tac|intros _].
  apply opens_bind; [silent_tac|intros _].
  apply opens_createConnection.
Qed.

Lemma upgradeOutbound_opens maConn opts :
  opens (upgradeOutbound mss peerIdFromString this maConn opts).
Proof.
  unfold upgradeOutbound.
  apply opens_bind; [silent_tac|intros remotePeerId].
  apply opens_bind; [silent_tac|intros _].
  apply opens_bind; [silent_tac|intros _].
  apply opens_bind; [silent_tac|intros protectedConn].
  apply opens_bind; [silent_tac|intros [[[remotePeer cryptoProtocol] upgradedConn] muxerFactory]].
  apply opens_bind; [silent_tac|intros _].
  apply opens_bind; [silent_tac|intros _].
  apply opens_createConnection.
Qed.

(** X3: an upgrade, inbound or outbound, dispatches [connection:open]
    exactly once when it returns a connection, and never when it throws. *)
Theorem connection_open_dispatched maConn opts w :
  let announced (r : Run Connection) :=
    obs is_connection_open (trace r)
    = if is_ok (result r) then [EvDispatch "connection:open"] else [] in
  announced (upgradeInbound mss peerIdFromString this maConn opts w)
  ∧ announced (upgradeOutbound mss peerIdFromString this maConn opts w).
Proof. split; [apply upgradeInbound_opens|apply upgradeOutbound_opens]. Qed.

(** * [maConn.close] in an outbound upgrade *)

Lemma silent_outbound_prelude P maConn opts :
  (∀ l, P (EvOnAbort l) = false) →
  (∀ t p c, P (EvGater t p c) = false) → P EvTrackMultiaddrConnection = false →
  (∀ m, P (EvLog m) = false) → P EvProtect = false →
  silent P (outbound_prelude peerIdFromString this maConn opts).
Proof.
  intros H1 H2 H3 H4 H5. unfold outbound_prelude.
  repeat (silent_step ||
          (progress unfold call_await, when, shouldBlockConnection) ||
          (apply silent_emit; by rewrite ?H2, ?H3, ?H4, ?H5)).
Qed.

(** X4: an outbound upgrade calls [maConn.close] at most once, and exactly
    when its [try] block (encryption, the gate after it, the muxer
    negotiation) has thrown, with the thrown error as the argument.  A
    failure before the block (the peer id of the address,
    [denyOutboundConnection], the protector) or after it
    ([denyOutboundUpgradedConnection]) leaves the connection unclosed. *)
Theorem upgradeOutbound_closes_once maConn opts w :
  obs is_maConnClose (trace (upgradeOutbound mss peerIdFromString this maConn opts w))
  = match outbound_prelude peerIdFromString this maConn opts w with
    | mkRun _ w1 (Ok (remotePeerId, protectedConn)) =>
        match result (outbound_negotiation mss this opts remotePeerId protectedConn w1) with
        | Ok _ => []
        | Err err => [EvMaConnClose (Some err)]
        end
    | mkRun _ _ (Err _) => []
    end.
Proof.
  rewrite upgradeOutbound_stages, trace_bind, obs_app.
  rewrite (silent_outbound_prelude is_maConnClose) by done.
  destruct (outbound_prelude _ _ _ _ w) as [t1 w1 [[remotePeerId protectedConn]|e]];
    simpl; [|done].
  unfold outbound_continue. rewrite trace_bind, trace_try_catch, result_try_catch, !obs_app.
  assert (silent is_maConnClose
            (outbound_negotiation mss this opts remotePeerId protectedConn)) as ->.
  { unfold outbound_negotiation. silent_tac. }
  destruct (result (outbound_negotiation _ _ _ _ _ _)) as [[[[rp cp] uc] mf]|err]; simpl.
  - assert (silent is_maConnClose
              (shouldBlockConnection this rp maConn denyOutboundUpgradedConnection;;
               emit (EvLog "successfully upgraded outbound connection");;
               _createConnection mss this
                 (mkCreateConnectionOptions cp outbound maConn uc rp mf
                    (opts ≫= opt_limits)))) as Hs by silent_tac.
    apply Hs.
  - run_unfold. destruct (maConn_close maConn) as [[]|e]; simpl;
      rewrite ?app_nil_r; unfold obs; simpl; fold (obs is_maConnClose (fired (final
        (outbound_negotiation mss this opts remotePeerId protectedConn w1))));
      by rewrite obs_fired.
Qed.

End Opening.

(** * [Map]s *)

Section JSMapFacts.
Context {V : Type}.
Implicit Types m : list (string * V).

Lemma map_get_set k k' (v : V) m :
  map_get k' (map_set k v m) = if String.eqb k' k then Some v else map_get k' m.
Proof.
  induction m as [|[k0 v0] m IH]; simpl.
  - done.
  - destruct (String.eqb k k0) eqn:E; simpl.
    + apply String.eqb_eq in E as ->. by destruct (String.eqb k' k0).
    + rewrite IH. destruct (String.eqb k' k0) eqn:E'; [|done].
      apply String.eqb_eq in E' as ->. rewrite String.eqb_sym in E. by rewrite E.
Qed.

Lemma map_keys_set k (v : V) m :
  map_keys (map_set k v m) = if decide (k ∈ map_keys m) then map_keys m else map_keys m ++ [k].
Proof.
  unfold map_keys. induction m as [|[k0 v0] m IH].
  - done.
  - cbn [map_set]. destruct (String.eqb k k0) eqn:E.
    + apply String.eqb_eq in E as ->. rewrite !fmap_cons. cbn [fst].
      by rewrite decide_True by apply list_elem_of_here.
    + apply String.eqb_neq in E. rewrite !fmap_cons, IH. cbn [fst].
      destruct (decide (k ∈ fst <$> m)) as [Hin|Hn].
      * by rewrite decide_True by by apply list_elem_of_further.
      * rewrite decide_False; [done|]. by intros [?|?]%elem_of_cons.
Qed.

Lemma map_get_keys k m : is_Some (map_get k m) ↔ k ∈ map_keys m.
Proof.
  unfold map_keys. induction m as [|[k0 v0] m IH]; simpl.
  - split; [by intros [? [=]]|by intros ?%elem_of_nil].
  - destruct (String.eqb k k0) eqn:E.
    + apply String.eqb_eq in E as ->. split; [intros _; apply list_elem_of_here|eauto].
    + apply String.eqb_neq in E. rewrite IH, elem_of_cons. tauto.
Qed.

End JSMapFacts.

Lemma map_keys_foldl {E} (key : E → string) (l : list E) (m : list (string * E)) :
  map_keys (foldl (λ m e, map_set (key e) e m) m l)
  = map_keys m ++ filter (λ k, k ∉ map_keys m) (first_occurrences (key <$> l)).
Proof.
  revert m. induction l as [|e l IH]; intros m; simpl.
  - by rewrite filter_nil, app_nil_r.
  - rewrite IH, map_keys_set. destruct (decide (key e ∈ map_keys m)) as [Hin|Hn].
    + rewrite filter_cons_False by (intros ?; done). f_equal.
      rewrite list_filter_filter. apply list_filter_iff. intros k.
      split; [|tauto]. intros Hk. split; [done|]. by intros ->.
    + rewrite filter_cons_True by done. rewrite <- app_assoc. simpl. do 2 f_equal.
      rewrite list_filter_filter. apply list_filter_iff. intros k.
      rewrite elem_of_app, list_elem_of_singleton. tauto.
Qed.


Lemma map_get_foldl {E} (key : E → string) (l : list E) (m : list (string * E)) p :
  map_get p (foldl (λ m e, map_set (key e) e m) m l)
  = match last (filter (λ e, key e = p) l) with
    | Some e => Some e
    | None => map_get p m
    end.
Proof.
  revert m. induction l as [|e l IH]; intros m; simpl; [done|].
  rewrite IH, map_get_set, filter_cons.
  destruct (decide (key e = p)) as [<-|Hne].
  - rewrite String.eqb_refl, last_cons. by destruct (last _).
  - destruct (String.eqb p (key e)) eqn:Heq; [|done].
    apply String.eqb_eq in Heq. congruence.
Qed.

Lemma first_occurrences_filter_nil (ks : list string) :
  filter (λ k, k ∉ @nil string) ks = ks.
Proof.
  induction ks as [|k ks IH]; [done|].
  rewrite filter_cons_True by apply not_elem_of_nil. by rewrite IH.
Qed.

(** X5: the constructor keys the encrypters and the muxers by protocol in
    two [Map]s.  The protocols are listed, and so offered to the remote
    peer, in the order of their first occurrence in the configuration, each
    once; when two entries share a protocol, the later one is the one
    used. *)
Theorem newDefaultUpgrader_maps components init :
  let this := newDefaultUpgrader components init in
  (map_keys (connectionEncrypters this)
   = first_occurrences (enc_protocol <$> init_connectionEncrypters init)
   ∧ ∀ protocol,
       map_get protocol (connectionEncrypters this)
       = last (filter (λ encrypter, enc_protocol encrypter = protocol)
                      (init_connectionEncrypters init)))
  ∧ (map_keys (streamMuxers this)
     = first_occurrences (mf_protocol <$> init_streamMuxers init)
     ∧ ∀ protocol,
         map_get protocol (streamMuxers this)
         = last (filter (λ muxer, mf_protocol muxer = protocol) (init_streamMuxers init))).
Proof.
  unfold newDefaultUpgrader. simpl. split_and!.
  - by rewrite map_keys_foldl, first_occurrences_filter_nil.
  - intros p. rewrite (map_get_foldl enc_protocol). by destruct (last _).
  - by rewrite map_keys_foldl, first_occurrences_filter_nil.
  - intros p. rewrite (map_get_foldl mf_protocol). by destruct (last _).
Qed.

(** * The encryption stage and the muxer negotiation *)

Section Stages.
Context (mss : MultistreamSelect) (this : DefaultUpgrader).

(** X6: [_encryptInbound] and [_encryptOutbound] return only what a
    configured encrypter produced: the negotiated protocol names an
    encrypter of the upgrader, whose [secureInbound] (resp.
    [secureOutbound]) resolved to the connection and the remote peer that
    are returned.  Every failure (of the negotiation, a protocol without
    encrypter, of the handshake) is logged and thrown as an
    [EncryptionFailedError] that carries the message of its cause. *)
Theorem encryption_stage connection remotePeer w :
  match result (_encryptInbound mss this connection w) with
  | Ok r =>
      ∃ stream encrypter secured,
        handle mss connection (map_keys (connectionEncrypters this))
        = Ok (stream, cr_protocol r)
        ∧ map_get (cr_protocol r) (connectionEncrypters this) = Some encrypter
        ∧ secureInbound encrypter stream = Ok secured
        ∧ cr_conn r = conn secured ∧ cr_remotePeer r = sc_remotePeer secured
  | Err err =>
      name err = EncryptionFailedError
      ∧ ∃ cause, err = mkError EncryptionFailedError (message cause)
                 ∧ EvLogError "encrypting inbound connection failed" cause
                   ∈ trace (_encryptInbound mss this connection w)
  end
  ∧ match result (_encryptOutbound mss this connection remotePeer w) with
    | Ok r =>
        ∃ stream encrypter secured,
          select mss connection (map_keys (connectionEncrypters this))
          = Ok (stream, cr_protocol r)
          ∧ map_get (cr_protocol r) (connectionEncrypters this) = Some encrypter
          ∧ secureOutbound encrypter stream remotePeer = Ok secured
          ∧ cr_conn r = conn secured ∧ cr_remotePeer r = sc_remotePeer secured
    | Err err =>
        name err = EncryptionFailedError
        ∧ ∃ cause, err = mkError EncryptionFailedError (message cause)
                   ∧ EvLogError "encrypting outbound connection to %p failed" cause
                     ∈ trace (_encryptOutbound mss this connection remotePeer w)
    end.
Proof.
  split.
  - unfold _encryptInbound. run_unfold.
    destruct (handle mss connection _) as [[stream protocol]|e] eqn:Hh; simpl.
    + destruct (map_get protocol _) as [encrypter|] eqn:Hg; simpl.
      * destruct (secureInbound encrypter stream) as [secured|e] eqn:Hs; simpl.
        -- exists stream, encrypter, secured. by rewrite Hs.
        -- split; [done|]. exists e. split; [done|]. set_solver.
      * split; [done|]. eexists (mkError GenericError _). split; [done|]. set_solver.
    + split; [done|]. exists e. split; [done|]. set_solver.
  - unfold _encryptOutbound. run_unfold.
    destruct (select mss connection _) as [[stream protocol]|e] eqn:Hh; simpl.
    + destruct (map_get protocol _) as [encrypter|] eqn:Hg; simpl.
      * destruct (secureOutbound encrypter stream remotePeer) as [secured|e] eqn:Hs; simpl.
        -- exists stream, encrypter, secured. by rewrite Hs.
        -- split; [done|]. exists e. split; [done|]. set_solver.
      * split; [done|]. eexists (mkError GenericError _). split; [done|]. set_solver.
    + split; [done|]. exists e. split; [done|]. set_solver.
Qed.

(** X7: [_multiplexInbound] and [_multiplexOutbound] return the stream of
    the negotiation together with the factory registered for the negotiated
    protocol, which exists whenever that protocol is one of those offered;
    a negotiated protocol that is not registered is no error, the factory
    is then undefined.  A failed negotiation is thrown as a
    [MuxerUnavailableError] whose message is [String(err)] of the cause:
    its name and its message with a colon between them, the name alone
    when the message is empty. *)
Theorem muxer_negotiation connection muxers w :
  let negotiated (answer : Result (MultiaddrConnection * string))
                 (r : Run (MultiaddrConnection * option StreamMuxerFactory)) :=
    match answer with
    | Ok (stream, protocol) =>
        result r = Ok (stream, map_get protocol muxers)
        ∧ (protocol ∈ map_keys muxers → is_Some (map_get protocol muxers))
    | Err cause =>
        result r = Err (mkError MuxerUnavailableError (String_of_error cause))
    end in
  negotiated (handle mss connection (map_keys muxers))
             (_multiplexInbound mss connection muxers w)
  ∧ negotiated (select mss connection (map_keys muxers))
               (_multiplexOutbound mss connection muxers w).
Proof.
  split.
  - unfold _multiplexInbound. run_unfold.
    destruct (handle mss connection _) as [[stream protocol]|e]; simpl; [|done].
    split; [done|]. apply map_get_keys.
  - unfold _multiplexOutbound. run_unfold.
    destruct (select mss connection _) as [[stream protocol]|e]; simpl; [|done].
    split; [done|]. apply map_get_keys.
Qed.

End Stages.

(** * The connection an upgrade returns *)

Section Returned.
Context (mss : MultistreamSelect) (peerIdFromString : string → Result PeerId)
        (this : DefaultUpgrader).

Lemma returns_encryptInbound maConn connection :
  returns_with (λ r, secured_by peerIdFromString this inbound maConn
                       (cr_protocol r) (cr_remotePeer r))
               (_encryptInbound mss this connection).
Proof.
  intros w r. unfold _encryptInbound. run_unfold.
  destruct (handle mss connection _) as [[stream protocol]|e]; simpl; [|done].
  destruct (map_get protocol _) as [encrypter|] eqn:Hg; simpl; [|done].
  destruct (secureInbound encrypter stream) as [secured|e] eqn:Hs; simpl; [|done].
  intros [= <-]. by exists encrypter, stream, secured.
Qed.

Lemma returns_encryptOutbound maConn connection :
  returns_with (λ r, secured_by peerIdFromString this outbound maConn
                       (cr_protocol r) (cr_remotePeer r))
               (_encryptOutbound mss this connection (dialed_peer peerIdFromString maConn)).
Proof.
  intros w r. unfold _encryptOutbound. run_unfold.
  destruct (select mss connection _) as [[stream protocol]|e]; simpl; [|done].
  destruct (map_get protocol _) as [encrypter|] eqn:Hg; simpl; [|done].
  destruct (secureOutbound encrypter stream _) as [secured|e] eqn:Hs; simpl; [|done].
  intros [= <-]. by exists encrypter, stream, secured.
Qed.

Lemma returns_multiplexInbound connection muxers :
  returns_with (λ '(stream, muxerFactory), ∃ protocol, muxerFactory = map_get protocol muxers)
               (_multiplexInbound mss connection muxers).
Proof.
  intros w [stream f]. unfold _multiplexInbound. run_unfold.
  destruct (handle mss connection _) as [[stream' protocol]|e]; simpl; [|done].
  intros [= <- <-]. by exists protocol.
Qed.

Lemma returns_multiplexOutbound connection muxers :
  returns_with (λ '(stream, muxerFactory), ∃ protocol, muxerFactory = map_get protocol muxers)
               (_multiplexOutbound mss connection muxers).
Proof.
  intros w [stream f]. unfold _multiplexOutbound. run_unfold.
  destruct (select mss connection _) as [[stream' protocol]|e]; simpl; [|done].
  intros [= <- <-]. by exists protocol.
Qed.

Lemma returns_multiplex_stage multiplex progress opts protectedConn encryptedConn :
  (∀ connection,
     returns_with (λ '(stream, muxerFactory),
                     ∃ protocol, muxerFactory = map_get protocol (streamMuxers this))
                  (multiplex connection (streamMuxers this))) →
  returns_with (λ '(upgradedConn, muxerFactory), muxer_chosen this opts muxerFactory)
               (multiplex_stage this multiplex progress opts protectedConn encryptedConn).
Proof.
  intros Hm. unfold multiplex_stage, muxer_chosen.
  destruct (opts ≫= opt_muxerFactory) as [factory|]; [by apply returns_ret|].
  destruct (bool_decide _); [|by apply returns_ret].
  apply returns_seq; intros _. apply Hm.
Qed.

(** What [upgradeInbound] hands to [_createConnection]. *)
Lemma upgradeInbound_creates maConn opts (Φ : Connection → Prop) :
  (∀ cryptoProtocol upgradedConn remotePeer muxerFactory,
     (is_true (opts ≫= skipEncryption) = false →
      secured_by peerIdFromString this inbound maConn cryptoProtocol remotePeer) →
     muxer_chosen this opts muxerFactory →
     returns_with Φ
       (_createConnection mss this
          (mkCreateConnectionOptions cryptoProtocol inbound maConn upgradedConn
             remotePeer muxerFactory (opts ≫= opt_limits)))) →
  returns_with Φ (upgradeInbound mss peerIdFromString this maConn opts).
Proof.
  intros HΦ. unfold upgradeInbound.
  apply returns_seq; intros [|]; [|apply returns_throw]. simpl negb. cbv iota.
  apply returns_seq; intros signal.
  apply returns_seq; intros _.
  apply returns_try_finally.
  apply returns_seq; intros [|]; [apply returns_throw|].
  apply returns_seq; intros _.
  apply returns_seq; intros _.
  apply returns_seq; intros protectedConn.
  eapply (returns_bind (λ '(remotePeer, cryptoProtocol, upgradedConn, muxerFactory),
            (is_true (opts ≫= skipEncryption) = false →
             secured_by peerIdFromString this inbound maConn cryptoProtocol remotePeer)
            ∧ muxer_chosen this opts muxerFactory)).
  - apply returns_try_catch; [|intros; apply returns_seq; intros; apply returns_throw].
    eapply (returns_bind (λ '(encryptedConn, remotePeer, cryptoProtocol),
              is_true (opts ≫= skipEncryption) = false →
              secured_by peerIdFromString this inbound maConn cryptoProtocol remotePeer)).
    + destruct (is_true (opts ≫= skipEncryption)); simpl negb; cbv iota.
      * destruct (getPeerId (remoteAddr maConn)); [|apply returns_throw].
        apply returns_seq; intros remotePeerId. by apply returns_ret.
      * apply returns_seq; intros _.
        eapply returns_bind; [apply (returns_encryptInbound maConn)|].
        intros encrypted Hs. apply returns_seq; intros _. by apply returns_ret.
    + intros [[encryptedConn remotePeer] cryptoProtocol] Hs.
      eapply returns_bind;
        [apply returns_multiplex_stage; intros; apply returns_multiplexInbound|].
      intros [upgradedConn muxerFactory] Hm. by apply returns_ret.
  - intros [[[remotePeer cryptoProtocol] upgradedConn] muxerFactory] [Hs Hm].
    apply returns_seq; intros _.
    apply returns_seq; intros _.
    by apply HΦ.
Qed.

(** What [upgradeOutbound] hands to [_createConnection]. *)
Lemma upgradeOutbound_creates maConn opts (Φ : Connection → Prop) :
  (∀ cryptoProtocol upgradedConn remotePeer muxerFactory,
     (is_true (opts ≫= skipEncryption) = false →
      secured_by peerIdFromString this outbound maConn cryptoProtocol remotePeer) →
     muxer_chosen this opts muxerFactory →
     returns_with Φ
       (_createConnection mss this
          (mkCreateConnectionOptions cryptoProtocol outbound maConn upgradedConn
             remotePeer muxerFactory (opts ≫= opt_limits)))) →
  returns_with Φ (upgradeOutbound mss peerIdFromString this maConn opts).
Proof.
  intros HΦ. unfold upgradeOutbound.
  eapply (returns_bind (λ remotePeerId, remotePeerId = dialed_peer peerIdFromString maConn)).
  { unfold dialed_peer. destruct (getPeerId (remoteAddr maConn)) as [idStr|];
      [|by apply returns_ret].
    eapply (returns_bind (λ remotePeerId, peerIdFromString idStr = Ok remotePeerId));
      [by apply returns_settle|].
    intros remotePeerId ->. apply returns_seq; intros _. by apply returns_ret. }
  intros remotePeerId ->.
  apply returns_seq; intros _.
  apply returns_seq; intros _.
  apply returns_seq; intros protectedConn.
  eapply (returns_bind (λ '(remotePeer, cryptoProtocol, upgradedConn, muxerFactory),
            (is_true (opts ≫= skipEncryption) = false →
             secured_by peerIdFromString this outbound maConn cryptoProtocol remotePeer)
            ∧ muxer_chosen this opts muxerFactory)).
  - apply returns_try_catch;
      [|intros; apply returns_seq; intros; apply returns_seq; intros; apply returns_throw].
    eapply (returns_bind (λ '(encryptedConn, remotePeer, cryptoProtocol),
              is_true (opts ≫= skipEncryption) = false →
              secured_by peerIdFromString this outbound maConn cryptoProtocol remotePeer)).
    + destruct (is_true (opts ≫= skipEncryption)); simpl negb; cbv iota.
      * destruct (dialed_peer _ _); [|apply returns_throw]. by apply returns_ret.
      * eapply returns_bind; [apply (returns_encryptOutbound maConn)|].
        intros encrypted Hs. apply returns_seq; intros _. by apply returns_ret.
    + intros [[encryptedConn remotePeer] cryptoProtocol] Hs.
      eapply returns_bind;
        [apply returns_multiplex_stage; intros; apply returns_multiplexOutbound|].
      intros [upgradedConn muxerFactory] Hm. by apply returns_ret.
  - intros [[[remotePeer cryptoProtocol] upgradedConn] muxerFactory] [Hs Hm].
    apply returns_seq; intros _.
    apply returns_seq; intros _.
    by apply HΦ.
Qed.

(** The connection [_createConnection] returns for [opts]. *)
Lemma createConnection_returns opts w c :
  result (_createConnection mss this opts w) = Ok c →
  c_direction c = cc_direction opts
  ∧ c_remoteAddr c = remoteAddr (cc_maConn opts)
  ∧ status c = "open"
  ∧ limits c = cc_limits opts
  ∧ encryption c = cc_cryptoProtocol opts
  ∧ c_remotePeer c = cc_remotePeer opts
  ∧ multiplexer c
    = (λ f, mux_protocol (createStreamMuxer f (cc_direction opts))) <$> cc_muxerFactory opts.
Proof.
  unfold _createConnection. run_unfold.
  destruct (cc_muxerFactory opts); simpl; by intros [= <-].
Qed.

(** X8: the connection an upgrade returns has the direction of the upgrade,
    the remote address of [maConn], the status [open] and the [limits] of
    the options.  Unless encryption was skipped, its [encryption] names a
    configured encrypter and its [remotePeer] is the peer the handshake of
    that encrypter reported; the handshake of an outbound upgrade was given
    the peer id of the dialed address. *)
Theorem upgraded_connection maConn opts w :
  let upgraded (d : Direction) (r : Run Connection) :=
    match result r with
    | Ok c =>
        c_direction c = d
        ∧ c_remoteAddr c = remoteAddr maConn
        ∧ status c = "open"
        ∧ limits c = opts ≫= opt_limits
        ∧ (is_true (opts ≫= skipEncryption) = false →
           secured_by peerIdFromString this d maConn (encryption c) (c_remotePeer c))
    | Err _ => True
    end in
  upgraded inbound (upgradeInbound mss peerIdFromString this maConn opts w)
  ∧ upgraded outbound (upgradeOutbound mss peerIdFromString this maConn opts w).
Proof.
  split.
  - destruct (result (upgradeInbound _ _ _ _ _ _)) as [c|e] eqn:Hr; [|done].
    revert w c Hr. apply upgradeInbound_creates.
    intros cryptoProtocol upgradedConn remotePeer muxerFactory Hs _ w c Hc.
    apply createConnection_returns in Hc as (-> & -> & -> & -> & -> & -> & _). done.
  - destruct (result (upgradeOutbound _ _ _ _ _ _)) as [c|e] eqn:Hr; [|done].
    revert w c Hr. apply upgradeOutbound_creates.
    intros cryptoProtocol upgradedConn remotePeer muxerFactory Hs _ w c Hc.
    apply createConnection_returns in Hc as (-> & -> & -> & -> & -> & -> & _). done.
Qed.

(** X9: a muxer factory given in the options takes precedence: no muxer is
    negotiated, and a connection that is returned is multiplexed by the
    muxer of that factory.  Without the option, an upgrader that is
    configured with no muxer negotiates none and returns a connection
    without multiplexer, on which [newStream] throws
    [MuxerUnavailableError] and [getStreams()] is empty. *)
Theorem upgraded_connection_muxer maConn opts w d :
  let r := match d with
           | inbound => upgradeInbound mss peerIdFromString this maConn opts w
           | outbound => upgradeOutbound mss peerIdFromString this maConn opts w
           end in
  match opts ≫= opt_muxerFactory with
  | Some factory =>
      obs is_muxer_negotiation (trace r) = []
      ∧ ∀ c, result r = Ok c →
             multiplexer c = Some (mux_protocol (createStreamMuxer factory d))
  | None =>
      streamMuxers this = [] →
      obs is_muxer_negotiation (trace r) = []
      ∧ ∀ c, result r = Ok c →
             multiplexer c = None
             ∧ (∀ protocols options w',
                  newStream c protocols options w'
                  = mkRun [] w' (Err (mkError MuxerUnavailableError
                                        "Connection is not multiplexed")))
             ∧ ∀ w', getStreams c w' = []
  end.
Proof.
  intros r.
  assert (∀ c, result r = Ok c →
               ∃ cryptoProtocol upgradedConn remotePeer muxerFactory,
                 muxer_chosen this opts muxerFactory
                 ∧ built_by mss this
                     (mkCreateConnectionOptions cryptoProtocol d maConn upgradedConn
                        remotePeer muxerFactory (opts ≫= opt_limits)) c) as Hbuilt.
  { subst r. destruct d; intros c Hc; revert w c Hc.
    - apply upgradeInbound_creates. intros cp uc rp mf _ Hm w c Hc.
      exists cp, uc, rp, mf. split; [done|]. by exists w.
    - apply upgradeOutbound_creates. intros cp uc rp mf _ Hm w c Hc.
      exists cp, uc, rp, mf. split; [done|]. by exists w. }
  assert (opts ≫= opt_muxerFactory ≠ None ∨ streamMuxers this = [] →
          obs is_muxer_negotiation (trace r) = []) as Hsilent.
  { intros Hcase. clear Hbuilt. subst r.
    assert (∀ multiplex progress pc ec,
              silent is_muxer_negotiation
                (multiplex_stage this multiplex progress opts pc ec)) as Hstage.
    { intros multiplex progress pc ec. unfold multiplex_stage.
      destruct (opts ≫= opt_muxerFactory); [apply silent_ret; done|].
      destruct Hcase as [?| ->]; [done|]. simpl. apply silent_ret; done. }
    destruct d.
    - revert w. change (silent is_muxer_negotiation
                          (upgradeInbound mss peerIdFromString this maConn opts)).
      unfold upgradeInbound.
      repeat (apply Hstage || silent_step ||
              (progress unfold call_await, call, when, addEventListener,
                 removeEventListener, shouldBlockConnection, _encryptInbound,
                 _createConnection)).
    - revert w. change (silent is_muxer_negotiation
                          (upgradeOutbound mss peerIdFromString this maConn opts)).
      unfold upgradeOutbound.
      repeat (apply Hstage || silent_step ||
              (progress unfold call_await, call, when, addEventListener,
                 removeEventListener, shouldBlockConnection, _encryptOutbound,
                 _createConnection)). }
  destruct (opts ≫= opt_muxerFactory) as [factory|] eqn:Hopt.
  - split; [apply Hsilent; by left|].
    intros c Hc. destruct (Hbuilt c Hc) as (cp & uc & rp & mf & Hm & Hb).
    unfold muxer_chosen in Hm. rewrite Hopt in Hm. subst mf.
    apply built_by_inv in Hb as (-> & _). done.
  - intros Hnone. split; [apply Hsilent; by right|].
    intros c Hc. destruct (Hbuilt c Hc) as (cp & uc & rp & mf & Hm & Hb).
    unfold muxer_chosen in Hm. rewrite Hopt, Hnone in Hm. simpl in Hm. subst mf.
    apply built_by_inv in Hb as (-> & _ & -> & ->). done.
Qed.

End Returned.

(** * The order of the stages of an upgrade *)

Lemma stages_app t1 t2 : stages (t1 ++ t2) = stages t1 ++ stages t2.
Proof. apply omap_app. Qed.

Lemma stages_obs t : obs is_stage t = [] → stages t = [].
Proof.
  unfold obs, stages, is_stage. induction t as [|e t IH]; [done|].
  simpl. destruct (stage_of e); [done|]. auto.
Qed.

Lemma staged_silent {A} (m : M A) : silent is_stage m → staged [] (λ _, []) m.
Proof. intros Hs w. rewrite stages_obs by apply Hs. done. Qed.

Lemma staged_bind {A B} (m : M A) (k : A → M B) l1 l2 f :
  staged l1 (λ _, l1) m → (∀ a, staged l2 f (k a)) →
  staged (l1 ++ l2) (λ b, l1 ++ f b) (m ≫= k).
Proof.
  intros Hm Hk w. destruct (Hm w) as [S1 O1].
  rewrite trace_bind, result_bind, stages_app.
  destruct (result (m w)) as [a|e] eqn:Hr.
  - destruct (Hk a (final (m w))) as [S2 O2]. split.
    + by apply sublist_app.
    + intros b Hb. by rewrite (O1 a), (O2 b).
  - split; [|done]. simpl. rewrite app_nil_r. by apply sublist_inserts_r.
Qed.

Lemma staged_seq {A B} (m : M A) (k : A → M B) l f :
  silent is_stage m → (∀ a, staged l f (k a)) → staged l f (m ≫= k).
Proof.
  intros Hm Hk. apply (staged_bind m k [] l f); [by apply staged_silent|done].
Qed.

Lemma staged_throw {A} l f e : staged l f (@throw A e).
Proof. intros w. split; [apply sublist_nil_l|done]. Qed.

Lemma staged_try_catch {A} (m : M A) h l f :
  staged l f m → (∀ e, silent is_stage (h e)) → (∀ e w, is_ok (result (h e w)) = false) →
  staged l f (try_catch m h).
Proof.
  intros Hm Hs Hh w. destruct (Hm w) as [S1 O1].
  rewrite trace_try_catch, result_try_catch, stages_app.
  destruct (result (m w)) as [a|e] eqn:Hr.
  - by rewrite app_nil_r.
  - rewrite (stages_obs (trace (h _ _))), app_nil_r by apply Hs.
    split; [done|]. intros a Ha. specialize (Hh e (final (m w))). by rewrite Ha in Hh.
Qed.

Lemma staged_try_finally {A} (m : M A) g l f :
  staged l f m → silent is_stage g → staged l f (try_finally m g).
Proof.
  intros Hm Hs w. destruct (Hm w) as [S1 O1].
  rewrite trace_try_finally, result_try_finally, stages_app.
  rewrite (stages_obs (trace (g _))), app_nil_r by apply Hs.
  split; [done|]. intros a. destruct (result (g _)); [apply O1|done].
Qed.

Lemma staged_weaken {A} (m : M A) l l' f f' :
  staged l f m → l `sublist_of` l' → (∀ a, f a = f' a) → staged l' f' m.
Proof.
  intros Hm Hl Hf w. destruct (Hm w) as [S1 O1]. split.
  - by etrans.
  - intros a Ha. rewrite <- Hf. by apply O1.
Qed.

Lemma staged_then {A B} (m : M A) (k : A → M B) l :
  staged l (λ _, l) m → (∀ a, silent is_stage (k a)) → staged l (λ _, l) (m ≫= k).
Proof.
  intros Hm Hk.
  apply (staged_weaken _ (l ++ []) _ (λ _, l ++ [])); [|by rewrite app_nil_r|].
  - apply staged_bind; [done|]. intros a. by apply staged_silent.
  - intros _. by rewrite app_nil_r.
Qed.

Lemma staged_call_await {A} e s (o : Result A) :
  stage_of e = Some s → staged [s] (λ _, [s]) (call_await e o).
Proof.
  intros He w. rewrite call_await_run. unfold stages. simpl. rewrite He.
  fold (stages (fired w)). rewrite stages_obs by by apply obs_fired. done.
Qed.

Section Pipeline.
Context (mss : MultistreamSelect) (peerIdFromString : string → Result PeerId)
        (this : DefaultUpgrader).

Lemma staged_createConnection opts :
  staged (creating_stages true)
         (λ c, creating_stages (bool_decide (is_Some (multiplexer c))))
         (_createConnection mss this opts).
Proof.
  intros w. unfold _createConnection. run_unfold.
  destruct (cc_muxerFactory opts) as [factory|]; simpl.
  - split; [done|]. by intros c [= <-].
  - split; [|by intros c [= <-]].
    by apply sublist_cons.
Qed.

Lemma staged_protect (d : Direction) maConn opts :
  let l := if is_true (opts ≫= skipProtection) then []
           else match connectionProtector (components this) with
                | Some _ => [StProtect]
                | None => []
                end in
  staged l (λ _, l)
    (if negb (is_true (opts ≫= skipProtection)) then
       match connectionProtector (components this) with
       | Some protector =>
           match d with
           | inbound => emit (EvLog "protecting the inbound connection");;
                        call_await EvProtect (protect protector maConn)
           | outbound => call_await EvProtect (protect protector maConn)
           end
       | None => ret maConn
       end
     else ret maConn).
Proof.
  destruct (is_true (opts ≫= skipProtection)); simpl; [apply staged_silent; silent_tac|].
  destruct (connectionProtector (components this)) as [protector|];
    [|apply staged_silent; silent_tac].
  destruct d; [apply staged_seq; [silent_tac|intros _]|]; by apply staged_call_await.
Qed.

Lemma staged_encryptInbound connection :
  staged [StSecure] (λ _, [StSecure]) (_encryptInbound mss this connection).
Proof.
  unfold _encryptInbound.
  apply staged_seq; [silent_tac|intros _].
  apply staged_try_catch; [|intros; silent_tac|done].
  apply staged_seq; [silent_tac|intros [stream protocol]].
  destruct (map_get protocol _) as [encrypter|]; [|apply staged_throw].
  apply staged_seq; [silent_tac|intros _].
  apply staged_then; [by apply staged_call_await|].
  intros secured. silent_tac.
Qed.

Lemma staged_encryptOutbound connection remotePeer :
  staged [StSecure] (λ _, [StSecure]) (_encryptOutbound mss this connection remotePeer).
Proof.
  unfold _encryptOutbound.
  apply staged_seq; [silent_tac|intros _].
  apply staged_try_catch; [|intros; silent_tac|done].
  apply staged_seq; [silent_tac|intros _].
  apply staged_seq; [silent_tac|intros [stream protocol]].
  destruct (map_get protocol _) as [encrypter|]; [|apply staged_throw].
  apply staged_seq; [silent_tac|intros _].
  apply staged_then; [by apply staged_call_await|].
  intros secured. silent_tac.
Qed.

Lemma upgradeInbound_staged maConn opts :
  staged (securing_stages this opts ++ creating_stages true)
         (λ c, securing_stages this opts
               ++ creating_stages (bool_decide (is_Some (multiplexer c))))
         (upgradeInbound mss peerIdFromString this maConn opts).
Proof.
  unfold upgradeInbound, securing_stages.
  apply staged_seq; [silent_tac|intros [|]; simpl negb; cbv iota; [|apply staged_throw]].
  apply staged_seq; [silent_tac|intros signal].
  apply staged_seq; [silent_tac|intros _].
  apply staged_try_finally; [|silent_tac].
  apply staged_seq; [silent_tac|intros [|]; [apply staged_throw|]].
  apply staged_seq; [silent_tac|intros _].
  apply staged_seq; [silent_tac|intros _].
  match goal with
  | |- staged ((?P ++ ?S) ++ _) _ _ =>
      apply (staged_weaken _ (P ++ S ++ creating_stages true) _
               (λ c, P ++ S ++ creating_stages (bool_decide (is_Some (multiplexer c)))));
        [|by rewrite app_assoc|intros c; by rewrite app_assoc]
  end.
  apply staged_bind; [apply (staged_protect inbound)|intros protectedConn].
  apply staged_bind.
  - apply staged_try_catch; [|intros; silent_tac|done].
    apply staged_then.
    + destruct (is_true (opts ≫= skipEncryption)); simpl negb; cbv iota.
      * apply staged_silent. silent_tac.
      * apply staged_seq; [silent_tac|intros _].
        apply staged_then; [apply staged_encryptInbound|].
        intros encrypted. silent_tac.
    + intros [[encryptedConn remotePeer] cryptoProtocol]. silent_tac.
  - intros [[[remotePeer cryptoProtocol] upgradedConn] muxerFactory].
    apply staged_seq; [silent_tac|intros _].
    apply staged_seq; [silent_tac|intros _].
    apply staged_createConnection.
Qed.

Lemma upgradeOutbound_staged maConn opts :
  staged (securing_stages this opts ++ creating_stages true)
         (λ c, securing_stages this opts
               ++ creating_stages (bool_decide (is_Some (multiplexer c))))
         (upgradeOutbound mss peerIdFromString this maConn opts).
Proof.
  unfold upgradeOutbound, securing_stages.
  apply staged_seq; [silent_tac|intros remotePeerId].
  apply staged_seq; [silent_tac|intros _].
  apply staged_seq; [silent_tac|intros _].
  match goal with
  | |- staged ((?P ++ ?S) ++ _) _ _ =>
      apply (staged_weaken _ (P ++ S ++ creating_stages true) _
               (λ c, P ++ S ++ creating_stages (bool_decide (is_Some (multiplexer c)))));
        [|by rewrite app_assoc|intros c; by rewrite app_assoc]
  end.
  apply staged_bind; [apply (staged_protect outbound)|intros protectedConn].
  apply staged_bind.
  - apply staged_try_catch; [|intros; silent_tac|].
    2:{ intros e w. run_unfold. by destruct (maConn_close maConn). }
    apply staged_then.
    + destruct (is_true (opts ≫= skipEncryption)); simpl negb; cbv iota.
      * apply staged_silent. silent_tac.
      * apply staged_then; [apply staged_encryptOutbound|].
        intros encrypted. silent_tac.
    + intros [[encryptedConn remotePeer] cryptoProtocol]. silent_tac.
  - intros [[[remotePeer cryptoProtocol] upgradedConn] muxerFactory].
    apply staged_seq; [silent_tac|intros _].
    apply staged_seq; [silent_tac|intros _].
    apply staged_createConnection.
Qed.

(** X10: the stages of an upgrade come in one order, each at most once:
    [protector.protect], the handshake of the encrypter,
    [createStreamMuxer], the setting of [timeline.upgraded], the dispatch
    of [connection:open].  The protector is never called when
    [skipProtection] is set or none is configured, the encrypter never when
    [skipEncryption] is set.  An upgrade that returns has gone through
    every stage that applies, through the muxer stage exactly if the
    connection has a multiplexer. *)
Theorem upgrade_pipeline maConn opts w :
  let in_order (r : Run Connection) :=
    stages (trace r) `sublist_of` securing_stages this opts ++ creating_stages true
    ∧ ∀ c, result r = Ok c →
           stages (trace r)
           = securing_stages this opts
             ++ creating_stages (bool_decide (is_Some (multiplexer c))) in
  in_order (upgradeInbound mss peerIdFromString this maConn opts w)
  ∧ in_order (upgradeOutbound mss peerIdFromString this maConn opts w).
Proof. split; [apply upgradeInbound_staged|apply upgradeOutbound_staged]. Qed.

End Pipeline.

(** * The timeout of an inbound upgrade *)

Lemma final_try_finally {A} (m : M A) f w :
  final (try_finally m f w) = final (f (final (m w))).
Proof.
  unfold try_finally. destruct (m w) as [t w' r]; simpl.
  by destruct (f w') as [t' w'' [[]|e]].
Qed.

Lemma keeps_ret {A} (a : A) : keeps_signals (mret a).
Proof. by intros w. Qed.

Lemma keeps_throw {A} e : keeps_signals (@throw A e).
Proof. by intros w. Qed.

Lemma keeps_settle {A} (o : Result A) : keeps_signals (settle o).
Proof. by intros w. Qed.

Lemma keeps_gets {A} (f : World → A) : keeps_signals (gets f).
Proof. by intros w. Qed.

Lemma keeps_emit e : keeps_signals (emit e).
Proof. by intros w. Qed.

Lemma keeps_await {A} (o : Result A) : keeps_signals (await o).
Proof. intros w. simpl. by rewrite length_fmap. Qed.

Lemma keeps_alter f sig : keeps_signals (modify (set_signals (alter f sig))).
Proof. intros w. simpl. by rewrite length_alter. Qed.

Lemma keeps_AbortSignal_timeout ms : keeps_signals (AbortSignal_timeout ms).
Proof.
  intros w. unfold AbortSignal_timeout.
  destruct (delay_accepted ms); simpl; [rewrite length_app|]; lia.
Qed.

Lemma keeps_bind {A B} (m : M A) (k : A → M B) :
  keeps_signals m → (∀ a, keeps_signals (k a)) → keeps_signals (m ≫= k).
Proof.
  intros Hm Hk w. rewrite final_bind. specialize (Hm w).
  destruct (result (m w)) as [a|e]; [|done].
  specialize (Hk a (final (m w))). lia.
Qed.

Lemma keeps_try_catch {A} (m : M A) h :
  keeps_signals m → (∀ e, keeps_signals (h e)) → keeps_signals (try_catch m h).
Proof.
  intros Hm Hh w. rewrite final_try_catch. specialize (Hm w).
  destruct (result (m w)) as [a|e]; [done|].
  specialize (Hh e (final (m w))). lia.
Qed.

Lemma keeps_try_finally {A} (m : M A) f :
  keeps_signals m → keeps_signals f → keeps_signals (try_finally m f).
Proof.
  intros Hm Hf w. rewrite final_try_finally.
  specialize (Hm w). specialize (Hf (final (m w))). lia.
Qed.

Ltac keeps_step :=
  match goal with
  | |- keeps_signals (_ ≫= _) => apply keeps_bind; [|intros]
  | |- keeps_signals (mret _) => apply keeps_ret
  | |- keeps_signals (ret _) => apply keeps_ret
  | |- keeps_signals (throw _) => apply keeps_throw
  | |- keeps_signals (settle _) => apply keeps_settle
  | |- keeps_signals (gets _) => apply keeps_gets
  | |- keeps_signals (emit _) => apply keeps_emit
  | |- keeps_signals (await _) => apply keeps_await
  | |- keeps_signals (modify (set_signals (alter _ _))) => apply keeps_alter
  | |- keeps_signals (try_catch _ _) => apply keeps_try_catch; [|intros]
  | |- keeps_signals (try_finally _ _) => apply keeps_try_finally
  | |- keeps_signals (AbortSignal_timeout _) => apply keeps_AbortSignal_timeout
  | |- keeps_signals (match ?x with _ => _ end) => destruct x
  | |- keeps_signals (if ?x then _ else _) => destruct x
  end.

Ltac keeps_tac :=
  repeat (keeps_step ||
          (progress unfold call_await, call, when, detached, addEventListener,
             removeEventListener, errConnectionNotMultiplexed, with_signal,
             shouldBlockConnection, _encryptInbound, _encryptOutbound,
             _multiplexInbound, _multiplexOutbound, multiplex_stage,
             _createConnection)).

Section InboundTimeout.
Context (mss : MultistreamSelect) (peerIdFromString : string → Result PeerId)
        (this : DefaultUpgrader).

(** X11: an admitted inbound upgrade whose [inboundUpgradeTimeout] is a
    delay [AbortSignal.timeout] accepts creates a timeout signal, and when
    the upgrade has settled, whether it returned or threw, its [onAbort]
    listener is no longer on that signal.  While the upgrade runs the
    listener is there: a timer that is due at the first suspension of the
    upgrade runs it.  With a delay that [AbortSignal.timeout] refuses, the
    upgrade throws the [RangeError] of that call right after admission: no
    signal is created, no stage runs, and [afterUpgradeInbound] is not
    called. *)
Theorem upgradeInbound_timeout_listener maConn opts w :
  admitted this maConn = true →
  let r := upgradeInbound mss peerIdFromString this maConn opts w in
  if delay_accepted (inboundUpgradeTimeout this)
  then (∃ signal, signals (final r) !! length (signals w) = Some signal
                  ∧ InboundUpgradeTimeout ∉ listeners signal)
       ∧ (timers w (inboundUpgradeTimeout this) = Some 0 →
          EvOnAbort InboundUpgradeTimeout ∈ trace r)
  else r = mkRun (EvAcceptIncomingConnection :: fired w) (tick w)
                 (Err (ERR_OUT_OF_RANGE (inboundUpgradeTimeout this))).
Proof.
  intros Hadm r. subst r. unfold admitted in Hadm.
  destruct (acceptIncomingConnection _ maConn) as [[|]|] eqn:Hacc; try done.
  destruct (delay_accepted (inboundUpgradeTimeout this)) eqn:Hdelay.
  2:{ by apply upgradeInbound_delay_refused. }
  unfold upgradeInbound. rewrite Hacc.
  erewrite bind_run_ok by (rewrite call_await_run; reflexivity).
  change (negb true) with false. cbv iota.
  erewrite (bind_run_ok (AbortSignal_timeout _))
    by (unfold AbortSignal_timeout; rewrite Hdelay; reflexivity).
  erewrite bind_run_ok by reflexivity.
  set (n := length (signals (tick w))).
  assert (n = length (signals w)) as Hn by (subst n; simpl; by rewrite length_fmap).
  match goal with
  | |- context [try_finally ?m ?f ?w0] =>
      set (body := m); set (w1 := w0)
  end.
  assert (keeps_signals body) as Hkeeps by (subst body; keeps_tac).
  assert (length (signals w1) = S n) as Hlen1.
  { subst w1. clear Hn. subst n. simpl. rewrite length_alter, length_app. simpl. lia. }
  split.
  - destruct (try_finally body _ w1) as [t' w' r'] eqn:Hrun. simpl.
    assert (w' = final (try_finally body
                          (removeEventListener n InboundUpgradeTimeout;;
                           emit EvAfterUpgradeInbound) w1)) as -> by by rewrite Hrun.
    rewrite final_try_finally. simpl. rewrite <- Hn, list_lookup_alter_eq.
    specialize (Hkeeps w1).
    destruct (lookup_lt_is_Some_2 (signals (final (body w1))) n) as [sig Hsig]; [lia|].
    rewrite Hsig. simpl. eexists. split; [done|]. simpl.
    intros Hin%list_elem_of_filter. by destruct Hin.
  - intros Htimer.
    destruct (try_finally body _ w1) as [t' w' r'] eqn:Hrun. simpl.
    assert (t' = trace (try_finally body
                          (removeEventListener n InboundUpgradeTimeout;;
                           emit EvAfterUpgradeInbound) w1)) as -> by by rewrite Hrun.
    rewrite trace_try_finally.
    assert (EvOnAbort InboundUpgradeTimeout ∈ fired w1) as Hfired.
    { subst w1. unfold fired. simpl. apply list_elem_of_bind.
      exists (mkSignal false (mkError TimeoutError "The operation timed out")
                (Some 0) [InboundUpgradeTimeout]).
      split; [set_solver|]. apply list_elem_of_lookup. exists n.
      rewrite list_lookup_alter_eq. subst n. simpl.
      rewrite lookup_app_r, Nat.sub_diag by done. simpl. by rewrite Htimer. }
    assert (EvOnAbort InboundUpgradeTimeout ∈ trace (body w1)) as Hbody.
    { subst body. rewrite trace_bind. apply elem_of_app. left.
      destruct (denyInboundConnection _) as [deny|].
      - rewrite call_await_run. simpl. by apply list_elem_of_further.
      - simpl. exact Hfired. }
    simpl. rewrite ?elem_of_cons, ?elem_of_app. tauto.
Qed.

End InboundTimeout.

(** X11, witness: the example upgrade returns, and the timeout signal it
    created, the first of the world, has no listener left. *)
Lemma upgradeInbound_timeout_listener_witness :
  let r := upgradeInbound example_mss example_peerIdFromString
             (example_upgrader true false) example_maConn None empty_world in
  ∃ signal, signals (final r) !! 0 = Some signal
            ∧ InboundUpgradeTimeout ∉ listeners signal.
Proof.
  exact (proj1 (upgradeInbound_timeout_listener example_mss example_peerIdFromString
                  (example_upgrader true false) example_maConn None empty_world
                  eq_refl)).
Defined.

(** * Closing and aborting a connection *)

Section ClosingConnections.
Context (mss : MultistreamSelect) (this : DefaultUpgrader).

Lemma built_by_close opts c :
  built_by mss this opts c →
  let muxer := (λ f, createStreamMuxer f (cc_direction opts)) <$> cc_muxerFactory opts in
  close c = (match muxer with
             | Some m => emit (EvLog "close muxer");;
                         call_await EvMuxerClose (mux_close m)
             | None => ret tt
             end;;
             emit (EvLog "close maconn");;
             call_await (EvMaConnClose None) (maConn_close (cc_maConn opts));;
             emit (EvLog "closed maconn"))
  ∧ abort c = (λ err, emit (EvMaConnAbort err);;
                      match muxer with
                      | Some _ => emit (EvMuxerAbort err)
                      | None => ret tt
                      end).
Proof.
  intros [w Hc]. revert Hc. unfold _createConnection. run_unfold.
  destruct (cc_muxerFactory opts); simpl; by intros [= <-].
Qed.

(** X12: [close] of a connection built by [_createConnection] closes the
    muxer, if there is one, before [maConn]; if [muxer.close] rejects,
    [maConn.close] is not called and the rejection is thrown; otherwise
    [close] settles as [maConn.close] does.  [abort] aborts [maConn] and
    then the muxer, if there is one, and returns. *)
Theorem connection_close_and_abort opts w :
  let muxer := (λ f, createStreamMuxer f (cc_direction opts)) <$> cc_muxerFactory opts in
  match result (_createConnection mss this opts w) with
  | Ok c =>
      (∀ w',
         obs is_close_call (trace (close c w'))
         = match muxer with
           | Some m => EvMuxerClose :: match mux_close m with
                                       | Ok _ => [EvMaConnClose None]
                                       | Err _ => []
                                       end
           | None => [EvMaConnClose None]
           end
         ∧ result (close c w')
           = match muxer with
             | Some m => match mux_close m with
                         | Ok _ => maConn_close (cc_maConn opts)
                         | Err e => Err e
                         end
             | None => maConn_close (cc_maConn opts)
             end)
      ∧ ∀ err w',
          obs is_abort_call (trace (abort c err w'))
          = EvMaConnAbort err :: match muxer with
                                 | Some _ => [EvMuxerAbort err]
                                 | None => []
                                 end
          ∧ result (abort c err w') = Ok tt
  | Err _ => False
  end.
Proof.
  intros muxer.
  destruct (result (_createConnection mss this opts w)) as [c|e] eqn:Hr.
  2:{ revert Hr. unfold _createConnection. run_unfold.
      by destruct (cc_muxerFactory opts). }
  assert (built_by mss this opts c) as Hb by by exists w.
  apply built_by_close in Hb as [-> ->]. fold muxer. split.
  - intros w'. run_unfold. destruct muxer as [m|]; simpl.
    + destruct (mux_close m) as [[]|e]; simpl.
      * destruct (maConn_close (cc_maConn opts)) as [[]|e]; simpl;
          rewrite ?app_nil_r; by obs_simpl.
      * rewrite ?app_nil_r. by obs_simpl.
    + destruct (maConn_close (cc_maConn opts)) as [[]|e]; simpl;
        rewrite ?app_nil_r; by obs_simpl.
  - intros err w'. run_unfold. by destruct muxer.
Qed.

End ClosingConnections.

(** * The trap on the timeline: [connection:close] *)

Lemma timeline_set_run c status tl key value w :
  timeline_set (Some c) status tl key value w
  = if first_close tl key value then
      if bool_decide (status = "open") then
        mkRun (trace (close c w)
               ++ match result (close c w) with
                  | Ok _ => []
                  | Err err => [EvLogError "error closing connection after timeline close" err]
                  end
               ++ [EvDispatch "connection:close"])
              (final (close c w))
              (Ok (Reflect_set tl key value))
      else mkRun [EvDispatch "connection:close"] w (Ok (Reflect_set tl key value))
    else mkRun [] w (Ok (Reflect_set tl key value)).
Proof.
  unfold timeline_set, first_close. run_unfold.
  destruct (bool_decide (key = "close") && bool_decide (value ≠ None)
            && bool_decide (tl !! "close" = None)).
  2: reflexivity.
  destruct (bool_decide (status = "open")).
  2: reflexivity.
  destruct (close c w) as [t w' [[]|e]]; simpl; by rewrite ?app_nil_r, <- ?app_assoc.
Qed.

Lemma timeline_set_close c status tl key value w :
  silent is_connection_close (close c) →
  obs is_connection_close (trace (timeline_set (Some c) status tl key value w))
  = if first_close tl key value then [EvDispatch "connection:close"] else [].
Proof.
  intros Hs. rewrite timeline_set_run.
  destruct (first_close tl key value); [|done].
  destruct (bool_decide (status = "open")); [|done]. simpl.
  rewrite !obs_app, Hs. by destruct (result (close c w)).
Qed.

Lemma timeline_set_result c status tl key value w :
  result (timeline_set c status tl key value w) = Ok (Reflect_set tl key value).
Proof.
  destruct c as [c|]; [|done]. rewrite timeline_set_run.
  destruct (first_close tl key value); [|done].
  by destruct (bool_decide (status = "open")).
Qed.

Section Timeline.
Context (mss : MultistreamSelect) (this : DefaultUpgrader).

Lemma built_by_close_silent opts c :
  built_by mss this opts c → silent is_connection_close (close c).
Proof.
  intros Hb. apply built_by_close in Hb as [-> _].
  destruct (cc_muxerFactory opts); simpl; silent_tac.
Qed.

(** X13: a write to [maConn.timeline] through the proxy always sets the
    property and never throws.  It dispatches [connection:close], once,
    exactly if the connection object exists, the property is [close], the
    value is not null and the timeline had no [close] yet; any other write
    does nothing besides the assignment. *)
Theorem timeline_first_close opts w0 :
  match result (_createConnection mss this opts w0) with
  | Ok connection =>
      ∀ status _timeline key value w,
        let r := timeline_set (Some connection) status _timeline key value w in
        result r = Ok (Reflect_set _timeline key value)
        ∧ obs is_connection_close (trace r)
          = (if first_close _timeline key value then [EvDispatch "connection:close"] else [])
        ∧ (first_close _timeline key value = false → trace r = [])
        ∧ timeline_set None status _timeline key value w
          = mkRun [] w (Ok (Reflect_set _timeline key value))
  | Err _ => False
  end.
Proof.
  destruct (result (_createConnection mss this opts w0)) as [c|e] eqn:Hr.
  2:{ revert Hr. unfold _createConnection. run_unfold.
      by destruct (cc_muxerFactory opts). }
  assert (silent is_connection_close (close c)) as Hs.
  { apply (built_by_close_silent opts). by exists w0. }
  intros status tl key value w r. subst r. split_and!.
  - apply timeline_set_result.
  - by apply timeline_set_close.
  - intros Hf. by rewrite timeline_set_run, Hf.
  - done.
Qed.

(** X14: on the first close of the timeline the trap awaits
    [connection.close()] only if the status of the connection is [open]; an
    error of that call is logged and not thrown; [connection:close] is
    dispatched last, after the attempt, whether it failed or not. *)
Theorem timeline_close_attempt connection status _timeline key value w :
  first_close _timeline key value = true →
  let r := timeline_set (Some connection) status _timeline key value w in
  (status = "open" →
   trace r = trace (close connection w)
             ++ match result (close connection w) with
                | Ok _ => []
                | Err err => [EvLogError "error closing connection after timeline close" err]
                end
             ++ [EvDispatch "connection:close"])
  ∧ (status ≠ "open" → trace r = [EvDispatch "connection:close"]).
Proof.
  intros Hf r. subst r. rewrite timeline_set_run, Hf. split.
  - intros ->. done.
  - intros Hs. by rewrite bool_decide_false.
Qed.

Lemma Reflect_set_close tl key value :
  (key = "close" → value ≠ None) → is_Some (tl !! "close") →
  is_Some (Reflect_set tl key value !! "close").
Proof.
  intros Hk Hs. unfold Reflect_set. destruct value as [v|].
  - destruct (decide (key = "close")) as [->|Hne].
    + rewrite lookup_insert_eq. eauto.
    + by rewrite lookup_insert_ne.
  - rewrite lookup_delete_ne; [done|]. intros ->. by apply Hk.
Qed.

Lemma first_close_Reflect_set tl key value :
  first_close tl key value = true → is_Some (Reflect_set tl key value !! "close").
Proof.
  unfold first_close. intros H.
  apply andb_prop in H as [H _]. apply andb_prop in H as [H1 H2].
  apply bool_decide_eq_true in H1 as ->. apply bool_decide_eq_true in H2.
  destruct value as [v|]; [|done]. simpl. rewrite lookup_insert_eq. eauto.
Qed.

Lemma first_close_closed tl key value :
  is_Some (tl !! "close") → first_close tl key value = false.
Proof.
  intros [v Hv]. unfold first_close. rewrite Hv.
  rewrite (bool_decide_false (Some v = None)) by done. apply andb_false_r.
Qed.

Lemma timeline_writes_closed c tl writes w :
  silent is_connection_close (close c) →
  close_is_kept writes → is_Some (tl !! "close") →
  obs is_connection_close (trace (timeline_writes (Some c) tl writes w)) = [].
Proof.
  intros Hs Hk. revert tl w. induction Hk as [|write writes Hw Hk IH]; intros tl w Hc.
  - done.
  - cbn [timeline_writes]. rewrite trace_bind, obs_app, timeline_set_close by done.
    rewrite first_close_closed by done. rewrite timeline_set_result. simpl.
    apply IH. by apply Reflect_set_close.
Qed.

(** X15: over any sequence of writes to the timeline of a connection built
    by [_createConnection] in which [close] is not set back to null,
    [connection:close] is dispatched at most once, and not at all if the
    timeline had a [close] at the start. *)
Theorem timeline_close_once opts connection _timeline writes w :
  built_by mss this opts connection →
  close_is_kept writes →
  let r := timeline_writes (Some connection) _timeline writes w in
  length (obs is_connection_close (trace r)) ≤ 1
  ∧ (is_Some (_timeline !! "close") → obs is_connection_close (trace r) = []).
Proof.
  intros Hb Hk r. subst r. apply built_by_close_silent in Hb.
  split; [|by apply timeline_writes_closed].
  revert _timeline w. induction Hk as [|write writes Hw Hk IH]; intros tl w.
  - simpl. lia.
  - cbn [timeline_writes]. rewrite trace_bind, obs_app, timeline_set_close by done.
    rewrite timeline_set_result.
    destruct (first_close tl (tw_key write) (tw_value write)) eqn:Hf; simpl.
    + rewrite timeline_writes_closed; [simpl; lia|done|done|].
      by apply first_close_Reflect_set.
    + apply IH.
Qed.

End Timeline.

(** X14, witness: the first close of the timeline of an open connection: the
    connection is closed, which succeeds, then [connection:close] is
    dispatched. *)
Lemma timeline_close_attempt_witness :
  let r := timeline_set (Some (example_connection "/echo/1.0.0" inbound None)) "open"
             ∅ "close" (Some 2000%Z) empty_world in
  trace r = trace (close (example_connection "/echo/1.0.0" inbound None) empty_world)
            ++ [] ++ [EvDispatch "connection:close"].
Proof.
  exact (proj1 (timeline_close_attempt (example_connection "/echo/1.0.0" inbound None)
                  "open" ∅ "close" (Some 2000%Z) empty_world eq_refl) eq_refl).
Defined.

(** X15, witness: [upgraded] is written, then [close] twice; the event is
    dispatched at most once. *)
Lemma timeline_close_once_witness :
  let r := timeline_writes (Some (example_connection "/echo/1.0.0" inbound None))
             ∅ example_writes empty_world in
  length (obs is_connection_close (trace r)) ≤ 1.
Proof.
  exact (proj1 (timeline_close_once (mss_selecting "/echo/1.0.0")
                  (example_upgrader true false)
                  (example_connection_options inbound None)
                  (example_connection "/echo/1.0.0" inbound None)
                  ∅ example_writes empty_world
                  (ex_intro _ empty_world eq_refl)
                  ltac:(repeat constructor; discriminate))).
Defined.

(** * Opening streams *)

(** The streams the muxer listed before it opened the stream [id] are not
    touched by what is done to [id]. *)
Lemma muxer_streams_opened w w' d f :
  streams_exist w →
  objects w' = alter f (fresh_stream_id w)
                 (<[fresh_stream_id w := mkStream (fresh_stream_id w) d None false (Ok tt)
                                                  false false false]> (objects w)) →
  muxerStreams w' = muxerStreams w ++ [fresh_stream_id w] →
  muxer_streams w'
  = muxer_streams w
    ++ [f (mkStream (fresh_stream_id w) d None false (Ok tt) false false false)].
Proof.
  intros Hwf Ho Hm. unfold muxer_streams. rewrite Ho, Hm, omap_app. f_equal.
  - assert (objects w !! fresh_stream_id w = None) as Hfresh.
    { unfold fresh_stream_id. apply not_elem_of_dom, is_fresh. }
    clear Ho Hm. induction Hwf as [|i l [s Hi] Hl IH]; [done|].
    simpl. rewrite lookup_alter_ne, lookup_insert_ne, Hi by congruence.
    simpl. f_equal. apply IH.
  - simpl. by rewrite lookup_alter_eq, lookup_insert_eq.
Qed.

Lemma countStreams_rebound protocol d d' stream s :
  s_direction s = d' →
  countStreams protocol d [rebind stream s]
  = if bool_decide (protocol = n_protocol stream ∧ d = d') then 1 else 0.
Proof.
  intros <-. unfold countStreams, protocol_is. simpl.
  destruct (decide (protocol = n_protocol stream ∧ d = s_direction s)) as [[-> ->]|Hn].
  - rewrite bool_decide_true by done.
    rewrite filter_cons_True; [done|]. simpl. rewrite String.eqb_refl.
    by destruct (s_direction s).
  - rewrite bool_decide_false by done.
    rewrite filter_cons_False; [done|]. simpl. intros H.
    apply andb_prop in H as [H1 H2]. apply String.eqb_eq in H2.
    destruct Hn. split; [done|]. by destruct (s_direction s), d.
Qed.

Section NewStream.
Context (mss : MultistreamSelect) (this : DefaultUpgrader).

(** X16: [newStream] on a multiplexed connection.  If [muxer.newStream()]
    rejects, the rejection is thrown, no stream is aborted and the streams
    of the muxer are as before.  Once the muxer has opened a stream, a
    [newStream] that throws has aborted that stream exactly once, with the
    error it throws (an aborted stream has [timeline.close] set, so the
    [abort] of the [catch] block is skipped after the one of the limit),
    and a [newStream] that returns has aborted nothing and returns that
    stream. *)
Theorem newStream_failure_aborts opts c factory protocols streamOptions w :
  built_by mss this opts c →
  cc_muxerFactory opts = Some factory →
  let muxer := createStreamMuxer factory (cc_direction opts) in
  let r := newStream c protocols streamOptions w in
  match mux_newStream muxer with
  | Ok _ =>
      match result r with
      | Ok muxedStream =>
          muxedStream = fresh_stream_id w ∧ obs is_streamAbort (trace r) = []
      | Err err => obs is_streamAbort (trace r) = [EvStreamAbort (fresh_stream_id w) err]
      end
  | Err err =>
      result r = Err err ∧ obs is_streamAbort (trace r) = []
      ∧ muxer_streams (final r) = muxer_streams w
  end.
Proof.
  intros Hb Hf muxer r. subst r.
  apply built_by_inv in Hb as (_ & _ & Hg & Hn).
  rewrite Hf in Hg, Hn. simpl in Hg, Hn. rewrite Hg in Hn. rewrite Hn. clear Hn Hg.
  fold muxer.
  unfold newStream_closure, muxer_newStream, stream_abort, update_stream,
    AbortSignal_timeout.
  run_unfold. destruct (mux_newStream muxer) as [[]|e0]; simpl.
  2:{ split_and!; [done|by obs_simpl|done]. }
  change (fresh_stream_id (tick w)) with (fresh_stream_id w).
  set (id := fresh_stream_id w).
  assert (∀ t, obs is_streamAbort
                 (EvLog "starting new stream for protocols %s"
                  :: (EvMuxerNewStream :: fired w ++ [])
                  ++ EvLog "started new stream %s for protocols %s" :: t)
               = obs is_streamAbort t) as Hpre.
  { intros t. by obs_simpl. }
  destruct (ns_signal streamOptions) as [sig|]; simpl;
    (destruct (select_stream mss id protocols) as [stream|e1]; simpl;
     [destruct (findOutgoingStreamLimit _ _ _) as [l|e2]; simpl;
      [destruct (Z.geb _ l); simpl;
       [|destruct (merge _ _ _) as [[]|e3]; simpl;
         [destruct (metrics _); simpl|]]|]|]);
    unfold stream_closed; simpl;
    rewrite ?lookup_alter, ?decide_True, ?lookup_insert_eq by done; simpl;
    rewrite ?Hpre; try (split; [done|]); by obs_simpl.
Qed.

(** X17: when [newStream] returns a stream, the remote peer has selected a
    protocol on it, the connection counted fewer outbound streams of that
    protocol than the limit, the peer store was given the protocol, the
    stream carries it, and the connection counts one more outbound stream
    of that protocol and as many as before of every other protocol and
    direction.  Here the muxer lists streams that exist. *)
Theorem newStream_success opts c factory protocols streamOptions w muxedStream :
  built_by mss this opts c →
  cc_muxerFactory opts = Some factory →
  streams_exist w →
  let r := newStream c protocols streamOptions w in
  result r = Ok muxedStream →
  ∃ stream l,
    select_stream mss muxedStream protocols = Ok stream
    ∧ findOutgoingStreamLimit (n_protocol stream) (registrar (components this))
                              streamOptions = Ok l
    ∧ (Z.of_nat (countStreams (n_protocol stream) outbound (getStreams c w)) < l)%Z
    ∧ stream_protocol muxedStream (final r) = Some (n_protocol stream)
    ∧ EvPeerStoreMerge (cc_remotePeer opts) (n_protocol stream) ∈ trace r
    ∧ ∀ protocol d,
        countStreams protocol d (getStreams c (final r))
        = countStreams protocol d (getStreams c w)
          + if bool_decide (protocol = n_protocol stream ∧ d = outbound) then 1 else 0.
Proof.
  intros Hb Hf Hwf r. subst r.
  apply built_by_inv in Hb as (_ & _ & Hg & Hn).
  rewrite Hf in Hg, Hn. simpl in Hg, Hn. rewrite Hg in Hn. rewrite Hn, Hg. clear Hn Hg.
  set (muxer := createStreamMuxer factory (cc_direction opts)).
  unfold newStream_closure, muxer_newStream, stream_abort, update_stream,
    AbortSignal_timeout.
  run_unfold. destruct (mux_newStream muxer) as [[]|e0]; simpl; [|done].
  change (fresh_stream_id (tick w)) with (fresh_stream_id w).
  set (id := fresh_stream_id w).
  assert (∀ o s, findOutgoingStreamLimit o (registrar (components this))
                 (mkNewStreamOptions s (ns_maxOutboundStreams streamOptions))
               = findOutgoingStreamLimit o (registrar (components this)) streamOptions)
    as Hopt by (intros; by apply findOutgoingStreamLimit_options).
  assert (∀ w' stream,
            objects w' = alter (rebind stream) id
                           (<[id := mkStream id outbound None false (Ok tt)
                                             false false false]> (objects w)) →
            muxerStreams w' = muxerStreams w ++ [id] →
            ∀ protocol d,
              countStreams protocol d (muxer_streams w')
              = countStreams protocol d (muxer_streams w)
                + if bool_decide (protocol = n_protocol stream ∧ d = outbound)
                  then 1 else 0) as Hcount.
  { intros w' stream Ho Hm protocol d.
    rewrite (muxer_streams_opened w w' outbound (rebind stream) Hwf Ho Hm).
    rewrite countStreams_app. f_equal. by apply countStreams_rebound. }
  assert (∀ w' protocol,
            objects w' = <[id := mkStream id outbound None false (Ok tt)
                                          false false false]> (objects w) →
            muxerStreams w' = muxerStreams w ++ [id] →
            countStreams protocol outbound (muxer_streams w')
            = countStreams protocol outbound (muxer_streams w)) as Hopened.
  { intros w' protocol Ho Hm. by apply (countStreams_opened protocol outbound outbound w w'). }
  destruct (ns_signal streamOptions) as [sig|]; simpl;
    (destruct (select_stream mss id protocols) as [stream|e1] eqn:Hsel; simpl;
     [rewrite ?Hopt;
      destruct (findOutgoingStreamLimit _ _ streamOptions) as [l|e2] eqn:Hl; simpl;
      [rewrite Hopened by done;
       destruct (Z.geb _ l) eqn:Hge; simpl;
       [|destruct (merge _ _ _) as [[]|e3]; simpl;
         [destruct (metrics _); simpl|]]|]|]);
    unfold stream_closed; simpl;
    rewrite ?lookup_alter_eq, ?lookup_insert_eq; simpl;
    try discriminate;
    intros [= <-]; exists stream, l;
    (split_and!;
       [ done | done | rewrite Z.geb_leb in Hge; apply Z.leb_gt in Hge; lia
       | unfold stream_protocol; simpl;
         by rewrite lookup_alter_eq, lookup_insert_eq
       | set_solver
       | by apply Hcount ]).
Qed.

End NewStream.

(** X16, witness: the handler of [/echo/1.0.0] allows one outbound stream;
    with one open, the stream [newStream] opens next is aborted once, with
    the error that is thrown. *)
Lemma newStream_failure_aborts_witness :
  let r := newStream (example_connection "/echo/1.0.0" outbound None)
             ["/echo/1.0.0"] no_options one_echo_stream_out in
  match result r with
  | Ok muxedStream =>
      muxedStream = fresh_stream_id one_echo_stream_out
      ∧ obs is_streamAbort (trace r) = []
  | Err err =>
      obs is_streamAbort (trace r) = [EvStreamAbort (fresh_stream_id one_echo_stream_out) err]
  end.
Proof.
  exact (newStream_failure_aborts (mss_selecting "/echo/1.0.0")
           (example_upgrader true false)
           (example_connection_options outbound None)
           (example_connection "/echo/1.0.0" outbound None)
           yamux ["/echo/1.0.0"] no_options one_echo_stream_out
           (ex_intro _ empty_world eq_refl) eq_refl).
Defined.

(** X17, witness: the first outbound [/echo/1.0.0] stream of the example
    connection. *)
Lemma newStream_success_witness :
  let c := example_connection "/echo/1.0.0" outbound None in
  let r := newStream c ["/echo/1.0.0"] no_options empty_world in
  ∃ stream l,
    select_stream (mss_selecting "/echo/1.0.0") 0 ["/echo/1.0.0"] = Ok stream
    ∧ findOutgoingStreamLimit (n_protocol stream)
        (registrar (components (example_upgrader true false))) no_options = Ok l
    ∧ (Z.of_nat (countStreams (n_protocol stream) outbound (getStreams c empty_world)) < l)%Z
    ∧ stream_protocol 0 (final r) = Some (n_protocol stream)
    ∧ EvPeerStoreMerge "12D3KooWRemote" (n_protocol stream) ∈ trace r
    ∧ ∀ protocol d,
        countStreams protocol d (getStreams c (final r))
        = countStreams protocol d (getStreams c empty_world)
          + if bool_decide (protocol = n_protocol stream ∧ d = outbound) then 1 else 0.
Proof.
  exact (newStream_success (mss_selecting "/echo/1.0.0")
           (example_upgrader true false)
           (example_connection_options outbound None)
           (example_connection "/echo/1.0.0" outbound None)
           yamux ["/echo/1.0.0"] no_options empty_world 0
           (ex_intro _ empty_world eq_refl) eq_refl (Forall_nil_2 _) eq_refl).
Defined.

(** * The limit of outbound streams over a sequence of calls *)

(** The streams the muxer lists once it has opened the stream [id] and
    something was done to that stream only. *)
Lemma streams_exist_opened w w' d f :
  streams_exist w →
  objects w' = alter f (fresh_stream_id w)
                 (<[fresh_stream_id w := mkStream (fresh_stream_id w) d None false (Ok tt)
                                                  false false false]> (objects w)) →
  muxerStreams w' = muxerStreams w ++ [fresh_stream_id w] →
  streams_exist w'.
Proof.
  intros Hwf Ho Hm. unfold streams_exist. rewrite Ho, Hm. apply Forall_app. split.
  - eapply Forall_impl; [exact Hwf|]. intros i [s Hs]. simpl.
    destruct (decide (i = fresh_stream_id w)) as [->|Hne].
    + rewrite lookup_alter_eq, lookup_insert_eq. eauto.
    + rewrite lookup_alter_ne, lookup_insert_ne by done. eauto.
  - apply Forall_singleton. rewrite lookup_alter_eq, lookup_insert_eq. eauto.
Qed.

Lemma countStreams_closed protocol d s :
  s_protocol s = None → countStreams protocol d [set_timeline_close s] = 0.
Proof.
  intros Hs. unfold countStreams. rewrite filter_cons_False; [done|].
  simpl. unfold protocol_is. simpl. rewrite Hs. by rewrite andb_false_r.
Qed.

Section OutboundInvariant.
Context (mss : MultistreamSelect) (this : DefaultUpgrader).

(** One call of [newStream]: the streams the muxer lists exist afterwards,
    and each count of outbound streams is as before, or was below the
    limit and has grown by one. *)
Lemma newStream_step opts c factory protocols streamOptions w :
  built_by mss this opts c →
  cc_muxerFactory opts = Some factory →
  streams_exist w →
  let r := newStream c protocols streamOptions w in
  streams_exist (final r)
  ∧ ∀ protocol,
      countStreams protocol outbound (getStreams c (final r))
      = countStreams protocol outbound (getStreams c w)
      ∨ ∃ l, findOutgoingStreamLimit protocol (registrar (components this)) streamOptions
             = Ok l
             ∧ (Z.of_nat (countStreams protocol outbound (getStreams c w)) < l)%Z
             ∧ countStreams protocol outbound (getStreams c (final r))
               = S (countStreams protocol outbound (getStreams c w)).
Proof.
  intros Hb Hf Hwf r. subst r.
  apply built_by_inv in Hb as (_ & _ & Hg & Hn).
  rewrite Hf in Hg, Hn. simpl in Hg, Hn. rewrite Hg in Hn. rewrite Hn, Hg. clear Hn Hg.
  set (muxer := createStreamMuxer factory (cc_direction opts)).
  unfold newStream_closure, muxer_newStream, stream_abort, update_stream,
    AbortSignal_timeout.
  run_unfold. destruct (mux_newStream muxer) as [[]|e0]; simpl.
  2:{ split; [done|]. intros protocol. by left. }
  change (fresh_stream_id (tick w)) with (fresh_stream_id w).
  set (id := fresh_stream_id w).
  set (fresh := mkStream id outbound None false (Ok tt) false false false).
  assert (∀ o s, findOutgoingStreamLimit o (registrar (components this))
                 (mkNewStreamOptions s (ns_maxOutboundStreams streamOptions))
               = findOutgoingStreamLimit o (registrar (components this)) streamOptions)
    as Hopt by (intros; by apply findOutgoingStreamLimit_options).
  assert (∀ w' protocol,
            objects w' = <[id := fresh]> (objects w) →
            muxerStreams w' = muxerStreams w ++ [id] →
            countStreams protocol outbound (muxer_streams w')
            = countStreams protocol outbound (muxer_streams w)) as Hopened.
  { intros w' protocol Ho Hm.
    by apply (countStreams_opened protocol outbound outbound w w'). }
  assert (∀ w',
            objects w' = alter set_timeline_close id (<[id := fresh]> (objects w)) →
            muxerStreams w' = muxerStreams w ++ [id] →
            streams_exist w'
            ∧ ∀ protocol,
                countStreams protocol outbound (muxer_streams w')
                = countStreams protocol outbound (muxer_streams w)
                ∨ ∃ l, findOutgoingStreamLimit protocol (registrar (components this))
                         streamOptions = Ok l
                       ∧ (Z.of_nat (countStreams protocol outbound (muxer_streams w)) < l)%Z
                       ∧ countStreams protocol outbound (muxer_streams w')
                         = S (countStreams protocol outbound (muxer_streams w)))
    as Hfailed.
  { intros w' Ho Hm. split; [by eapply streams_exist_opened|].
    intros protocol. left.
    rewrite (muxer_streams_opened w w' outbound set_timeline_close Hwf Ho Hm).
    rewrite countStreams_app, countStreams_closed by done. lia. }
  assert (∀ w' stream l,
            objects w' = alter (rebind stream) id (<[id := fresh]> (objects w)) →
            muxerStreams w' = muxerStreams w ++ [id] →
            findOutgoingStreamLimit (n_protocol stream) (registrar (components this))
              streamOptions = Ok l →
            (Z.of_nat (countStreams (n_protocol stream) outbound (muxer_streams w))
             >=? l)%Z = false →
            streams_exist w'
            ∧ ∀ protocol,
                countStreams protocol outbound (muxer_streams w')
                = countStreams protocol outbound (muxer_streams w)
                ∨ ∃ l, findOutgoingStreamLimit protocol (registrar (components this))
                         streamOptions = Ok l
                       ∧ (Z.of_nat (countStreams protocol outbound (muxer_streams w)) < l)%Z
                       ∧ countStreams protocol outbound (muxer_streams w')
                         = S (countStreams protocol outbound (muxer_streams w)))
    as Hopen.
  { intros w' stream l Ho Hm Hl Hge. split; [by eapply streams_exist_opened|].
    intros protocol.
    rewrite (muxer_streams_opened w w' outbound (rebind stream) Hwf Ho Hm).
    rewrite countStreams_app, (countStreams_rebound _ _ outbound) by done.
    case_bool_decide as Hp.
    - destruct Hp as [-> _]. right. exists l. split_and!; [done| |lia].
      rewrite Z.geb_leb in Hge. apply Z.leb_gt in Hge. lia.
    - left. lia. }
  destruct (ns_signal streamOptions) as [sig|]; simpl;
    (destruct (select_stream mss id protocols) as [stream|e1] eqn:Hsel; simpl;
     [rewrite ?Hopt;
      destruct (findOutgoingStreamLimit _ _ streamOptions) as [l|e2] eqn:Hl; simpl;
      [rewrite Hopened by done;
       destruct (Z.geb _ l) eqn:Hge; simpl;
       [|destruct (merge _ _ _) as [[]|e3]; simpl;
         [destruct (metrics _); simpl|]]|]|]);
    unfold stream_closed; simpl;
    rewrite ?lookup_alter_eq, ?lookup_insert_eq; simpl;
    first [by apply Hfailed | by eapply Hopen].
Qed.

(** X27: the limit of outbound streams holds over calls that do not
    overlap.  On a multiplexed connection that counts at most [l] outbound
    streams of a protocol, [l] being the limit of that protocol for every
    call, [newStream] calls made one after the other, each settled before
    the next is made, whatever they negotiate and whether they return or
    throw, leave at most [l] outbound streams of the protocol.  (Calls
    that overlap are not covered: [newStream] counts the streams before it
    awaits [peerStore.merge] and assigns the protocol after.) *)
Theorem outbound_limit_is_kept opts c factory calls protocol l w :
  built_by mss this opts c →
  cc_muxerFactory opts = Some factory →
  streams_exist w →
  Forall (λ call, findOutgoingStreamLimit protocol (registrar (components this)) call.2
                  = Ok l) calls →
  (Z.of_nat (countStreams protocol outbound (getStreams c w)) ≤ l)%Z →
  (Z.of_nat (countStreams protocol outbound
               (getStreams c (final (newStreams c calls w)))) ≤ l)%Z.
Proof.
  intros Hb Hf Hwf Hcalls. revert w Hwf.
  induction Hcalls as [|[protocols options] calls Hl Hcalls IH]; intros w Hwf Hle; [done|].
  cbn [newStreams]. rewrite final_bind.
  pose proof (newStream_step opts c factory protocols options w Hb Hf Hwf) as [Hwf' Hstep].
  assert (result (try_catch (newStream c protocols options;; ret tt) (λ _, ret tt) w)
          = Ok tt
          ∧ final (try_catch (newStream c protocols options;; ret tt) (λ _, ret tt) w)
            = final (newStream c protocols options w)) as [-> ->].
  { rewrite result_try_catch, final_try_catch, result_bind, final_bind.
    by destruct (result (newStream c protocols options w)). }
  apply IH; [done|].
  destruct (Hstep protocol) as [->|(l' & Hl' & Hlt & ->)]; [done|].
  simpl in Hl. rewrite Hl in Hl'. injection Hl' as <-. lia.
Qed.

End OutboundInvariant.

(** X27, witness: two calls for [/echo/1.0.0], whose handler allows one
    outbound stream, leave one. *)
Lemma outbound_limit_is_kept_witness :
  let c := example_connection "/echo/1.0.0" outbound None in
  (Z.of_nat (countStreams "/echo/1.0.0" outbound
               (getStreams c (final (newStreams c two_echo_calls empty_world)))) ≤ 1)%Z.
Proof.
  exact (outbound_limit_is_kept (mss_selecting "/echo/1.0.0")
           (example_upgrader true false)
           (example_connection_options outbound None)
           (example_connection "/echo/1.0.0" outbound None)
           yamux two_echo_calls "/echo/1.0.0" 1%Z empty_world
           (ex_intro _ empty_world eq_refl) eq_refl (Forall_nil_2 _)
           ltac:(repeat constructor) ltac:(vm_compute; discriminate)).
Defined.

(** * The limit of inbound streams over a sequence of streams *)


Section InboundInvariant.
Context (mss : MultistreamSelect) (this : DefaultUpgrader).



End InboundInvariant.


(** * What becomes of an inbound stream *)

Lemma stream_closed_abort id w :
  is_Some (objects w !! id) →
  stream_closed id (set_objects (alter set_timeline_close id) w) = true.
Proof.
  intros [s Hs]. unfold stream_closed. simpl.
  by rewrite lookup_alter_eq, Hs.
Qed.

Section IncomingOutcome.
Context (mss : MultistreamSelect) (this : DefaultUpgrader).

(** The task fails before the limit is looked at: the remote peer does not
    settle on a protocol, or the registrar fails. *)
Lemma onIncomingStream_then_failed remotePeer c id w :
  match handle_stream mss id (getProtocols (registrar (components this))) with
  | Ok stream =>
      ∀ e, findIncomingStreamLimit (n_protocol stream) (registrar (components this))
           = Err e →
           onIncomingStream_then mss this remotePeer c id w
           = mkRun (EvMssHandle (getProtocols (registrar (components this))) :: fired w
                    ++ [EvLog "incoming stream opened on %s"])
                   (tick w) (Err e)
  | Err e =>
      onIncomingStream_then mss this remotePeer c id w
      = mkRun (EvMssHandle (getProtocols (registrar (components this))) :: fired w)
              (tick w) (Err e)
  end.
Proof.
  unfold onIncomingStream_then. run_unfold.
  destruct (handle_stream mss id _) as [stream|e]; simpl.
  - intros e ->. simpl. by rewrite ?app_nil_r.
  - by rewrite ?app_nil_r.
Qed.

(** X18: an inbound stream is not left over.  The task [onIncomingStream]
    starts for a stream that is open ends in one of four ways: the handler
    was called and returned; the handler was called and threw, and the
    stream was closed; the stream was aborted for the limit of streams; the
    task failed otherwise (the negotiation, the registrar, the peer store,
    a protocol without handler, a limited connection) and the stream was
    closed.  The task throws only when that [close] rejects. *)
Theorem incoming_stream_outcome opts c remotePeer id w :
  built_by mss this opts c →
  is_Some (objects w !! id) →
  stream_closed id w = false →
  let r := onIncomingStream mss this remotePeer (Some c) id w in
  (∃ protocol err,
     obs delivered_or_aborted (trace r)
     ∈ [[EvHandler protocol id]; [EvHandler protocol id; EvStreamClose id];
        [EvStreamAbort id err]; [EvStreamClose id]])
  ∧ ∀ e, result r = Err e →
         last (obs delivered_or_aborted (trace r)) = Some (EvStreamClose id).
Proof.
  intros Hb Hid Hopen r. subst r. unfold onIncomingStream, detached.
  assert (∀ P e w', stream_closed id w' = false →
            (∀ l, P (EvOnAbort l) = false) → (∀ m e, P (EvLogError m e) = false) →
            P (EvStreamClose id) = true →
            obs P (trace (onIncomingStream_catch id e w')) = [EvStreamClose id]) as Hcatch.
  { intros P e w' Hc H1 H2 H3. rewrite onIncomingStream_catch_run, Hc. simpl.
    obs_simpl. by rewrite H2, H3. }
  assert (∀ e w', stream_closed id w' = true →
            onIncomingStream_catch id e w'
            = mkRun [EvLogError "error handling incoming stream id %s" e] w' (Ok tt))
    as Hcaught.
  { intros e w' Hc. by rewrite onIncomingStream_catch_run, Hc. }
  pose proof (onIncomingStream_then_failed remotePeer c id w) as Hfailed.
  destruct (handle_stream mss id _) as [stream|e0] eqn:Hh.
  2:{ rewrite trace_try_catch, result_try_catch, Hfailed. simpl.
      split.
      - exists "", e0. obs_simpl. rewrite Hcatch by done. set_solver.
      - intros e _. obs_simpl. by rewrite Hcatch. }
  destruct (findIncomingStreamLimit (n_protocol stream) (registrar (components this)))
    as [lim|e1] eqn:Hl.
  2:{ rewrite trace_try_catch, result_try_catch, (Hfailed e1) by done. simpl.
      split.
      - exists "", e1. obs_simpl. rewrite Hcatch by done. set_solver.
      - intros e _. obs_simpl. by rewrite Hcatch. }
  destruct (strict_eq_limit
              (countStreams (n_protocol stream) inbound (getStreams c (tick w))) lim)
    eqn:Hc.
  - destruct (onIncomingStream_then_abort mss this remotePeer c id w stream lim Hh Hl Hc)
      as (err & Hname & Hrun).
    rewrite trace_try_catch, result_try_catch, Hrun. simpl.
    rewrite Hcaught by (by apply stream_closed_abort). simpl. split; [|done].
    exists "", err. obs_simpl. set_solver.
  - rewrite trace_try_catch, result_try_catch.
    rewrite (onIncomingStream_then_route mss this remotePeer c id w stream lim Hh Hl Hc).
    assert (stream_closed id (tick (set_objects (alter (rebind stream) id) (tick w)))
            = false) as Hopen'.
    { by rewrite stream_closed_tick, stream_closed_rebind, stream_closed_tick. }
    destruct (merge _ _ _) as [[]|e2]; simpl.
    2:{ split.
        - exists "", e2. obs_simpl. rewrite Hcatch by done. set_solver.
        - intros e _. obs_simpl. by rewrite Hcatch. }
    rewrite !onStream_run.
    destruct (getHandler _ _) as [h|e3]; simpl;
      [destruct (may_run c h); simpl; [destruct (handler h id) as [[]|e4]; simpl|]|];
      destruct (metrics _); obs_simpl; rewrite ?Hcatch by done;
      (split; [exists (n_protocol stream), (mkError GenericError ""); set_solver|]);
      done.
Qed.

End IncomingOutcome.

(** X18, witness: the third inbound [/echo/1.0.0] stream, which is open when
    the muxer reports it. *)
Lemma incoming_stream_outcome_witness :
  let r := onIncomingStream (mss_selecting "/echo/1.0.0") (example_upgrader true false)
             "12D3KooWRemote" (Some (example_connection "/echo/1.0.0" inbound None))
             2 third_echo_stream in
  ∃ protocol err,
    obs delivered_or_aborted (trace r)
    ∈ [[EvHandler protocol 2]; [EvHandler protocol 2; EvStreamClose 2];
       [EvStreamAbort 2 err]; [EvStreamClose 2]].
Proof.
  exact (proj1 (incoming_stream_outcome (mss_selecting "/echo/1.0.0")
                  (example_upgrader true false)
                  (example_connection_options inbound None)
                  (example_connection "/echo/1.0.0" inbound None)
                  "12D3KooWRemote" 2 third_echo_stream
                  (ex_intro _ empty_world eq_refl)
                  (ex_intro _ _ eq_refl) eq_refl)).
Defined.

(** * Dialing *)

Section Dialing.
Context (multiaddrToNetConfig : Multiaddr → TCPDialOptions → NetConfig)
        (net_connect : NetConfig → SocketEvent)
        (toMultiaddrConnection : Socket → Multiaddr → MultiaddrConnection)
        (this : TCP).

Lemma connect_run ma options w :
  _connect multiaddrToNetConfig net_connect this ma options w
  = if dial_aborted options w then
      mkRun [] w (Err (signal_reason options w))
    else
      let dialer label := if tcp_metrics this then [EvDialerEvent label] else [] in
      let cOpts := multiaddrToNetConfig ma options in
      let t := connect_prefix options ++ fired (connecting options w) in
      if dial_aborted options (tick (connecting options w)) then
        mkRun (t ++ connect_aborted this) (connected options w) (Err new_AbortError)
      else
        match net_connect cOpts with
        | SocketConnect rawSocket =>
            mkRun (t ++ EvLog "connection opened %a" :: dialer "connect")
                  (connected options w) (Ok rawSocket)
        | SocketError err =>
            mkRun (t ++ dialer "error") (connected options w)
                  (Err (mkError (name err)
                          ("connection error " +:+ cOptsStr cOpts +:+ ": "
                           +:+ message err)))
        | SocketTimeout elapsed =>
            mkRun (t ++ EvLog "connection timeout %a" :: dialer "timeout" ++ dialer "error")
                  (connected options w)
                  (Err (mkError TimeoutError
                          ("connection error " +:+ cOptsStr cOpts +:+ ": " +:+
                           ("connection timeout after " +:+ pretty elapsed +:+ "ms"))))
        end.
Proof.
  unfold _connect, onAbort, onConnect, onTimeout, onError, done, connect_aborted,
    dial_aborted, signal_reason, connected, connecting, connect_prefix,
    dialerEvents_increment, with_signal, addEventListener, removeEventListener.
  destruct (dial_onProgress options), (tcp_metrics this);
    (destruct (signal options) as [s|]; cbn [from_option]; run_unfold;
     [ destruct (signal_aborted s w) eqn:Hab; [reflexivity|]; simpl;
       match goal with
       | |- context [signal_aborted s ?w'] => destruct (signal_aborted s w')
       end; simpl; [by rewrite ?app_nil_r, <- ?app_assoc|]
     | simpl ];
     destruct (net_connect _); simpl;
     f_equal; rewrite ?app_nil_r, <- ?app_assoc; simpl; reflexivity).
Qed.

Lemma bind_run_err {A B} (m : M A) (k : A → M B) w t w' e :
  m w = mkRun t w' (Err e) → (m ≫= k) w = mkRun t w' (Err e).
Proof. intros H. unfold mbind, M_bind, bind. by rewrite H. Qed.

Lemma dial_connect_failed ma options w t w' e :
  _connect multiaddrToNetConfig net_connect this ma (dial_defaults options) w
  = mkRun t w' (Err e) →
  dial multiaddrToNetConfig net_connect toMultiaddrConnection this ma options w
  = mkRun t w' (Err e).
Proof.
  intros Hc. unfold dial. cbv zeta. by apply bind_run_err.
Qed.

(** X19: [dial] with a signal that is aborted already throws the reason of
    the signal at once: no socket is opened, nothing is logged or
    counted. *)
Theorem dial_signal_already_aborted ma options w :
  dial_aborted options w = true →
  dial multiaddrToNetConfig net_connect toMultiaddrConnection this ma options w
  = mkRun [] w (Err (signal_reason options w)).
Proof.
  intros Hab. apply dial_connect_failed. rewrite connect_run.
  change (dial_aborted (dial_defaults options) w) with (dial_aborted options w).
  by rewrite Hab.
Qed.



(** X21: when the socket fails before it connects and the dial is not
    aborted, [dial] throws without calling the upgrader.  A socket error
    keeps its name, has its message prefixed with [connection error] and
    the address the socket was made for, which is [cOpts.path] or else
    [host:port], and is counted as [error]; a socket timeout is a
    [TimeoutError] that tells the time elapsed, has the same prefix and is
    counted as [timeout] and as [error], the timeout being reported through
    the error event of the socket. *)
Theorem dial_socket_failure ma options w :
  dial_aborted options w = false →
  dial_aborted options (tick (connecting options w)) = false →
  let r := dial multiaddrToNetConfig net_connect toMultiaddrConnection this ma options w in
  let cOpts := multiaddrToNetConfig ma (dial_defaults options) in
  let address := cOptsStr cOpts in
  match net_connect cOpts with
  | SocketConnect _ => True
  | SocketError err =>
      result r = Err (mkError (name err)
                        ("connection error " +:+ address +:+ ": " +:+ message err))
      ∧ obs is_dialerEvent (trace r)
        = (if tcp_metrics this then [EvDialerEvent "error"] else [])
      ∧ trace r = connect_prefix options ++ fired (connecting options w)
                  ++ if tcp_metrics this then [EvDialerEvent "error"] else []
  | SocketTimeout elapsed =>
      result r = Err (mkError TimeoutError
                        ("connection error " +:+ address +:+ ": " +:+
                         ("connection timeout after " +:+ pretty elapsed +:+ "ms")))
      ∧ obs is_dialerEvent (trace r)
        = (if tcp_metrics this
           then [EvDialerEvent "timeout"; EvDialerEvent "error"] else [])
      ∧ trace r = connect_prefix options ++ fired (connecting options w)
                  ++ EvLog "connection timeout %a"
                     :: if tcp_metrics this
                        then [EvDialerEvent "timeout"; EvDialerEvent "error"] else []
  end.
Proof.
  intros H1 H2 r cOpts address. subst r.
  pose proof (connect_run ma (dial_defaults options) w) as Hc.
  change (dial_aborted (dial_defaults options)) with (dial_aborted options) in Hc.
  change (connecting (dial_defaults options)) with (connecting options) in Hc.
  change (connected (dial_defaults options)) with (connected options) in Hc.
  change (connect_prefix (dial_defaults options)) with (connect_prefix options) in Hc.
  rewrite H1 in Hc. cbv zeta in Hc. rewrite H2 in Hc. fold cOpts address in Hc.
  destruct (net_connect cOpts) as [socket|err|elapsed]; [done| |];
    rewrite (dial_connect_failed _ _ _ _ _ _ Hc); simpl;
    (split_and!; [done| |by destruct (tcp_metrics this); rewrite <- app_assoc]);
    unfold connect_prefix;
    destruct (dial_onProgress options), (tcp_metrics this); by obs_simpl.
Qed.

Lemma with_signal_remove options l w :
  with_signal (signal options) (λ s, removeEventListener s l) w
  = mkRun [] (final (with_signal (signal options) (λ s, removeEventListener s l) w))
          (Ok tt)
  ∧ dial_aborted options
      (final (with_signal (signal options) (λ s, removeEventListener s l) w))
    = dial_aborted options w.
Proof.
  unfold with_signal, dial_aborted. destruct (signal options) as [s|]; [|done].
  split; [done|]. apply signal_aborted_removeEventListener.
Qed.

(** X22: once the socket is connected, [dial] is the outbound upgrade of the
    connection made from it.  An error of the upgrade is thrown as it is
    and nothing is done after it (the [onAbort] listener of [dial] stays on
    the signal); a connection the upgrade returns is returned, after the
    listener was removed, if the signal is not aborted by then. *)
Theorem dial_connects_then_upgrades ma options w t0 w0 socket t1 w2 upgraded :
  _connect multiaddrToNetConfig net_connect this ma (dial_defaults options) w
  = mkRun t0 w0 (Ok socket) →
  up_upgradeOutbound (upgrader options) (toMultiaddrConnection socket ma)
    (final (with_signal (signal options) (λ s, addEventListener s DialAbort) w0))
  = mkRun t1 w2 upgraded →
  let r := dial multiaddrToNetConfig net_connect toMultiaddrConnection this ma options w in
  match upgraded with
  | Err err =>
      r = mkRun (t0 ++ [EvSocketOnError; EvLog "new outbound connection %s"] ++ t1)
                w2 (Err err)
  | Ok conn =>
      dial_aborted options w2 = false →
      r = mkRun (t0 ++ [EvSocketOnError; EvLog "new outbound connection %s"] ++ t1
                 ++ [EvLog "outbound connection %s upgraded"])
                (final (with_signal (signal options)
                          (λ s, removeEventListener s DialAbort) w2))
                (Ok conn)
  end.
Proof.
  intros Hc Hu r. subst r. unfold dial. cbv zeta.
  change (signal (dial_defaults options)) with (signal options).
  change (upgrader (dial_defaults options)) with (upgrader options).
  erewrite (bind_run_ok (_connect _ _ _ _ _)) by exact Hc.
  erewrite (bind_run_ok (emit _)) by reflexivity.
  destruct (with_signal (signal options) (λ s, addEventListener s DialAbort) w0)
    as [ta wa ra] eqn:Hadd.
  assert (ta = [] ∧ ra = Ok tt) as [-> ->].
  { revert Hadd. unfold with_signal. destruct (signal options); by intros [= <- <- <-]. }
  simpl in Hu.
  erewrite (bind_run_ok (with_signal _ _)) by exact Hadd.
  erewrite (bind_run_ok (emit _)) by reflexivity.
  destruct upgraded as [conn|err].
  - intros Hab.
    erewrite (bind_run_ok (up_upgradeOutbound _ _)) by exact Hu.
    erewrite (bind_run_ok (emit _)) by reflexivity.
    destruct (with_signal_remove options DialAbort w2) as [Hrm Hsame].
    erewrite (bind_run_ok (with_signal _ _)) by exact Hrm.
    erewrite (bind_run_ok (gets _)) by reflexivity.
    match goal with
    | |- context [from_option _ false (signal options)] =>
        change (from_option _ false (signal options))
          with (dial_aborted options
                  (final (with_signal (signal options)
                            (λ s, removeEventListener s DialAbort) w2)))
    end.
    rewrite Hsame, Hab. reflexivity.
  - erewrite (bind_run_err (up_upgradeOutbound _ _)) by exact Hu.
    simpl. f_equal.
Qed.


End Dialing.


(** X19, witness: a dial whose signal has fired before does nothing and
    throws the reason of the signal. *)
Lemma dial_signal_already_aborted_witness :
  dial example_multiaddrToNetConfig example_net_connect
       example_toMultiaddrConnection (mkTCP false)
       (remoteAddr example_maConn) example_dial_options aborted_before_dial
  = mkRun [] aborted_before_dial (Err new_AbortError).
Proof.
  exact (dial_signal_already_aborted example_multiaddrToNetConfig example_net_connect
           example_toMultiaddrConnection
           (mkTCP false) (remoteAddr example_maConn) example_dial_options
           aborted_before_dial eq_refl).
Defined.


(** X21, witness: a socket for [192.0.2.1:4001] that is refused, on a transport
    with metrics. *)
Lemma dial_socket_failure_witness :
  let r := dial example_multiaddrToNetConfig refusing_net_connect
       example_toMultiaddrConnection (mkTCP true)
             (remoteAddr example_maConn) dial_options_without_signal empty_world in
  result r = Err (mkError GenericError
                    "connection error 192.0.2.1:4001: connect ECONNREFUSED 192.0.2.1:4001")
  ∧ obs is_dialerEvent (trace r) = [EvDialerEvent "error"].
Proof.
  destruct (dial_socket_failure example_multiaddrToNetConfig refusing_net_connect
              example_toMultiaddrConnection
              (mkTCP true) (remoteAddr example_maConn) dial_options_without_signal
              empty_world eq_refl eq_refl) as (Hr & Ho & _).
  split; [exact Hr|exact Ho].
Defined.

(** X22, witness: a dial without signal through the example upgrader returns
    the connection of the upgrade. *)
Lemma dial_connects_then_upgrades_witness :
  ∃ t w' conn,
    dial example_multiaddrToNetConfig example_net_connect
       example_toMultiaddrConnection (mkTCP false)
         (remoteAddr example_maConn) dial_options_without_signal empty_world
    = mkRun t w' (Ok conn).
Proof.
  pose proof (λ t0 w0 socket t1 w2 conn H1 H2,
              dial_connects_then_upgrades example_multiaddrToNetConfig
                example_net_connect example_toMultiaddrConnection (mkTCP false)
                (remoteAddr example_maConn) dial_options_without_signal empty_world
                t0 w0 socket t1 w2 (Ok conn) H1 H2) as H.
  eexists _, _, _. eapply H; reflexivity.
Defined.


(** * The address filters of the TCP transport *)

Section FilterProperties.
Context (formats : MultiaddrFormats).

(** X24: [listenFilter] keeps exactly the given addresses that hold no
    circuit code and either hold the unix code or match the TCP format once
    their peer id is decapsulated; an address with a circuit code is
    dropped even if it is a unix or a TCP address.  A single address is
    treated as an array of one, and [dialFilter] is [listenFilter]. *)
Theorem listenFilter_keeps_tcp_addresses multiaddrs ma :
  ((ma ∈ listenFilter formats (MultiaddrArray multiaddrs))
   ↔ (ma ∈ multiaddrs
      ∧ (CODE_CIRCUIT formats ∉ protoCodes formats ma)
      ∧ (CODE_UNIX formats ∈ protoCodes formats ma
         ∨ mafmt_TCP_matches formats (decapsulateCode formats ma (CODE_P2P formats))
           = true)))
  ∧ listenFilter formats (OneMultiaddr ma) = listenFilter formats (MultiaddrArray [ma])
  ∧ dialFilter formats (MultiaddrArray multiaddrs)
    = listenFilter formats (MultiaddrArray multiaddrs).
Proof.
  split_and!; [|done|done].
  unfold listenFilter, listenFilter_keeps. rewrite list_elem_of_filter.
  destruct (decide (CODE_CIRCUIT formats ∈ protoCodes formats ma)) as [Hc|Hc].
  - rewrite bool_decide_true by done. split; [by intros [? _]|by intros (_ & ? & _)].
  - rewrite bool_decide_false by done.
    destruct (decide (CODE_UNIX formats ∈ protoCodes formats ma)) as [Hu|Hu].
    + rewrite bool_decide_true by done. tauto.
    + rewrite bool_decide_false by done. tauto.
Qed.

End FilterProperties.

(** * Counting streams *)

(** X26: [countStreams] counts a stream for at most one direction, counts no
    stream that has not negotiated a protocol, does not depend on the order
    of the streams, and is additive over concatenation. *)
Theorem countStreams_counts protocol (streams streams' : list Stream) :
  countStreams protocol inbound streams + countStreams protocol outbound streams
  ≤ length streams
  ∧ (∀ d, Forall (λ stream, s_protocol stream = None) streams →
          countStreams protocol d streams = 0)
  ∧ (∀ d, streams ≡ₚ streams' →
          countStreams protocol d streams = countStreams protocol d streams')
  ∧ ∀ d, countStreams protocol d (streams ++ streams')
         = countStreams protocol d streams + countStreams protocol d streams'.
Proof.
  split_and!.
  - unfold countStreams. induction streams as [|s l IH]; [done|].
    rewrite !filter_cons. simpl.
    destruct (s_direction s); simpl; repeat case_decide; simpl; try done; lia.
  - intros d Hn. unfold countStreams.
    induction Hn as [|s l Hs Hl IH]; [done|].
    rewrite filter_cons_False; [done|].
    unfold protocol_is. rewrite Hs. by rewrite andb_false_r.
  - intros d Hp. unfold countStreams. by rewrite Hp.
  - intros d. apply countStreams_app.
Qed.
